(** * WireStrike: a shallow embedding of [main.py]

    The game is a single-threaded frame loop over Python floats and ints.
    Python's [float] is IEEE-754 binary64, which is what Rocq's primitive
    [float] is, so every arithmetic expression of the source is kept as it is
    written and computes here to the value it has there.  Python's [int] is
    unbounded and is modelled by [Z].  Exceptions that the source can raise
    ([OverflowError], [ValueError]) are results of the model; the hidden state
    of the [random] module is a cursor into a stream of draws.  Of the
    rendering, [project], [draw_wireframe], the [draw] methods built on it and
    the ground grid are modelled, a surface being the drawing calls it has
    received; the depth sort of the entities and the text are not. *)

From Stdlib Require Import ZArith List Bool Floats Lia Permutation.
Import ListNotations.

Set Warnings "-inexact-float".

(** ** Exceptions and results *)

Inductive exn : Set :=
| OverflowError
| ValueError.

Inductive result (A : Type) : Type :=
| Ok (a : A)
| Raise (e : exn).

Arguments Ok {A} a.
Arguments Raise {A} e.

Definition rbind {A B : Type} (r : result A) (k : A -> result B) : result B :=
  match r with
  | Ok a => k a
  | Raise e => Raise e
  end.

(** ** The frame monad: random draws and exceptions

    [random.random()] reads the next element of a stream of draws; a
    computation gets the stream and the position of the next draw, and either
    raises or returns a value with the new position. *)

Definition M (A : Type) : Type := (nat -> float) -> nat -> result (A * nat).

Definition ret {A : Type} (a : A) : M A := fun _ c => Ok (a, c).

Definition bind {A B : Type} (m : M A) (k : A -> M B) : M B :=
  fun g c =>
    match m g c with
    | Ok (a, c') => k a g c'
    | Raise e => Raise e
    end.

Definition lift {A : Type} (r : result A) : M A :=
  fun _ c =>
    match r with
    | Ok a => Ok (a, c)
    | Raise e => Raise e
    end.

Declare Scope py_scope.
Delimit Scope py_scope with py.
Notation "x <- m ;; k" := (bind m (fun x => k))
  (at level 61, m at next level, right associativity) : py_scope.
Notation "' pat <- m ;; k" := (bind m (fun x => match x with pat => k end))
  (at level 61, pat pattern, m at next level, right associativity) : py_scope.
Notation "x <-- r ;; k" := (rbind r (fun x => k))
  (at level 61, r at next level, right associativity) : py_scope.

Open Scope float_scope.
Open Scope py_scope.

(** [random.random()] and [random.uniform(a, b)], the latter as CPython
    defines it: [a + (b - a) * self.random()]. *)
Definition random : M float := fun g c => Ok (g c, S c).

Definition uniform (a b : float) : M float :=
  r <- random ;; ret (a + (b - a) * r).

(** ** Float operations of Python that are not plain IEEE operations *)

(** [min(a, b)] and [max(a, b)] of two arguments: the first argument is kept
    unless the second compares strictly below (above) it. *)
Definition py_min (a b : float) : float := if b <? a then b else a.
Definition py_max (a b : float) : float := if a <? b then b else a.

(** [v ** 2] on a float: C [pow(v, 2.0)], taken as the correctly rounded
    square; CPython raises [OverflowError] when a finite base gives an
    infinite result. *)
Definition float_pow2 (v : float) : result float :=
  let r := v * v in
  if is_finite v && is_infinity r then Raise OverflowError else Ok r.

(** [math.sqrt(v)]: a NaN result from a non-NaN argument is a domain error. *)
Definition math_sqrt (v : float) : result float :=
  let r := sqrt v in
  if is_nan r && negb (is_nan v) then Raise ValueError else Ok r.

(** [int(f)]: truncation toward zero of a finite float; [OverflowError] on an
    infinity and [ValueError] on a NaN. *)
Definition py_int (f : float) : result Z :=
  match Prim2SF f with
  | S754_zero _ => Ok 0%Z
  | S754_infinity _ => Raise OverflowError
  | S754_nan => Raise ValueError
  | S754_finite s m e =>
      let mag := if (0 <=? e)%Z then Z.shiftl (Z.pos m) e
                 else Z.shiftr (Z.pos m) (- e) in
      Ok (if s then (- mag)%Z else mag)
  end.

(** True division [a / b] of two small Python ints. *)
Definition float_of_int (n : Z) : float :=
  if (n <? 0)%Z then - of_uint63 (Uint63.of_Z (- n)) else of_uint63 (Uint63.of_Z n).

Definition truediv (a b : Z) : float := float_of_int a / float_of_int b.

(** ** Constants *)

Definition WIDTH : Z := 800.
Definition HEIGHT : Z := 600.
Definition FPS : Z := 60.
Definition FOV : float := 400.

Definition rgb : Set := (Z * Z * Z)%type.
Definition CYAN : rgb := (0, 255, 255)%Z.
Definition RED : rgb := (255, 50, 50)%Z.
Definition YELLOW : rgb := (255, 255, 0)%Z.

(** ** 3D engine *)

Definition project (x y z : float) : result (option (Z * Z)) :=
  if z <? 0.1 then Ok None
  else
    let factor := FOV / z in
    let px := truediv WIDTH 2 + x * factor in
    let py := truediv HEIGHT 2 - y * factor in
    ix <-- py_int px ;;
    iy <-- py_int py ;;
    Ok (Some (ix, iy)).

(** ** Input: keys and events *)

Inductive key : Set :=
| K_LEFT | K_RIGHT | K_UP | K_DOWN
| K_a | K_d | K_w | K_s
| K_SPACE | K_r
| K_OTHER.

(** What [pygame.event.get()] yields: the loop reads only [QUIT] and
    [KEYDOWN] events. *)
Inductive event : Set :=
| QUIT
| KEYDOWN (k : key)
| OTHER.

Definition is_space (k : key) : bool :=
  match k with K_SPACE => true | _ => false end.

Definition is_r (k : key) : bool :=
  match k with K_r => true | _ => false end.

(** ** Game classes *)

Module Player.

Record t : Set := mk {
  x : float;
  y : float;
  z : float;
  vx : float;
  vy : float;
  speed : float;
  bank_angle : float;
  cooldown : float;
  hp : Z
}.

(** [Player()] *)
Definition init : t := mk 0 0 10 0 0 15 0 0 100.

Definition set_cooldown (c : float) (self : t) : t :=
  mk (x self) (y self) (z self) (vx self) (vy self) (speed self)
     (bank_angle self) c (hp self).

Definition set_hp (h : Z) (self : t) : t :=
  mk (x self) (y self) (z self) (vx self) (vy self) (speed self)
     (bank_angle self) (cooldown self) h.

Definition update (dt : float) (keys : key -> bool) (self : t) : t :=
  let vx1 :=
    if keys K_LEFT || keys K_a then - speed self
    else if keys K_RIGHT || keys K_d then speed self
    else vx self * 0.8 in
  let vy1 :=
    if keys K_UP || keys K_w then speed self
    else if keys K_DOWN || keys K_s then - speed self
    else vy self * 0.8 in
  let x1 := x self + vx1 * dt in
  let y1 := y self + vy1 * dt in
  let x2 := py_max (-15) (py_min 15 x1) in
  let y2 := py_max (-8) (py_min 8 y1) in
  let target_bank := (- vx1) * 0.05 in
  let bank := bank_angle self + (target_bank - bank_angle self) * 10 * dt in
  let cd := if 0 <? cooldown self then cooldown self - dt else cooldown self in
  mk x2 y2 (z self) vx1 vy1 (speed self) bank cd (hp self).

End Player.

Module Laser.

Record t : Set := mk {
  x : float;
  y : float;
  z : float;
  speed : float;
  active : bool
}.

(** [Laser(x, y, z)] *)
Definition init (x0 y0 z0 : float) : t := mk x0 y0 z0 100 true.

Definition set_active (b : bool) (self : t) : t :=
  mk (x self) (y self) (z self) (speed self) b.

Definition update (dt : float) (self : t) : t :=
  let z1 := z self + speed self * dt in
  mk (x self) (y self) z1 (speed self)
     (if 150 <? z1 then false else active self).

End Laser.

Module Enemy.

Record t : Set := mk {
  x : float;
  y : float;
  z : float;
  speed : float;
  active : bool;
  radius : float
}.

(** [Enemy()] *)
Definition init : M t :=
  x0 <- uniform (-15) 15 ;;
  y0 <- uniform (-5) 10 ;;
  s0 <- uniform 20 40 ;;
  ret (mk x0 y0 150 s0 true 1.5).

Definition set_active (b : bool) (self : t) : t :=
  mk (x self) (y self) (z self) (speed self) b (radius self).

Definition update (dt : float) (self : t) : t :=
  let z1 := z self - speed self * dt in
  mk (x self) (y self) z1 (speed self)
     (if z1 <? 0 then false else active self) (radius self).

End Enemy.

Module Obstacle.

Record t : Set := mk {
  x : float;
  y : float;
  z : float;
  speed : float;
  active : bool;
  radius : float
}.

(** [Obstacle()] *)
Definition init : M t :=
  x0 <- uniform (-20) 20 ;;
  ret (mk x0 (-8) 150 30 true 2).

Definition set_active (b : bool) (self : t) : t :=
  mk (x self) (y self) (z self) (speed self) b (radius self).

Definition update (dt : float) (self : t) : t :=
  let z1 := z self - speed self * dt in
  mk (x self) (y self) z1 (speed self)
     (if z1 <? 0 then false else active self) (radius self).

End Obstacle.

Module Particle.

Record t : Set := mk {
  x : float;
  y : float;
  z : float;
  vx : float;
  vy : float;
  vz : float;
  life : float;
  color : rgb
}.

(** [Particle(x, y, z, color)] *)
Definition init (x0 y0 z0 : float) (c : rgb) : M t :=
  vx0 <- uniform (-10) 10 ;;
  vy0 <- uniform (-10) 10 ;;
  vz0 <- uniform (-10) 10 ;;
  ret (mk x0 y0 z0 vx0 vy0 vz0 1 c).

Definition update (dt : float) (self : t) : t :=
  mk (x self + vx self * dt) (y self + vy self * dt) (z self + vz self * dt)
     (vx self) (vy self) (vz self) (life self - dt) (color self).

End Particle.

(** ** What the player collides with

    [enemies + obstacles] is a list of objects of two classes that the loop
    reads through the same attributes; the elements are the objects of the two
    lists themselves, so a flag cleared through the concatenation is cleared
    in [enemies] or [obstacles]. *)

Class Entity (A : Type) : Type := {
  ent_x : A -> float;
  ent_y : A -> float;
  ent_z : A -> float;
  ent_radius : A -> float;
  ent_active : A -> bool;
  ent_deactivate : A -> A
}.

#[export] Instance Entity_Enemy : Entity Enemy.t := {
  ent_x := Enemy.x;
  ent_y := Enemy.y;
  ent_z := Enemy.z;
  ent_radius := Enemy.radius;
  ent_active := Enemy.active;
  ent_deactivate := Enemy.set_active false
}.

#[export] Instance Entity_Obstacle : Entity Obstacle.t := {
  ent_x := Obstacle.x;
  ent_y := Obstacle.y;
  ent_z := Obstacle.z;
  ent_radius := Obstacle.radius;
  ent_active := Obstacle.active;
  ent_deactivate := Obstacle.set_active false
}.

#[export] Instance Entity_sum {A B : Type} `{Entity A} `{Entity B} : Entity (A + B) := {
  ent_x := fun e => match e with inl a => ent_x a | inr b => ent_x b end;
  ent_y := fun e => match e with inl a => ent_y a | inr b => ent_y b end;
  ent_z := fun e => match e with inl a => ent_z a | inr b => ent_z b end;
  ent_radius := fun e => match e with inl a => ent_radius a | inr b => ent_radius b end;
  ent_active := fun e => match e with inl a => ent_active a | inr b => ent_active b end;
  ent_deactivate := fun e =>
    match e with inl a => inl (ent_deactivate a) | inr b => inr (ent_deactivate b) end
}.

Definition hazard : Set := (Enemy.t + Obstacle.t)%type.

Fixpoint lefts {A B : Type} (l : list (A + B)) : list A :=
  match l with
  | [] => []
  | inl a :: l' => a :: lefts l'
  | inr _ :: l' => lefts l'
  end.

Fixpoint rights {A B : Type} (l : list (A + B)) : list B :=
  match l with
  | [] => []
  | inl _ :: l' => rights l'
  | inr b :: l' => b :: rights l'
  end.

(** ** The state of [main]

    The local variables of [main] that the loop reads and writes.
    [world_speed] is never assigned after its initialisation. *)

Record World : Set := mkWorld {
  player : Player.t;
  lasers : list Laser.t;
  enemies : list Enemy.t;
  obstacles : list Obstacle.t;
  particles : list Particle.t;
  score : Z;
  scroll_offset : float;
  running : bool;
  game_over : bool
}.

Definition world_speed : float := 30.

Definition World_init : World :=
  mkWorld Player.init [] [] [] [] 0 0 true false.

Definition set_player (p : Player.t) (w : World) : World :=
  mkWorld p (lasers w) (enemies w) (obstacles w) (particles w) (score w)
          (scroll_offset w) (running w) (game_over w).

Definition set_lasers (ls : list Laser.t) (w : World) : World :=
  mkWorld (player w) ls (enemies w) (obstacles w) (particles w) (score w)
          (scroll_offset w) (running w) (game_over w).

Definition set_enemies (es : list Enemy.t) (w : World) : World :=
  mkWorld (player w) (lasers w) es (obstacles w) (particles w) (score w)
          (scroll_offset w) (running w) (game_over w).

Definition set_obstacles (os : list Obstacle.t) (w : World) : World :=
  mkWorld (player w) (lasers w) (enemies w) os (particles w) (score w)
          (scroll_offset w) (running w) (game_over w).

Definition set_particles (ps : list Particle.t) (w : World) : World :=
  mkWorld (player w) (lasers w) (enemies w) (obstacles w) ps (score w)
          (scroll_offset w) (running w) (game_over w).

Definition set_score (n : Z) (w : World) : World :=
  mkWorld (player w) (lasers w) (enemies w) (obstacles w) (particles w) n
          (scroll_offset w) (running w) (game_over w).

Definition set_scroll_offset (o : float) (w : World) : World :=
  mkWorld (player w) (lasers w) (enemies w) (obstacles w) (particles w) (score w)
          o (running w) (game_over w).

Definition set_running (b : bool) (w : World) : World :=
  mkWorld (player w) (lasers w) (enemies w) (obstacles w) (particles w) (score w)
          (scroll_offset w) b (game_over w).

Definition set_game_over (b : bool) (w : World) : World :=
  mkWorld (player w) (lasers w) (enemies w) (obstacles w) (particles w) (score w)
          (scroll_offset w) (running w) b.

(** ** Events *)

(** The body of [if player.cooldown <= 0:] under [K_SPACE]. *)
Definition fire (w : World) : World :=
  let p := player w in
  let l1 := Laser.init (Player.x p - 1.5) (Player.y p) (Player.z p) in
  let l2 := Laser.init (Player.x p + 1.5) (Player.y p) (Player.z p) in
  set_player (Player.set_cooldown 0.2 p) (set_lasers (lasers w ++ [l1] ++ [l2]) w).

(** The body of [if event.key == pygame.K_r and game_over:]. *)
Definition restart (w : World) : World :=
  mkWorld Player.init [] [] [] [] 0 (scroll_offset w) (running w) false.

Definition handle_event (w : World) (ev : event) : World :=
  let w1 := match ev with QUIT => set_running false w | _ => w end in
  match ev with
  | KEYDOWN k =>
      let w2 :=
        if is_space k && negb (game_over w1) then
          if Player.cooldown (player w1) <=? 0 then fire w1 else w1
        else w1 in
      if is_r k && game_over w2 then restart w2 else w2
  | _ => w1
  end.

Definition handle_events (events : list event) (w : World) : World :=
  fold_left handle_event events w.

(** ** Collisions *)

(** [math.sqrt((ax - bx) ** 2 + (ay - by) ** 2 + (az - bz) ** 2)] *)
Definition dist3 (ax ay az bx by_ bz : float) : result float :=
  dx2 <-- float_pow2 (ax - bx) ;;
  dy2 <-- float_pow2 (ay - by_) ;;
  dz2 <-- float_pow2 (az - bz) ;;
  math_sqrt (dx2 + dy2 + dz2).

(** [for _ in range(n): particles.append(Particle(x, y, z, c))] *)
Fixpoint explode (n : nat) (x y z : float) (c : rgb) (ps : list Particle.t)
  : M (list Particle.t) :=
  match n with
  | O => ret ps
  | S n' =>
      p <- Particle.init x y z c ;;
      explode n' x y z c (ps ++ [p])
  end.

(** The body of the inner loop of "Lasers vs Enemies", for one pair. *)
Definition laser_vs_enemy (l : Laser.t) (e : Enemy.t) (w : World)
  : M (Laser.t * Enemy.t * World) :=
  if negb (Enemy.active e) || negb (Laser.active l) then ret (l, e, w)
  else
    dist <- lift (dist3 (Laser.x l) (Laser.y l) (Laser.z l)
                        (Enemy.x e) (Enemy.y e) (Enemy.z e)) ;;
    if dist <? Enemy.radius e + 1 then
      let e1 := Enemy.set_active false e in
      let l1 := Laser.set_active false l in
      let w1 := set_score (score w + 100) w in
      ps1 <- explode 15 (Enemy.x e1) (Enemy.y e1) (Enemy.z e1) RED (particles w1) ;;
      ps2 <- explode 10 (Enemy.x e1) (Enemy.y e1) (Enemy.z e1) YELLOW ps1 ;;
      ret (l1, e1, set_particles ps2 w1)
    else ret (l, e, w).

(** [for e in enemies: ...] for one laser [l]. *)
Fixpoint laser_vs_enemies (l : Laser.t) (es : list Enemy.t) (w : World)
  : M (Laser.t * list Enemy.t * World) :=
  match es with
  | [] => ret (l, [], w)
  | e :: es' =>
      ' (l1, e1, w1) <- laser_vs_enemy l e w ;;
      ' (l2, es2, w2) <- laser_vs_enemies l1 es' w1 ;;
      ret (l2, e1 :: es2, w2)
  end.

(** [for l in lasers: for e in enemies: ...] *)
Fixpoint lasers_vs_enemies (ls : list Laser.t) (es : list Enemy.t) (w : World)
  : M (list Laser.t * list Enemy.t * World) :=
  match ls with
  | [] => ret ([], es, w)
  | l :: ls' =>
      ' (l1, es1, w1) <- laser_vs_enemies l es w ;;
      ' (ls2, es2, w2) <- lasers_vs_enemies ls' es1 w1 ;;
      ret (l1 :: ls2, es2, w2)
  end.

(** The body of the loop of "Player vs Enemies/Obstacles", for one entity. *)
Definition player_vs_entity {A : Type} `{Entity A} (entity : A) (w : World)
  : M (A * World) :=
  if negb (ent_active entity) then ret (entity, w)
  else
    let p := player w in
    dist <- lift (dist3 (Player.x p) (Player.y p) (Player.z p)
                        (ent_x entity) (ent_y entity) (ent_z entity)) ;;
    if dist <? ent_radius entity + 1.5 then
      let entity1 := ent_deactivate entity in
      let p1 := Player.set_hp (Player.hp p - 25) p in
      let w1 := set_player p1 w in
      ps1 <- explode 20 (Player.x p1) (Player.y p1) (Player.z p1) CYAN (particles w1) ;;
      let w2 := set_particles ps1 w1 in
      if (Player.hp p1 <=? 0)%Z then ret (entity1, set_game_over true w2)
      else ret (entity1, w2)
    else ret (entity, w).

(** [for entity in ...: ...] *)
Fixpoint player_vs_entities {A : Type} `{Entity A} (ents : list A) (w : World)
  : M (list A * World) :=
  match ents with
  | [] => ret ([], w)
  | entity :: ents' =>
      ' (entity1, w1) <- player_vs_entity entity w ;;
      ' (ents1, w2) <- player_vs_entities ents' w1 ;;
      ret (entity1 :: ents1, w2)
  end.

(** [enemies + obstacles] *)
Definition hazards (es : list Enemy.t) (os : list Obstacle.t) : list hazard :=
  map inl es ++ map inr os.

(** ** The frame *)

(** The steps of the body of [if not game_over:], one per commented section
    of the source. *)

(** "Grid scrolling" *)
Definition scroll_grid (dt : float) (w : World) : World :=
  let off := scroll_offset w + world_speed * dt in
  set_scroll_offset (if 10 <? off then off - 10 else off) w.

(** "Generate enemies and obstacles" *)
Definition generate (w : World) : M World :=
  r1 <- random ;;
  w1 <- (if r1 <? 0.02
         then e <- Enemy.init ;; ret (set_enemies (enemies w ++ [e]) w)
         else ret w) ;;
  r2 <- random ;;
  if r2 <? 0.03
  then o <- Obstacle.init ;; ret (set_obstacles (obstacles w1 ++ [o]) w1)
  else ret w1.

(** "Update entities" *)
Definition update_entities (dt : float) (w : World) : World :=
  let w := set_lasers (map (Laser.update dt) (lasers w)) w in
  let w := set_enemies (map (Enemy.update dt) (enemies w)) w in
  let w := set_obstacles (map (Obstacle.update dt) (obstacles w)) w in
  set_particles (map (Particle.update dt) (particles w)) w.

(** "Remove inactive" *)
Definition remove_inactive (w : World) : World :=
  let w := set_lasers (filter Laser.active (lasers w)) w in
  let w := set_enemies (filter Enemy.active (enemies w)) w in
  let w := set_obstacles (filter Obstacle.active (obstacles w)) w in
  set_particles (filter (fun p => 0 <? Particle.life p) (particles w)) w.

(** "Collisions: Lasers vs Enemies" *)
Definition collide_lasers (w : World) : M World :=
  ' (ls, es, w1) <- lasers_vs_enemies (lasers w) (enemies w) w ;;
  ret (set_enemies es (set_lasers ls w1)).

(** "Collisions: Player vs Enemies/Obstacles" *)
Definition collide_player (w : World) : M World :=
  ' (hs, w1) <- player_vs_entities (hazards (enemies w) (obstacles w)) w ;;
  ret (set_obstacles (rights hs) (set_enemies (lefts hs) w1)).

(** The two collision passes, one after the other. *)
Definition collide (w : World) : M World :=
  w1 <- collide_lasers w ;;
  collide_player w1.

(** The body of [if not game_over:]. *)
Definition update_world (dt : float) (keys : key -> bool) (w : World) : M World :=
  let w := set_player (Player.update dt keys (player w)) w in
  let w := scroll_grid dt w in
  w <- generate w ;;
  let w := remove_inactive (update_entities dt w) in
  collide w.

(** One iteration of [while running:] up to the drawing: [dt] is
    [clock.tick(FPS) / 1000.0], [events] what [pygame.event.get()] returns and
    [keys] what [pygame.key.get_pressed()] returns. *)
Definition frame (dt : float) (events : list event) (keys : key -> bool) (w : World)
  : M World :=
  let w := handle_events events w in
  if game_over w then ret w else update_world dt keys w.

(** [clock.tick(FPS) / 1000.0] for a tick of [ms] milliseconds. *)
Definition tick_dt (ms : Z) : float := float_of_int ms / 1000.

(** ** The loop *)

Record frame_input : Type := mkInput {
  in_dt : float;
  in_events : list event;
  in_keys : key -> bool
}.

(** [while running:] over the inputs of finitely many frames. *)
Fixpoint main_loop (inputs : list frame_input) (w : World) : M World :=
  match inputs with
  | [] => ret w
  | i :: rest =>
      if running w then
        w' <- frame (in_dt i) (in_events i) (in_keys i) w ;;
        main_loop rest w'
      else ret w
  end.

(** The states the loop can be in between two frames. *)
Definition reachable (w : World) : Prop :=
  exists (inputs : list frame_input) (g : nat -> float) (c c' : nat),
    main_loop inputs World_init g c = Ok (w, c').

(** ** Quantities the statements below are about *)

(** The particles that [explode n] appends when the next draw is at [cur]. *)
Fixpoint burst (n : nat) (x y z : float) (c : rgb) (g : nat -> float) (cur : nat)
  : list Particle.t :=
  match n with
  | O => []
  | S n' =>
      Particle.mk x y z
        (-10 + (10 - -10) * g cur)
        (-10 + (10 - -10) * g (S cur))
        (-10 + (10 - -10) * g (S (S cur))) 1 c
      :: burst n' x y z c g (3 + cur)
  end.

(** A particle created at [(x, y, z)] with colour [c]. *)
Definition particle_at (x y z : float) (c : rgb) (p : Particle.t) : Prop :=
  Particle.x p = x /\ Particle.y p = y /\ Particle.z p = z /\
  Particle.life p = 1 /\ Particle.color p = c.

(** The test [dist < e.radius + 1.0] of a laser against an enemy. *)
Definition laser_hits (l : Laser.t) (e : Enemy.t) : result bool :=
  dist <-- dist3 (Laser.x l) (Laser.y l) (Laser.z l)
                 (Enemy.x e) (Enemy.y e) (Enemy.z e) ;;
  Ok (dist <? Enemy.radius e + 1).

(** The test [dist < entity.radius + 1.5] of the player against an entity. *)
Definition player_hits {A : Type} `{Entity A} (p : Player.t) (entity : A) : result bool :=
  dist <-- dist3 (Player.x p) (Player.y p) (Player.z p)
                 (ent_x entity) (ent_y entity) (ent_z entity) ;;
  Ok (dist <? ent_radius entity + 1.5).

(** No distance computation of the laser against these enemies raises. *)
Definition hits_defined (l : Laser.t) (es : list Enemy.t) : Prop :=
  Forall (fun e => exists b, laser_hits l e = Ok b) es.

(** The distance of an active entity to the player is computed without an
    exception. *)
Definition hit_defined {A : Type} `{Entity A} (p : Player.t) (entity : A) : Prop :=
  ent_active entity = true -> exists b, player_hits p entity = Ok b.

(** No distance computation of the two passes raises in this state. *)
Definition ranges_defined (w : World) : Prop :=
  Forall (fun l => hits_defined l (enemies w)) (lasers w) /\
  Forall (fun e => exists b, player_hits (player w) e = Ok b) (enemies w) /\
  Forall (fun o => exists b, player_hits (player w) o = Ok b) (obstacles w).

Definition active_lasers (ls : list Laser.t) : nat :=
  length (filter Laser.active ls).

Definition active_enemies (es : list Enemy.t) : nat :=
  length (filter Enemy.active es).

(** Entities whose flag is cleared: what a frame's collisions leave in the
    lists until the next frame removes them. *)
Definition idle_lasers (ls : list Laser.t) : nat :=
  length (filter (fun l => negb (Laser.active l)) ls).

Definition idle {A : Type} `{Entity A} (ents : list A) : nat :=
  length (filter (fun e => negb (ent_active e)) ents).

(** What a collision pass may do to an entity: nothing, or clear the flag of
    one that was active. *)
Definition laser_step (l l' : Laser.t) : Prop :=
  l' = l \/ (Laser.active l = true /\ l' = Laser.set_active false l).

Definition enemy_step (e e' : Enemy.t) : Prop :=
  e' = e \/ (Enemy.active e = true /\ e' = Enemy.set_active false e).

(** The laser and the enemy, if both active, were found farther apart than
    the collision distance. *)
Definition out_of_reach (l : Laser.t) (e : Enemy.t) : Prop :=
  Laser.active l = true -> Enemy.active e = true -> laser_hits l e = Ok false.

(** The state after [k] scoring hits that appended the particles [new]. *)
Definition tally (k : nat) (new : list Particle.t) (w : World) : World :=
  set_particles (particles w ++ new) (set_score (score w + 100 * Z.of_nat k) w).

(** The state after [k] collisions of the player, the first of which drew its
    particles at position [c] of the stream. *)
Definition wounded (k : nat) (g : nat -> float) (c : nat) (w : World) : World :=
  let p := player w in
  let h := (Player.hp p - 25 * Z.of_nat k)%Z in
  set_game_over (game_over w || ((0 <? k)%nat && (h <=? 0)%Z))
    (set_particles
       (particles w ++ burst (20 * k) (Player.x p) (Player.y p) (Player.z p) CYAN g c)
       (set_player (Player.set_hp h p) w)).

(** The entity is active and the player is within its collision distance. *)
Definition struck {A : Type} `{Entity A} (p : Player.t) (entity : A) : bool :=
  ent_active entity &&
  match player_hits p entity with Ok b => b | Raise _ => false end.

Definition after_player {A : Type} `{Entity A} (p : Player.t) (entity : A) : A :=
  if struck p entity then ent_deactivate entity else entity.

Definition collisions {A : Type} `{Entity A} (p : Player.t) (ents : list A) : nat :=
  length (filter (struck p) ents).

(** What [generate] leaves alone. *)
Definition same_but_spawns (w w' : World) : Prop :=
  player w' = player w /\ lasers w' = lasers w /\ particles w' = particles w /\
  score w' = score w /\ scroll_offset w' = scroll_offset w /\
  running w' = running w /\ game_over w' = game_over w.

(** The restart input: a [KEYDOWN] event of the key R. *)
Definition is_restart_key (ev : event) : bool :=
  match ev with KEYDOWN K_r => true | _ => false end.

Definition is_quit (ev : event) : bool :=
  match ev with QUIT => true | _ => false end.

(** The events of the frame restart the game: it is over and R is pressed. *)
Definition restarts (events : list event) (w : World) : bool :=
  game_over w && existsb is_restart_key events.

(** What an event other than a restart leaves alone. *)
Definition benign (w w' : World) : Prop :=
  score w' = score w /\
  Player.hp (player w') = Player.hp (player w) /\
  Player.x (player w') = Player.x (player w) /\
  Player.y (player w') = Player.y (player w) /\
  game_over w' = game_over w.

(** The clamping bounds of [Player.update]. *)
Definition in_bounds (p : Player.t) : bool :=
  (-15 <=? Player.x p) && (Player.x p <=? 15) &&
  (-8 <=? Player.y p) && (Player.y p <=? 8).

(** The invariant of the loop: the score counts hits, health counts
    collisions down from 100, the game is over exactly when health is used up,
    and the ship is inside its clamping bounds. *)
Definition sound (w : World) : Prop :=
  (exists k : nat, score w = (100 * Z.of_nat k)%Z) /\
  (exists j : nat, Player.hp (player w) = (100 - 25 * Z.of_nat j)%Z) /\
  (game_over w = true <-> (Player.hp (player w) <= 0)%Z) /\
  in_bounds (player w) = true.

(** The exact value of a finite float as a fraction [(num, den)] with
    [den] a power of two. *)
Definition float_ratio (f : float) : option (Z * Z) :=
  match Prim2SF f with
  | S754_zero _ => Some (0, 1)%Z
  | S754_finite s m e =>
      Some ((if s then Z.neg m else Z.pos m) * 2 ^ Z.max e 0, 2 ^ Z.max (- e) 0)%Z
  | _ => None
  end.

(** [n] is [f] rounded toward zero. *)
Definition truncation_of (f : float) (n : Z) : Prop :=
  exists num den : Z,
    float_ratio f = Some (num, den) /\ (0 < den)%Z /\ n = Z.quot num den.

(** The two screen coordinates before [int()], as the source computes them. *)
Definition screen_x (x z : float) : float := truediv WIDTH 2 + x * (FOV / z).
Definition screen_y (y z : float) : float := truediv HEIGHT 2 - y * (FOV / z).

(** ** Iteration order of the collision passes *)

(** The laser is active, the enemy is active and the laser is within the
    enemy's collision distance. *)
Definition hit (l : Laser.t) (e : Enemy.t) : bool :=
  Laser.active l && Enemy.active e &&
  match laser_hits l e with Ok b => b | Raise _ => false end.

(** No laser is within reach of two enemies and no enemy within reach of two
    lasers. *)
Definition uncontended (ls : list Laser.t) (es : list Enemy.t) : Prop :=
  (forall l, In l ls -> (length (filter (hit l) es) <= 1)%nat) /\
  (forall e, In e es -> (length (filter (fun l => hit l e) ls) <= 1)%nat).

Definition zap_laser (es : list Enemy.t) (l : Laser.t) : Laser.t :=
  if existsb (hit l) es then Laser.set_active false l else l.

Definition zap_enemy (ls : list Laser.t) (e : Enemy.t) : Enemy.t :=
  if existsb (fun l => hit l e) ls then Enemy.set_active false e else e.

(** The same state with the entity lists in another order. *)
Definition reordered (w1 w2 : World) : Prop :=
  player w2 = player w1 /\
  Permutation (lasers w1) (lasers w2) /\
  Permutation (enemies w1) (enemies w2) /\
  Permutation (obstacles w1) (obstacles w2) /\
  particles w2 = particles w1 /\ score w2 = score w1 /\
  scroll_offset w2 = scroll_offset w1 /\
  running w2 = running w1 /\ game_over w2 = game_over w1.

(** The same score, health and game-over flag, and the same entities with
    the same flags. *)
Definition same_outcome (r1 r2 : World) : Prop :=
  score r1 = score r2 /\
  Player.hp (player r1) = Player.hp (player r2) /\
  game_over r1 = game_over r2 /\
  Permutation (lasers r1) (lasers r2) /\
  Permutation (enemies r1) (enemies r2) /\
  Permutation (obstacles r1) (obstacles r2).

(** ** Runs used as instances *)

Definition no_keys : key -> bool := fun _ => false.

(** Draws under which nothing is spawned and every particle is at rest. *)
Definition no_spawn : nat -> float := fun _ => 0.5.

(** A frame of [ms] milliseconds without events and with no key held. *)
Definition quiet_frame (ms : Z) : frame_input := mkInput (tick_dt ms) [] no_keys.

(** The state after the loop has run on [inputs] from the start of [main],
    with the draws [g]. *)
Definition outcome (inputs : list frame_input) (g : nat -> float) : World :=
  match main_loop inputs World_init g 0%nat with
  | Ok (w, _) => w
  | Raise _ => World_init
  end.

(** Three frames of 400 ms with the right arrow held and nothing spawned. *)
Definition steer_right : list frame_input :=
  repeat (mkInput (tick_dt 400) [] (fun k => match k with K_RIGHT => true | _ => false end)) 3.

(** Five frames of 16 ms in each of which an enemy is spawned at
    [x = 0], [y = -1.25] with speed 20 and no obstacle, then one frame of
    6970 ms (the process was stalled): the five enemies reach the ship in
    that frame. *)
Definition overrun_inputs : list frame_input :=
  repeat (quiet_frame 16) 5 ++ [quiet_frame 6970].

Definition overrun_draws : nat -> float :=
  fun i => nth i (concat (repeat [0; 0.5; 0.25; 0; 0.5] 5)) 0.5.

(** The state in which that run ends. *)
Definition wreck : World := outcome overrun_inputs overrun_draws.

(** 260 frames of 16 ms with no key held.  The first five frames each spawn
    an enemy at [x = 0], [y = -1.25], with speeds 33.06, 33.2, 33.32, 33.44
    and 33.58; these are the speeds at which the five come within distance 3
    of the ship in the same frame, the 260th. *)
Definition convoy_inputs : list frame_input := repeat (quiet_frame 16) 260.

Definition convoy_draws : nat -> float :=
  fun i =>
    nth i (concat (map (fun r => [0; 0.5; 0.25; r; 0.5])
                       [0.653; 0.66; 0.666; 0.672; 0.679])) 0.5.

(** The space bar is pressed in a frame that also spawns an enemy at
    [x = 0], [y = -1.25] with speed 20; 74 frames of 16 ms follow, in which
    nothing is spawned.  The lasers close in at 120 units per second. *)
Definition skirmish_inputs : list frame_input :=
  mkInput (tick_dt 16) [KEYDOWN K_SPACE] no_keys :: repeat (quiet_frame 16) 74.

Definition skirmish_draws : nat -> float :=
  fun i => nth i [0; 0.5; 0.25; 0] 0.5.

(** One enemy at [(0, 0, 10)] with radius 1.5 and one laser at
    [(0, 0, 10)], at the start of a game. *)
Definition duel_enemy : Enemy.t := Enemy.mk 0 0 10 30 true 1.5.
Definition duel_laser : Laser.t := Laser.init 0 0 10.

Definition duel : World :=
  set_enemies [duel_enemy] (set_lasers [duel_laser] World_init).

(** One laser within reach of two enemies. *)
Definition crossfire_laser : Laser.t := Laser.init 0 0 13.5.
Definition crossfire_enemies : list Enemy.t :=
  [Enemy.mk 0 0 15 30 true 1.5; Enemy.mk 0 0 12 30 true 1.5].

(** An enemy two units in front of the ship at the start of a game. *)
Definition rammer : hazard := inl (Enemy.mk 0 0 12 30 true 1.5).

(** Two lasers and two enemies on the axis of the ship, which is at
    [(0, 0, 10)]: the first laser is within reach of both enemies, the second
    of the farther enemy only, and the nearer enemy is within reach of the
    ship.  [ambush'] lists the enemies in the other order. *)
Definition near_enemy : Enemy.t := Enemy.mk 0 0 12 30 true 1.5.
Definition far_enemy : Enemy.t := Enemy.mk 0 0 15 30 true 1.5.

Definition ambush : World :=
  set_enemies [far_enemy; near_enemy]
    (set_lasers [Laser.init 0 0 13.5; Laser.init 0 0 16.5] World_init).

Definition ambush' : World :=
  set_enemies [near_enemy; far_enemy]
    (set_lasers [Laser.init 0 0 13.5; Laser.init 0 0 16.5] World_init).

(** Two lasers, each within reach of one enemy of its own, and an obstacle
    next to the ship; [melee'] lists lasers and enemies in the other order. *)
Definition melee : World :=
  set_obstacles [Obstacle.mk 2 0 10 30 true 2]
    (set_enemies [Enemy.mk 0 0 30 30 true 1.5; Enemy.mk 0 0 50 30 true 1.5]
       (set_lasers [Laser.init 0 0 29; Laser.init 0 0 51] World_init)).

Definition melee' : World :=
  set_obstacles [Obstacle.mk 2 0 10 30 true 2]
    (set_enemies [Enemy.mk 0 0 50 30 true 1.5; Enemy.mk 0 0 30 30 true 1.5]
       (set_lasers [Laser.init 0 0 51; Laser.init 0 0 29] World_init)).

(** ** The events of a frame in closed form *)

(** The two lasers that one shot appends. *)
Definition volley (p : Player.t) : list Laser.t :=
  [Laser.init (Player.x p - 1.5) (Player.y p) (Player.z p);
   Laser.init (Player.x p + 1.5) (Player.y p) (Player.z p)].

(** The shooting input: a [KEYDOWN] event of the space bar. *)
Definition is_fire_key (ev : event) : bool :=
  match ev with KEYDOWN K_SPACE => true | _ => false end.

(** [running = False] when a [QUIT] event is among the events. *)
Definition quit_after (events : list event) (w : World) : World :=
  if existsb is_quit events then set_running false w else w.

(** ** What holds of the objects between two frames *)

(** The ship keeps the depth and the speed of [Player()]. *)
Definition ship_shape (p : Player.t) : Prop :=
  Player.z p = 10 /\ Player.speed p = 15.

(** A laser has the speed of [Laser()] and is not beyond the far plane. *)
Definition laser_shape (l : Laser.t) : Prop :=
  Laser.speed l = 100 /\ (150 <? Laser.z l) = false.

(** An enemy has the radius of [Enemy()] and is not behind the camera. *)
Definition enemy_shape (e : Enemy.t) : Prop :=
  Enemy.radius e = 1.5 /\ (Enemy.z e <? 0) = false.

(** An obstacle is on the ground, with the speed and radius of [Obstacle()],
    and not behind the camera. *)
Definition obstacle_shape (o : Obstacle.t) : Prop :=
  Obstacle.y o = -8 /\ Obstacle.speed o = 30 /\ Obstacle.radius o = 2 /\
  (Obstacle.z o <? 0) = false.

(** A particle has life left and one of the three colours of an explosion. *)
Definition particle_shape (p : Particle.t) : Prop :=
  (0 <? Particle.life p) = true /\
  (Particle.color p = RED \/ Particle.color p = YELLOW \/ Particle.color p = CYAN).

Definition tidy (w : World) : Prop :=
  ship_shape (player w) /\
  Forall laser_shape (lasers w) /\
  Forall enemy_shape (enemies w) /\
  Forall obstacle_shape (obstacles w) /\
  Forall particle_shape (particles w).

(** A particle as [Particle(x, y, z, color)] creates it after a
    collision. *)
Definition debris (p : Particle.t) : Prop :=
  Particle.life p = 1 /\
  (Particle.color p = RED \/ Particle.color p = YELLOW \/ Particle.color p = CYAN).

(** ** Pass A as a matching

    What the two nested loops of "Lasers vs Enemies" do to the flags, without
    the score, the particles and the exceptions: a laser takes the first
    enemy of the list that it hits, and the lasers choose in list order. *)

Fixpoint first_fit (l : Laser.t) (es : list Enemy.t) : Laser.t * list Enemy.t :=
  match es with
  | [] => (l, [])
  | e :: es' =>
      if hit l e then (Laser.set_active false l, Enemy.set_active false e :: es')
      else let (l', es'') := first_fit l es' in (l', e :: es'')
  end.

Fixpoint matching (ls : list Laser.t) (es : list Enemy.t)
  : list Laser.t * list Enemy.t :=
  match ls with
  | [] => ([], es)
  | l :: ls' =>
      let (l1, es1) := first_fit l es in
      let (ls2, es2) := matching ls' es1 in
      (l1 :: ls2, es2)
  end.

(** ** Rendering

    A [pygame.Surface] is modelled by the drawing calls it has received, in
    order; the checks that pygame itself makes on a call are not modelled.
    Besides the exceptions of the arithmetic, drawing can raise [IndexError],
    at [projected[e[0]]] and [projected[e[1]]]. *)

Definition GREEN : rgb := (0, 255, 0)%Z.
Definition DARK_GREEN : rgb := (0, 100, 0)%Z.

(** [pygame.draw.line(surface, color, p1, p2, width)] and
    [pygame.draw.circle(surface, color, center, radius)]. *)
Inductive stroke : Set :=
| Line (color : rgb) (p1 p2 : Z * Z) (width : Z)
| Circle (color : rgb) (center : Z * Z) (radius : Z).

Definition surface : Set := list stroke.

Inductive draw_exn : Set :=
| Arith (e : exn)
| IndexError.

Inductive drawn (A : Type) : Type :=
| Done (a : A)
| Failed (e : draw_exn).

Arguments Done {A} a.
Arguments Failed {A} e.

Definition dbind {A B : Type} (d : drawn A) (k : A -> drawn B) : drawn B :=
  match d with
  | Done a => k a
  | Failed e => Failed e
  end.

Definition of_result {A : Type} (r : result A) : drawn A :=
  match r with
  | Ok a => Done a
  | Raise e => Failed (Arith e)
  end.

Notation "x <~ d ;; k" := (dbind d (fun x => k))
  (at level 61, d at next level, right associativity) : py_scope.

(** [l[i]] for a list [l] and an int [i]: a negative index counts from the
    end, an index outside [-len(l) .. len(l) - 1] raises [IndexError]. *)
Definition getitem {A : Type} (l : list A) (i : Z) : drawn A :=
  let n := Z.of_nat (length l) in
  let j := if (i <? 0)%Z then (i + n)%Z else i in
  if (j <? 0)%Z then Failed IndexError
  else
    match nth_error l (Z.to_nat j) with
    | Some a => Done a
    | None => Failed IndexError
    end.

Definition vertex : Set := (float * float * float)%type.
Definition edge : Set := (Z * Z)%type.

(** [math.cos] and [math.sin] are functions of the C library: the renderer is
    modelled for whatever they return. *)
Section Trig.

Variables cos sin : float -> result float.

(** The body of [for v in verts:], up to the [append]. *)
Definition place (cx cy cz scale angle_z : float) (v : vertex)
  : result (option (Z * Z)) :=
  let '(v0, v1, v2) := v in
  c1 <-- cos angle_z ;;
  s1 <-- sin angle_z ;;
  let rx := v0 * c1 - v1 * s1 in
  s2 <-- sin angle_z ;;
  c2 <-- cos angle_z ;;
  let ry := v0 * s2 + v1 * c2 in
  let rz := v2 in
  let wx := cx + rx * scale in
  let wy := cy + ry * scale in
  let wz := cz + rz * scale in
  project wx wy wz.

(** [for v in verts: ... projected.append(project(wx, wy, wz))] *)
Fixpoint project_all (cx cy cz scale angle_z : float) (verts : list vertex)
  : result (list (option (Z * Z))) :=
  match verts with
  | [] => Ok []
  | v :: verts' =>
      p <-- place cx cy cz scale angle_z v ;;
      ps <-- project_all cx cy cz scale angle_z verts' ;;
      Ok (p :: ps)
  end.

(** The body of [for e in edges:]. *)
Definition draw_edge (color : rgb) (projected : list (option (Z * Z))) (e : edge)
           (s : surface) : drawn surface :=
  p1 <~ getitem projected (fst e) ;;
  p2 <~ getitem projected (snd e) ;;
  match p1, p2 with
  | Some a, Some b => Done (s ++ [Line color a b 2])
  | _, _ => Done s
  end.

Fixpoint draw_edges (color : rgb) (projected : list (option (Z * Z)))
         (edges : list edge) (s : surface) : drawn surface :=
  match edges with
  | [] => Done s
  | e :: edges' =>
      s1 <~ draw_edge color projected e s ;;
      draw_edges color projected edges' s1
  end.

Definition draw_wireframe (s : surface) (color : rgb) (cx cy cz : float)
           (verts : list vertex) (edges : list edge) (scale angle_z : float)
  : drawn surface :=
  projected <~ of_result (project_all cx cy cz scale angle_z verts) ;;
  draw_edges color projected edges s.

End Trig.

(** *** The models *)

Definition PLAYER_VERTS : list vertex :=
  [(0, 0, 2); (-2, -0.5, -1); (2, -0.5, -1); (0, 1, -1); (0, -0.5, -1)].

Definition PLAYER_EDGES : list edge :=
  [(0, 1); (0, 2); (0, 3); (1, 3); (2, 3); (1, 4); (2, 4); (3, 4)]%Z.

Definition ENEMY_VERTS : list vertex :=
  [(0, 1, 0); (1, 0, 0); (0, -1, 0); (-1, 0, 0); (0, 0, 1); (0, 0, -1)].

Definition ENEMY_EDGES : list edge :=
  [(0, 1); (1, 2); (2, 3); (3, 0);
   (4, 0); (4, 1); (4, 2); (4, 3);
   (5, 0); (5, 1); (5, 2); (5, 3)]%Z.

Definition OBSTACLE_VERTS : list vertex :=
  [(-1, -1, -1); (1, -1, -1); (1, 1, -1); (-1, 1, -1);
   (-1, -1, 1); (1, -1, 1); (1, 1, 1); (-1, 1, 1)].

Definition OBSTACLE_EDGES : list edge :=
  [(0, 1); (1, 2); (2, 3); (3, 0);
   (4, 5); (5, 6); (6, 7); (7, 4);
   (0, 4); (1, 5); (2, 6); (3, 7)]%Z.

(** *** The [draw] methods *)

Section Draw.

Variables cos sin : float -> result float.

(** [Player.draw] *)
Definition Player_draw (s : surface) (self : Player.t) : drawn surface :=
  draw_wireframe cos sin s CYAN (Player.x self) (Player.y self) (Player.z self)
                 PLAYER_VERTS PLAYER_EDGES 0.8 (Player.bank_angle self).

(** [Enemy.draw]; [ticks] is what [pygame.time.get_ticks()] returns. *)
Definition Enemy_draw (ticks : Z) (s : surface) (self : Enemy.t) : drawn surface :=
  draw_wireframe cos sin s RED (Enemy.x self) (Enemy.y self) (Enemy.z self)
                 ENEMY_VERTS ENEMY_EDGES 1.5 (float_of_int ticks * 0.005).

(** [Obstacle.draw]: [angle_z] has its default, [0.0]. *)
Definition Obstacle_draw (s : surface) (self : Obstacle.t) : drawn surface :=
  draw_wireframe cos sin s GREEN (Obstacle.x self) (Obstacle.y self) (Obstacle.z self)
                 OBSTACLE_VERTS OBSTACLE_EDGES 2 0.

End Draw.

(** *** The ground *)

Definition floor_y : float := -10.

(** [150 - (scroll_offset + i * 10)] *)
Definition row_depth (off : float) (i : Z) : float :=
  150 - (off + float_of_int (i * 10)).

(** The body of [for i in range(15):]. *)
Definition draw_row (off : float) (i : Z) (s : surface) : drawn surface :=
  let z := row_depth off i in
  if 0.1 <? z then
    p1 <~ of_result (project (-50) floor_y z) ;;
    p2 <~ of_result (project 50 floor_y z) ;;
    match p1, p2 with
    | Some a, Some b => Done (s ++ [Line DARK_GREEN a b 1])
    | _, _ => Done s
    end
  else Done s.

(** The body of [for x in range(-50, 51, 10):]. *)
Definition draw_depth_line (x : Z) (s : surface) : drawn surface :=
  p1 <~ of_result (project (float_of_int x) floor_y 0.1) ;;
  p2 <~ of_result (project (float_of_int x) floor_y 150) ;;
  match p1, p2 with
  | Some a, Some b => Done (s ++ [Line DARK_GREEN a b 1])
  | _, _ => Done s
  end.

(** [for i in l: body(i)] on the surface. *)
Fixpoint for_each {A : Type} (body : A -> surface -> drawn surface) (l : list A)
         (s : surface) : drawn surface :=
  match l with
  | [] => Done s
  | a :: l' => s1 <~ body a s ;; for_each body l' s1
  end.

(** [range(15)] and [range(-50, 51, 10)] *)
Definition rows : list Z := map Z.of_nat (seq 0 15).
Definition columns : list Z := map (fun k => (-50 + 10 * Z.of_nat k)%Z) (seq 0 11).

(** "Draw ground (grid)" *)
Definition draw_ground (off : float) (s : surface) : drawn surface :=
  s1 <~ for_each (draw_row off) rows s ;;
  for_each draw_depth_line columns s1.

(** *** What the statements about the renderer are about *)

(** The depth at which [draw_wireframe] places a vertex: [cz + rz * scale]. *)
Definition depth (cz scale : float) (v : vertex) : float :=
  cz + snd v * scale.

(** The vertex is not nearer than the near plane of [project]. *)
Definition in_view (cz scale : float) (v : vertex) : bool :=
  negb (depth cz scale v <? 0.1).

(** Both ends of the edge are vertices of the model and in view. *)
Definition edge_in_view (cz scale : float) (verts : list vertex) (e : edge) : bool :=
  match getitem verts (fst e), getitem verts (snd e) with
  | Done a, Done b => in_view cz scale a && in_view cz scale b
  | _, _ => false
  end.

(** The line of an edge whose two ends were projected. *)
Definition edge_line (color : rgb) (projected : list (option (Z * Z))) (e : edge)
  : list stroke :=
  match getitem projected (fst e), getitem projected (snd e) with
  | Done (Some a), Done (Some b) => [Line color a b 2]
  | _, _ => []
  end.

(** Every index of the edge is one that [l[i]] accepts for a list of [n]
    elements. *)
Definition edge_in_range (n : nat) (e : edge) : bool :=
  (- Z.of_nat n <=? fst e)%Z && (fst e <? Z.of_nat n)%Z &&
  (- Z.of_nat n <=? snd e)%Z && (snd e <? Z.of_nat n)%Z.

(** A dark green line of width 1 between two points of the same screen
    row. *)
Definition level (l : stroke) : Prop :=
  exists a b r, l = Line DARK_GREEN (a, r) (b, r) 1.

(** What a collision pass may do to an obstacle: nothing, or clear the flag
    of one that was active. *)
Definition obstacle_step (o o' : Obstacle.t) : Prop :=
  o' = o \/ (Obstacle.active o = true /\ o' = Obstacle.set_active false o).

(** ** More runs used as instances *)

(** A frame of 16 ms in which the space bar is pressed, with draws that are
    all 0: an enemy and an obstacle are spawned. *)
Definition busy_draws : nat -> float := fun _ => 0.

Definition busy_frame : frame_input :=
  mkInput (tick_dt 16) [KEYDOWN K_SPACE] no_keys.

Definition busy : World := outcome [busy_frame] busy_draws.

(** The state [duel] one frame later, with [dt = 0] and nothing spawned. *)
Definition duel_after : World :=
  match frame 0 [] no_keys duel no_spawn 0%nat with
  | Ok (w, _) => w
  | Raise _ => duel
  end.

(** The state [melee] after the two collision passes. *)
Definition melee_after : World :=
  match collide melee no_spawn 0%nat with
  | Ok (w, _) => w
  | Raise _ => melee
  end.

(** Values for [math.cos] and [math.sin] at the angle 0, and at an angle
    whose cosine and sine are 0.8 and 0.6. *)
Definition cos_at_0 : float -> result float := fun _ => Ok 1.
Definition sin_at_0 : float -> result float := fun _ => Ok 0.
Definition cos_banked : float -> result float := fun _ => Ok 0.8.
Definition sin_banked : float -> result float := fun _ => Ok 0.6.

(** An obstacle whose front face is nearer than the near plane. *)
Definition close_obstacle : Obstacle.t := Obstacle.mk 3 (-8) 1.5 30 true 2.

(** An enemy whose nearest vertex is behind the near plane. *)
Definition close_enemy : Enemy.t := Enemy.mk 3 2 1 30 true 1.5.

(** [if not game_over: player.draw(screen)] *)
Definition draw_ship (cos sin : float -> result float) (w : World) (s : surface)
  : drawn surface :=
  if game_over w then Done s else Player_draw cos sin s (player w).

(** The eleven depth lines of the ground. *)
Definition depth_lines : list stroke :=
  Eval vm_compute in
    match for_each draw_depth_line columns [] with
    | Done l => l
    | Failed _ => []
    end.

(** The ship of the state [busy], at [(0, 0, 10)], as drawn for a bank angle
    whose cosine and sine are 0.8 and 0.6. *)
Definition banked_ship : surface :=
  [Line CYAN (400, 300)%Z (354, 355)%Z 2; Line CYAN (400, 300)%Z (466, 272)%Z 2;
   Line CYAN (400, 300)%Z (379, 272)%Z 2; Line CYAN (354, 355)%Z (379, 272)%Z 2;
   Line CYAN (466, 272)%Z (379, 272)%Z 2; Line CYAN (354, 355)%Z (410, 313)%Z 2;
   Line CYAN (466, 272)%Z (410, 313)%Z 2; Line CYAN (379, 272)%Z (410, 313)%Z 2].

(** ** Signs

    A value that is not negative: its sign bit is clear, or it is a NaN. *)
Definition SFnot_negative (x : spec_float) : Prop :=
  match x with
  | S754_zero s | S754_infinity s | S754_finite s _ _ => s = false
  | S754_nan => True
  end.

Definition not_negative (f : float) : Prop := SFnot_negative (Prim2SF f).

(** The only exception of the computation is [OverflowError]. *)
Definition only_overflow {A : Type} (m : M A) : Prop :=
  forall g c e, m g c = Raise e -> e = OverflowError.

(** An enemy so far to the side that the square of its distance to the ship
    overflows. *)
Definition far_out : World :=
  set_enemies [Enemy.mk 1e200 0 50 30 true 1.5] World_init.

(** The colour of the health text: [RED if player.hp <= 25 else GREEN]. *)
Definition hp_color (p : Player.t) : rgb :=
  if (Player.hp p <=? 25)%Z then RED else GREEN.

(** * Proofs *)

(** ** The monad *)

Lemma bind_Ok {A B : Type} (m : M A) (k : A -> M B) g c b c' :
  bind m k g c = Ok (b, c') ->
  exists a c1, m g c = Ok (a, c1) /\ k a g c1 = Ok (b, c').
Proof.
  unfold bind. destruct (m g c) as [[a c1]|e]; [|discriminate].
  intros Hk. exists a, c1. split; [reflexivity|exact Hk].
Qed.

Lemma bind_Ok_intro {A B : Type} (m : M A) (k : A -> M B) g c a c1 :
  m g c = Ok (a, c1) -> bind m k g c = k a g c1.
Proof. unfold bind. intros ->. reflexivity. Qed.

Lemma Ok2_inj {A B : Type} (a a' : A) (b b' : B) (c c' : nat) :
  Ok ((a, b), c) = Ok ((a', b'), c') -> a = a' /\ b = b' /\ c = c'.
Proof. intros H. inversion H. auto. Qed.

Lemma Ok3_inj {A B C : Type} (a a' : A) (b b' : B) (w w' : C) (c c' : nat) :
  Ok ((a, b, w), c) = Ok ((a', b', w'), c') -> a = a' /\ b = b' /\ w = w' /\ c = c'.
Proof. intros H. inversion H. auto. Qed.

(** ** Particles *)

Lemma Particle_init_eq x y z col g c :
  Particle.init x y z col g c
  = Ok (Particle.mk x y z (-10 + (10 - -10) * g c) (-10 + (10 - -10) * g (S c))
                    (-10 + (10 - -10) * g (S (S c))) 1 col, (3 + c)%nat).
Proof. reflexivity. Qed.

Lemma explode_eq n : forall x y z col ps g c,
  explode n x y z col ps g c = Ok (ps ++ burst n x y z col g c, (3 * n + c)%nat).
Proof.
  induction n as [|n IH]; intros x y z col ps g c.
  - cbn [explode burst]. unfold ret. rewrite app_nil_r. reflexivity.
  - cbn [explode burst].
    rewrite (bind_Ok_intro _ _ _ _ _ _ (Particle_init_eq x y z col g c)).
    rewrite IH. rewrite <- app_assoc. cbn [app].
    f_equal. f_equal. lia.
Qed.

Lemma burst_length n : forall x y z col g c, length (burst n x y z col g c) = n.
Proof.
  induction n as [|n IH]; intros; cbn [burst length]; [reflexivity|].
  rewrite IH. reflexivity.
Qed.

Lemma burst_at n : forall x y z col g c,
  Forall (particle_at x y z col) (burst n x y z col g c).
Proof.
  induction n as [|n IH]; intros; cbn [burst]; constructor.
  - repeat split.
  - apply IH.
Qed.

Lemma burst_add n m : forall x y z col g c,
  burst (n + m) x y z col g c
  = burst n x y z col g c ++ burst m x y z col g (3 * n + c).
Proof.
  induction n as [|n IH]; intros; cbn [burst Nat.add app].
  - reflexivity.
  - rewrite IH. do 3 f_equal. lia.
Qed.

(** ** Collision pass A: lasers against enemies *)

Ltac wsimpl :=
  cbn [player lasers enemies obstacles particles score scroll_offset running
       game_over set_player set_lasers set_enemies set_obstacles set_particles
       set_score set_scroll_offset set_running set_game_over].

Ltac wsimpl_all :=
  cbn [player lasers enemies obstacles particles score scroll_offset running
       game_over set_player set_lasers set_enemies set_obstacles set_particles
       set_score set_scroll_offset set_running set_game_over] in *.

Lemma tally_0 w : tally 0 [] w = w.
Proof.
  destruct w. unfold tally. wsimpl.
  rewrite app_nil_r. change (Z.of_nat 0) with 0%Z.
  rewrite Z.mul_0_r, Z.add_0_r. reflexivity.
Qed.

Lemma tally_tally k1 n1 k2 n2 w :
  tally k2 n2 (tally k1 n1 w) = tally (k1 + k2) (n1 ++ n2) w.
Proof.
  unfold tally. wsimpl.
  rewrite <- app_assoc.
  replace (score w + 100 * Z.of_nat k1 + 100 * Z.of_nat k2)%Z
    with (score w + 100 * Z.of_nat (k1 + k2))%Z by lia.
  reflexivity.
Qed.

Lemma laser_vs_enemy_eq l e w :
  laser_vs_enemy l e w
  = if negb (Enemy.active e) || negb (Laser.active l) then ret (l, e, w)
    else
      hit <- lift (laser_hits l e) ;;
      if hit : bool then
        ps1 <- explode 15 (Enemy.x e) (Enemy.y e) (Enemy.z e) RED (particles w) ;;
        ps2 <- explode 10 (Enemy.x e) (Enemy.y e) (Enemy.z e) YELLOW ps1 ;;
        ret (Laser.set_active false l, Enemy.set_active false e,
             set_particles ps2 (set_score (score w + 100) w))
      else ret (l, e, w).
Proof.
  unfold laser_vs_enemy, laser_hits.
  destruct (negb (Enemy.active e) || negb (Laser.active l)); [reflexivity|].
  unfold bind, lift, rbind.
  destruct (dist3 _ _ _ _ _ _) as [d|x]; reflexivity.
Qed.

Lemma laser_vs_enemy_skip l e w g c :
  Enemy.active e = false \/ Laser.active l = false ->
  laser_vs_enemy l e w g c = Ok ((l, e, w), c).
Proof.
  intros H. rewrite laser_vs_enemy_eq.
  destruct H as [-> | ->]; cbn; [reflexivity|].
  rewrite orb_true_r. reflexivity.
Qed.

Lemma laser_vs_enemy_miss l e w g c :
  Laser.active l = true -> Enemy.active e = true ->
  laser_hits l e = Ok false ->
  laser_vs_enemy l e w g c = Ok ((l, e, w), c).
Proof.
  intros Hl He Hh. rewrite laser_vs_enemy_eq, Hl, He. cbn.
  unfold bind, lift. rewrite Hh. reflexivity.
Qed.

Lemma laser_vs_enemy_hit l e w g c :
  Laser.active l = true -> Enemy.active e = true ->
  laser_hits l e = Ok true ->
  laser_vs_enemy l e w g c
  = Ok ((Laser.set_active false l, Enemy.set_active false e,
         tally 1 (burst 15 (Enemy.x e) (Enemy.y e) (Enemy.z e) RED g c
                  ++ burst 10 (Enemy.x e) (Enemy.y e) (Enemy.z e) YELLOW g (45 + c)) w),
        (75 + c)%nat).
Proof.
  intros Hl He Hh. rewrite laser_vs_enemy_eq, Hl, He. cbn [negb orb].
  unfold bind at 1. unfold lift. rewrite Hh.
  rewrite (bind_Ok_intro _ _ _ _ _ _ (explode_eq 15 _ _ _ _ _ _ _)).
  rewrite (bind_Ok_intro _ _ _ _ _ _ (explode_eq 10 _ _ _ _ _ _ _)).
  unfold ret, tally. rewrite <- app_assoc. reflexivity.
Qed.

Lemma laser_vs_enemy_raise l e w g c x :
  Laser.active l = true -> Enemy.active e = true ->
  laser_hits l e = Raise x ->
  laser_vs_enemy l e w g c = Raise x.
Proof.
  intros Hl He Hh. rewrite laser_vs_enemy_eq, Hl, He. cbn [negb orb].
  unfold bind, lift. rewrite Hh. reflexivity.
Qed.

(** Every way the body of the pair loop returns. *)
Lemma laser_vs_enemy_inv l e w g c l' e' w' c' :
  laser_vs_enemy l e w g c = Ok ((l', e', w'), c') ->
  (l' = l /\ e' = e /\ w' = w /\ c' = c /\
   (Enemy.active e = false \/ Laser.active l = false \/ laser_hits l e = Ok false))
  \/
  (Laser.active l = true /\ Enemy.active e = true /\ laser_hits l e = Ok true /\
   l' = Laser.set_active false l /\ e' = Enemy.set_active false e /\
   c' = (75 + c)%nat /\
   w' = tally 1 (burst 15 (Enemy.x e) (Enemy.y e) (Enemy.z e) RED g c
                 ++ burst 10 (Enemy.x e) (Enemy.y e) (Enemy.z e) YELLOW g (45 + c)) w).
Proof.
  intros H.
  destruct (Enemy.active e) eqn:He.
  2:{ rewrite laser_vs_enemy_skip in H by (left; exact He).
      inversion H; subst. left. auto 10. }
  destruct (Laser.active l) eqn:Hl.
  2:{ rewrite laser_vs_enemy_skip in H by (right; exact Hl).
      inversion H; subst. left. auto 10. }
  destruct (laser_hits l e) as [[|]|x] eqn:Hh.
  - rewrite (laser_vs_enemy_hit _ _ _ _ _ Hl He Hh) in H.
    inversion H; subst. right. auto 10.
  - rewrite (laser_vs_enemy_miss _ _ _ _ _ Hl He Hh) in H.
    inversion H; subst. left. auto 10.
  - rewrite (laser_vs_enemy_raise _ _ _ _ _ _ Hl He Hh) in H. discriminate.
Qed.

Lemma laser_vs_enemies_inactive l :
  Laser.active l = false ->
  forall es w g c, laser_vs_enemies l es w g c = Ok ((l, es, w), c).
Proof.
  intros Hl es. induction es as [|e es IH]; intros w g c.
  - reflexivity.
  - cbn [laser_vs_enemies].
    rewrite (bind_Ok_intro _ _ _ _ _ _ (laser_vs_enemy_skip l e w g c (or_intror Hl))).
    rewrite (bind_Ok_intro _ _ _ _ _ _ (IH w g c)).
    reflexivity.
Qed.

Lemma enemy_step_refl e : enemy_step e e.
Proof. left. reflexivity. Qed.

Lemma enemy_step_trans e1 e2 e3 :
  enemy_step e1 e2 -> enemy_step e2 e3 -> enemy_step e1 e3.
Proof.
  intros [-> | [Ha ->]] [-> | [Hb ->]].
  - left; reflexivity.
  - right; split; [exact Hb | reflexivity].
  - right; split; [exact Ha | reflexivity].
  - discriminate Hb.
Qed.

Lemma Forall2_refl' {A : Type} (R : A -> A -> Prop) :
  (forall a, R a a) -> forall l, Forall2 R l l.
Proof. intros HR l. induction l; constructor; auto. Qed.

Lemma Forall2_trans' {A : Type} (R : A -> A -> Prop) :
  (forall a b c, R a b -> R b c -> R a c) ->
  forall l1 l2 l3, Forall2 R l1 l2 -> Forall2 R l2 l3 -> Forall2 R l1 l3.
Proof.
  intros HR l1 l2 l3 H12. revert l3.
  induction H12 as [|a b l1 l2 Hab _ IH]; intros l3 H23; inversion H23; subst.
  - constructor.
  - constructor; [eapply HR; eassumption | apply IH; assumption].
Qed.

Lemma active_enemies_cons e es :
  active_enemies (e :: es)
  = ((if Enemy.active e then 1 else 0) + active_enemies es)%nat.
Proof. unfold active_enemies. cbn [filter]. destruct (Enemy.active e); reflexivity. Qed.

Lemma active_lasers_cons l ls :
  active_lasers (l :: ls)
  = ((if Laser.active l then 1 else 0) + active_lasers ls)%nat.
Proof. unfold active_lasers. cbn [filter]. destruct (Laser.active l); reflexivity. Qed.

(** One laser against the enemies: at most one hit, and the exact effect. *)
Lemma laser_vs_enemies_inv es : forall l w g c l' es' w' c',
  laser_vs_enemies l es w g c = Ok ((l', es', w'), c') ->
  exists k new,
    w' = tally k new w /\ length new = (25 * k)%nat /\ c' = (75 * k + c)%nat /\
    active_enemies es = (active_enemies es' + k)%nat /\
    Forall2 enemy_step es es' /\
    ((k = 0%nat /\ l' = l) \/
     (k = 1%nat /\ Laser.active l = true /\ l' = Laser.set_active false l)).
Proof.
  induction es as [|e es IH]; intros l w g c l' es' w' c' H.
  - cbn in H. inversion H; subst. exists 0%nat, [].
    rewrite tally_0. repeat split; auto.
  - cbn [laser_vs_enemies] in H.
    apply bind_Ok in H as ([[l1 e1] w1] & c1 & H1 & H).
    apply bind_Ok in H as ([[l2 es2] w2] & c2 & H2 & H).
    apply Ok3_inj in H as (<- & <- & <- & <-).
    apply laser_vs_enemy_inv in H1
      as [(-> & -> & -> & -> & _) | (Hl & He & Hh & -> & -> & -> & ->)].
    + apply IH in H2 as (k & new & -> & Hn & -> & Hact & HF & Hk).
      exists k, new. repeat split; auto.
      rewrite !active_enemies_cons, Hact. lia.
      constructor; [apply enemy_step_refl | exact HF].
    + rewrite laser_vs_enemies_inactive in H2 by reflexivity.
      apply Ok3_inj in H2 as (<- & <- & <- & <-).
      eexists 1%nat, _. split; [reflexivity|].
      split; [rewrite length_app, !burst_length; reflexivity|].
      split; [reflexivity|].
      split; [rewrite !active_enemies_cons, He; cbn [Enemy.active Enemy.set_active]; lia|].
      split; [constructor; [right; auto | apply Forall2_refl'; apply enemy_step_refl]|].
      right. auto.
Qed.

Lemma lasers_vs_enemies_inv ls : forall es w g c ls' es' w' c',
  lasers_vs_enemies ls es w g c = Ok ((ls', es', w'), c') ->
  exists k new,
    w' = tally k new w /\ length new = (25 * k)%nat /\ c' = (75 * k + c)%nat /\
    active_lasers ls = (active_lasers ls' + k)%nat /\
    active_enemies es = (active_enemies es' + k)%nat /\
    Forall2 laser_step ls ls' /\
    Forall2 enemy_step es es'.
Proof.
  induction ls as [|l ls IH]; intros es w g c ls' es' w' c' H.
  - apply Ok3_inj in H as (<- & <- & <- & <-). exists 0%nat, [].
    rewrite tally_0. repeat split; auto.
    apply Forall2_refl'; apply enemy_step_refl.
  - cbn [lasers_vs_enemies] in H.
    apply bind_Ok in H as ([[l1 es1] w1] & c1 & H1 & H).
    apply bind_Ok in H as ([[ls2 es2] w2] & c2 & H2 & H).
    apply Ok3_inj in H as (<- & <- & <- & <-).
    apply laser_vs_enemies_inv in H1 as (k1 & n1 & -> & Hn1 & -> & Ha1 & HF1 & Hk1).
    apply IH in H2 as (k2 & n2 & -> & Hn2 & -> & Hal & Ha2 & HFl & HF2).
    exists (k1 + k2)%nat, (n1 ++ n2).
    split; [apply tally_tally|].
    split; [rewrite length_app; lia|].
    split; [lia|].
    split.
    { rewrite !active_lasers_cons, Hal.
      destruct Hk1 as [(-> & ->) | (-> & Hl & ->)].
      - lia.
      - rewrite Hl. cbn [Laser.active Laser.set_active]. lia. }
    split; [lia|].
    split.
    { constructor; [|exact HFl].
      destruct Hk1 as [(_ & ->) | (_ & Hl & ->)]; [left|right]; auto. }
    eapply Forall2_trans'; [apply enemy_step_trans | exact HF1 | exact HF2].
Qed.

(** *** The pass returns when no distance computation raises *)

Lemma laser_hits_step l e e' : enemy_step e e' -> laser_hits l e' = laser_hits l e.
Proof. intros [-> | [_ ->]]; reflexivity. Qed.

Lemma hits_defined_step l es es' :
  Forall2 enemy_step es es' -> hits_defined l es -> hits_defined l es'.
Proof.
  unfold hits_defined. induction 1 as [|e e' es es' He _ IH]; intros HF.
  - constructor.
  - inversion HF; subst. constructor; [|apply IH; assumption].
    rewrite (laser_hits_step _ _ _ He). assumption.
Qed.

Lemma laser_vs_enemy_total l e w g c :
  (exists b, laser_hits l e = Ok b) ->
  exists r, laser_vs_enemy l e w g c = Ok r.
Proof.
  intros [b Hb].
  destruct (Enemy.active e) eqn:He.
  2:{ eexists. apply laser_vs_enemy_skip. left; exact He. }
  destruct (Laser.active l) eqn:Hl.
  2:{ eexists. apply laser_vs_enemy_skip. right; exact Hl. }
  destruct b; eexists.
  - apply laser_vs_enemy_hit; assumption.
  - apply laser_vs_enemy_miss; assumption.
Qed.

Lemma laser_vs_enemies_total es : forall l w g c,
  hits_defined l es -> exists r, laser_vs_enemies l es w g c = Ok r.
Proof.
  induction es as [|e es IH]; intros l w g c HF.
  - eexists. reflexivity.
  - inversion HF as [|? ? He Hes]; subst.
    destruct (laser_vs_enemy_total l e w g c He) as [[[[l1 e1] w1] c1] H1].
    assert (Hes1 : hits_defined l1 es).
    { apply laser_vs_enemy_inv in H1
        as [(-> & _) | (_ & _ & _ & -> & _)]; exact Hes. }
    destruct (IH l1 w1 g c1 Hes1) as [[[[l2 es2] w2] c2] H2].
    eexists. cbn [laser_vs_enemies].
    rewrite (bind_Ok_intro _ _ _ _ _ _ H1).
    rewrite (bind_Ok_intro _ _ _ _ _ _ H2). reflexivity.
Qed.

Lemma lasers_vs_enemies_total ls : forall es w g c,
  Forall (fun l => hits_defined l es) ls ->
  exists r, lasers_vs_enemies ls es w g c = Ok r.
Proof.
  induction ls as [|l ls IH]; intros es w g c HF.
  - eexists. reflexivity.
  - inversion HF as [|? ? Hl Hls]; subst.
    destruct (laser_vs_enemies_total es l w g c Hl) as [[[[l1 es1] w1] c1] H1].
    pose proof (laser_vs_enemies_inv _ _ _ _ _ _ _ _ _ H1)
      as (k & new & _ & _ & _ & _ & Hstep & _).
    assert (Hls1 : Forall (fun l => hits_defined l es1) ls).
    { revert Hls. apply Forall_impl. intros l0. apply hits_defined_step. exact Hstep. }
    destruct (IH es1 w1 g c1 Hls1) as [[[[ls2 es2] w2] c2] H2].
    eexists. cbn [lasers_vs_enemies].
    rewrite (bind_Ok_intro _ _ _ _ _ _ H1).
    rewrite (bind_Ok_intro _ _ _ _ _ _ H2). reflexivity.
Qed.

(** ** Collision pass B: the player against enemies and obstacles *)

Lemma wounded_0 g c w : wounded 0 g c w = w.
Proof.
  destruct w as [p ls es os ps s off r go]. destruct p.
  unfold wounded. wsimpl. cbn [Player.set_hp Player.hp Player.x Player.y Player.z].
  change (20 * 0)%nat with 0%nat. cbn [burst Nat.ltb Nat.leb andb].
  rewrite app_nil_r, orb_false_r.
  change (Z.of_nat 0) with 0%Z. rewrite Z.mul_0_r, Z.sub_0_r. reflexivity.
Qed.

Lemma game_over_accumulates (go : bool) (h : Z) (k1 k2 : nat) :
  (go || ((0 <? k1)%nat && (h - 25 * Z.of_nat k1 <=? 0)%Z))
  || ((0 <? k2)%nat && (h - 25 * Z.of_nat k1 - 25 * Z.of_nat k2 <=? 0)%Z)
  = go || ((0 <? k1 + k2)%nat && (h - 25 * Z.of_nat (k1 + k2) <=? 0)%Z).
Proof.
  destruct go; [reflexivity|]. cbn [orb].
  destruct (Nat.ltb_spec 0 k1), (Nat.ltb_spec 0 k2), (Nat.ltb_spec 0 (k1 + k2));
    try lia; cbn [andb orb];
    repeat match goal with
           | |- context [(?a <=? ?b)%Z] => destruct (Z.leb_spec a b)
           end; cbn [orb]; try reflexivity; lia.
Qed.

Lemma wounded_wounded k1 k2 g c w :
  wounded k2 g (60 * k1 + c) (wounded k1 g c w) = wounded (k1 + k2) g c w.
Proof.
  unfold wounded. wsimpl. cbn [Player.set_hp Player.hp Player.x Player.y Player.z].
  rewrite game_over_accumulates, <- app_assoc.
  replace (20 * (k1 + k2))%nat with (20 * k1 + 20 * k2)%nat by lia.
  rewrite burst_add.
  replace (3 * (20 * k1) + c)%nat with (60 * k1 + c)%nat by lia.
  replace (Player.hp (player w) - 25 * Z.of_nat k1 - 25 * Z.of_nat k2)%Z
    with (Player.hp (player w) - 25 * Z.of_nat (k1 + k2))%Z by lia.
  reflexivity.
Qed.

Section PassB.

Context {A : Type} `{Entity A}.

Lemma player_vs_entity_eq (entity : A) w :
  player_vs_entity entity w
  = if negb (ent_active entity) then ret (entity, w)
    else
      hit <- lift (player_hits (player w) entity) ;;
      if hit : bool then
        let p := player w in
        let p1 := Player.set_hp (Player.hp p - 25) p in
        ps1 <- explode 20 (Player.x p) (Player.y p) (Player.z p) CYAN (particles w) ;;
        let w2 := set_particles ps1 (set_player p1 w) in
        if (Player.hp p - 25 <=? 0)%Z
        then ret (ent_deactivate entity, set_game_over true w2)
        else ret (ent_deactivate entity, w2)
      else ret (entity, w).
Proof.
  unfold player_vs_entity, player_hits.
  destruct (negb (ent_active entity)); [reflexivity|].
  unfold bind at 1 3. unfold lift, rbind.
  destruct (dist3 _ _ _ _ _ _) as [d|x]; reflexivity.
Qed.

Lemma player_vs_entity_skip (entity : A) w g c :
  ent_active entity = false ->
  player_vs_entity entity w g c = Ok ((entity, w), c).
Proof. intros Ha. rewrite player_vs_entity_eq, Ha. reflexivity. Qed.

Lemma player_vs_entity_miss (entity : A) w g c :
  ent_active entity = true ->
  player_hits (player w) entity = Ok false ->
  player_vs_entity entity w g c = Ok ((entity, w), c).
Proof.
  intros Ha Hh. rewrite player_vs_entity_eq, Ha. cbn [negb].
  unfold bind, lift. rewrite Hh. reflexivity.
Qed.

Lemma player_vs_entity_hit (entity : A) w g c :
  ent_active entity = true ->
  player_hits (player w) entity = Ok true ->
  player_vs_entity entity w g c
  = Ok ((ent_deactivate entity, wounded 1 g c w), (60 + c)%nat).
Proof.
  intros Ha Hh. rewrite player_vs_entity_eq, Ha. cbn [negb].
  unfold bind at 1. unfold lift. rewrite Hh. cbv zeta.
  rewrite (bind_Ok_intro _ _ _ _ _ _ (explode_eq 20 _ _ _ _ _ _ _)).
  unfold wounded. change (Z.of_nat 1) with 1%Z. change (25 * 1)%Z with 25%Z.
  change (20 * 1)%nat with 20%nat. change (3 * 20 + c)%nat with (60 + c)%nat.
  cbn [Nat.ltb Nat.leb andb].
  destruct (Player.hp (player w) - 25 <=? 0)%Z; unfold ret.
  - rewrite orb_true_r. reflexivity.
  - rewrite orb_false_r. destruct w; reflexivity.
Qed.

Lemma player_vs_entity_raise (entity : A) w g c x :
  ent_active entity = true ->
  player_hits (player w) entity = Raise x ->
  player_vs_entity entity w g c = Raise x.
Proof.
  intros Ha Hh. rewrite player_vs_entity_eq, Ha. cbn [negb].
  unfold bind, lift. rewrite Hh. reflexivity.
Qed.

(** The body of the loop in terms of [struck]. *)
Lemma player_vs_entity_defined (entity : A) w g c :
  hit_defined (player w) entity ->
  player_vs_entity entity w g c
  = Ok ((after_player (player w) entity,
         wounded (if struck (player w) entity then 1 else 0) g c w),
        ((if struck (player w) entity then 60 else 0) + c)%nat).
Proof.
  intros Hd. unfold after_player, struck.
  destruct (ent_active entity) eqn:Ha; cbn [andb].
  - destruct (Hd Ha) as [[|] Hb]; rewrite Hb.
    + apply player_vs_entity_hit; assumption.
    + rewrite wounded_0. apply player_vs_entity_miss; assumption.
  - rewrite wounded_0. apply player_vs_entity_skip; assumption.
Qed.

Lemma player_vs_entity_Ok (entity : A) w g c r :
  player_vs_entity entity w g c = Ok r -> hit_defined (player w) entity.
Proof.
  intros Hr Ha.
  destruct (player_hits (player w) entity) as [b|x] eqn:Hh.
  - exists b; reflexivity.
  - rewrite (player_vs_entity_raise _ _ _ _ _ Ha Hh) in Hr. discriminate.
Qed.

(** The whole loop, in closed form. *)
Lemma player_vs_entities_defined (ents : list A) : forall w g c,
  Forall (hit_defined (player w)) ents ->
  player_vs_entities ents w g c
  = Ok ((map (after_player (player w)) ents,
         wounded (collisions (player w) ents) g c w),
        (60 * collisions (player w) ents + c)%nat).
Proof.
  induction ents as [|entity ents IH]; intros w g c HF.
  - unfold collisions. cbn [player_vs_entities map filter length].
    rewrite wounded_0. reflexivity.
  - inversion HF as [|? ? Hd Hds]; subst.
    cbn [player_vs_entities].
    rewrite (bind_Ok_intro _ _ _ _ _ _ (player_vs_entity_defined entity w g c Hd)).
    set (k1 := if struck (player w) entity then 1%nat else 0%nat).
    set (c1 := ((if struck (player w) entity then 60 else 0) + c)%nat).
    assert (Hc1 : c1 = (60 * k1 + c)%nat).
    { unfold c1, k1. destruct (struck (player w) entity); reflexivity. }
    rewrite (bind_Ok_intro _ _ _ _ _ _ (IH (wounded k1 g c w) g c1 Hds)).
    unfold ret.
    change (collisions (player (wounded k1 g c w)) ents)
      with (collisions (player w) ents).
    change (after_player (player (wounded k1 g c w)))
      with (after_player (player w)).
    rewrite Hc1, wounded_wounded.
    assert (Hk : collisions (player w) (entity :: ents)
                 = (k1 + collisions (player w) ents)%nat).
    { unfold collisions, k1. cbn [filter].
      destruct (struck (player w) entity); reflexivity. }
    rewrite Hk. cbn [map]. do 2 f_equal. lia.
Qed.

Lemma player_vs_entities_Ok (ents : list A) : forall w g c r,
  player_vs_entities ents w g c = Ok r -> Forall (hit_defined (player w)) ents.
Proof.
  induction ents as [|entity ents IH]; intros w g c [r c'] Hr.
  - constructor.
  - cbn [player_vs_entities] in Hr.
    apply bind_Ok in Hr as ([entity1 w1] & c1 & H1 & Hr).
    apply bind_Ok in Hr as ([ents1 w2] & c2 & H2 & _).
    pose proof (player_vs_entity_Ok _ _ _ _ _ H1) as Hd.
    constructor; [exact Hd|].
    rewrite (player_vs_entity_defined _ _ _ _ Hd) in H1.
    apply Ok2_inj in H1 as (_ & <- & _).
    apply IH in H2. exact H2.
Qed.

End PassB.

(** ** The steps of a frame *)

Lemma Ok1_inj {A : Type} (a a' : A) (c c' : nat) :
  Ok (a, c) = Ok (a', c') -> a = a' /\ c = c'.
Proof. intros H. inversion H. auto. Qed.

Lemma generate_inv w g c w' c' :
  generate w g c = Ok (w', c') -> same_but_spawns w w'.
Proof.
  unfold generate, bind, random, ret, Enemy.init, Obstacle.init, uniform, bind, random, ret.
  destruct (g c <? 0.02); destruct (g _ <? 0.03);
    intros H; apply Ok1_inj in H as [<- _]; repeat split.
Qed.

Lemma collide_lasers_inv w g c w' c' :
  collide_lasers w g c = Ok (w', c') ->
  exists k new ls' es',
    w' = set_enemies es' (set_lasers ls' (tally k new w)) /\
    length new = (25 * k)%nat /\ c' = (75 * k + c)%nat /\
    active_lasers (lasers w) = (active_lasers ls' + k)%nat /\
    active_enemies (enemies w) = (active_enemies es' + k)%nat /\
    Forall2 laser_step (lasers w) ls' /\
    Forall2 enemy_step (enemies w) es'.
Proof.
  unfold collide_lasers. intros H.
  apply bind_Ok in H as ([[ls' es'] w1] & c1 & H1 & H).
  apply Ok1_inj in H as [<- <-].
  apply lasers_vs_enemies_inv in H1 as (k & new & -> & Hn & -> & Hl & He & HFl & HFe).
  exists k, new, ls', es'. auto 10.
Qed.

Lemma lefts_hazards {A B : Type} (f : A -> A) (f' : B -> B) (F : A + B -> A + B)
      (es : list A) (os : list B) :
  (forall a, F (inl a) = inl (f a)) -> (forall b, F (inr b) = inr (f' b)) ->
  lefts (map F (map inl es ++ map inr os)) = map f es /\
  rights (map F (map inl es ++ map inr os)) = map f' os.
Proof.
  intros Hl Hr. induction es as [|e es [IH1 IH2]]; cbn [map app].
  - induction os as [|o os [IH1 IH2]]; cbn [map lefts rights].
    + split; reflexivity.
    + rewrite Hr. cbn [lefts rights]. rewrite IH1, IH2. split; reflexivity.
  - rewrite Hl. cbn [lefts rights]. rewrite IH1, IH2. split; reflexivity.
Qed.

Lemma after_player_inl p (e : Enemy.t) :
  after_player p (inl e : hazard) = inl (after_player p e).
Proof.
  unfold after_player.
  change (struck p (inl e : hazard)) with (struck p e).
  destruct (struck p e); reflexivity.
Qed.

Lemma after_player_inr p (o : Obstacle.t) :
  after_player p (inr o : hazard) = inr (after_player p o).
Proof.
  unfold after_player.
  change (struck p (inr o : hazard)) with (struck p o).
  destruct (struck p o); reflexivity.
Qed.

Lemma collisions_app {A : Type} `{Entity A} p (l1 l2 : list A) :
  collisions p (l1 ++ l2) = (collisions p l1 + collisions p l2)%nat.
Proof. unfold collisions. rewrite filter_app, length_app. reflexivity. Qed.

Lemma collisions_hazards p es os :
  collisions p (hazards es os) = (collisions p es + collisions p os)%nat.
Proof.
  unfold hazards. rewrite collisions_app. f_equal.
  - unfold collisions. induction es as [|e es IH]; [reflexivity|].
    cbn [map filter]. change (struck p (inl e : hazard)) with (struck p e).
    destruct (struck p e); cbn [length]; rewrite IH; reflexivity.
  - unfold collisions. induction os as [|o os IH]; [reflexivity|].
    cbn [map filter]. change (struck p (inr o : hazard)) with (struck p o).
    destruct (struck p o); cbn [length]; rewrite IH; reflexivity.
Qed.

Lemma collide_player_inv w g c w' c' :
  collide_player w g c = Ok (w', c') ->
  let p := player w in
  let k := (collisions p (enemies w) + collisions p (obstacles w))%nat in
  w' = set_obstacles (map (after_player p) (obstacles w))
         (set_enemies (map (after_player p) (enemies w)) (wounded k g c w)) /\
  c' = (60 * k + c)%nat.
Proof.
  intros H p k. unfold collide_player in H.
  apply bind_Ok in H as ([hs w1] & c1 & H1 & H).
  apply Ok1_inj in H as [<- <-].
  pose proof (player_vs_entities_Ok _ _ _ _ _ H1) as Hd.
  rewrite (player_vs_entities_defined _ _ _ _ Hd) in H1.
  apply Ok2_inj in H1 as (<- & <- & <-).
  fold p. rewrite collisions_hazards. fold k. unfold hazards.
  destruct (lefts_hazards (after_player p) (after_player p) (after_player p)
              (enemies w) (obstacles w) (after_player_inl p) (after_player_inr p))
    as [E1 E2].
  split; [|reflexivity].
  f_equal; [exact E2 | f_equal; exact E1].
Qed.

(** *** Counting cleared flags *)

Lemma filter_length_split {A : Type} (f : A -> bool) (l : list A) :
  length l = (length (filter f l) + length (filter (fun a => negb (f a)) l))%nat.
Proof.
  induction l as [|a l IH]; [reflexivity|].
  cbn [filter]. destruct (f a); cbn [negb length]; lia.
Qed.

Lemma filter_filter_length {A : Type} (f : A -> bool) (l : list A) :
  length (filter f (filter f l)) = length (filter f l).
Proof.
  induction l as [|a l IH]; [reflexivity|].
  cbn [filter]. destruct (f a) eqn:E; [|exact IH].
  cbn [filter]. rewrite E. cbn [length]. rewrite IH. reflexivity.
Qed.

Lemma idle_lasers_after ls0 ls' k :
  Forall2 laser_step (filter Laser.active ls0) ls' ->
  active_lasers (filter Laser.active ls0) = (active_lasers ls' + k)%nat ->
  idle_lasers ls' = k.
Proof.
  intros HF Hk. apply Forall2_length in HF.
  unfold active_lasers, idle_lasers in *.
  rewrite filter_filter_length in Hk.
  pose proof (filter_length_split Laser.active ls'). lia.
Qed.

Lemma idle_enemies_after es0 es' k :
  Forall2 enemy_step (filter Enemy.active es0) es' ->
  active_enemies (filter Enemy.active es0) = (active_enemies es' + k)%nat ->
  idle es' = k.
Proof.
  intros HF Hk. apply Forall2_length in HF.
  unfold active_enemies, idle in *.
  rewrite filter_filter_length in Hk.
  pose proof (filter_length_split Enemy.active es').
  change (fun e : Enemy.t => negb (ent_active e))
    with (fun e : Enemy.t => negb (Enemy.active e)). lia.
Qed.

Section Struck.

Context {A : Type} `{Entity A}.
Hypothesis deactivate_clears : forall a : A, ent_active (ent_deactivate a) = false.

Lemma idle_after_player p (ents : list A) :
  idle (map (after_player p) ents) = (idle ents + collisions p ents)%nat.
Proof.
  unfold idle, collisions. induction ents as [|a ents IH]; [reflexivity|].
  cbn [map filter]. unfold after_player at 1.
  destruct (struck p a) eqn:Hs.
  - assert (Ha : ent_active a = true).
    { unfold struck in Hs. apply andb_true_iff in Hs. apply Hs. }
    rewrite deactivate_clears, Ha. cbn [negb length]. rewrite IH. lia.
  - destruct (negb (ent_active a)); cbn [length]; rewrite IH; lia.
Qed.

End Struck.

Lemma idle_filter_active_obstacles os : idle (filter Obstacle.active os) = 0%nat.
Proof.
  unfold idle. induction os as [|o os IH]; [reflexivity|].
  cbn [filter]. destruct (Obstacle.active o) eqn:E; [|exact IH].
  cbn [filter]. change (ent_active o) with (Obstacle.active o).
  rewrite E. exact IH.
Qed.

(** ** The body of [if not game_over:] as a whole *)

Lemma update_world_inv dt keys w g c w' c' :
  update_world dt keys w g c = Ok (w', c') ->
  exists kA kB : nat,
    score w' = (score w + 100 * Z.of_nat kA)%Z /\
    player w' = Player.set_hp (Player.hp (player w) - 25 * Z.of_nat kB)
                              (Player.update dt keys (player w)) /\
    game_over w'
    = game_over w
      || ((0 <? kB)%nat && (Player.hp (player w) - 25 * Z.of_nat kB <=? 0)%Z) /\
    running w' = running w /\
    scroll_offset w' = scroll_offset (scroll_grid dt w) /\
    idle_lasers (lasers w') = kA /\
    (idle (enemies w') + idle (obstacles w') = kA + kB)%nat.
Proof.
  unfold update_world, collide. intros H.
  apply bind_Ok in H as (w1 & c1 & Hgen & H).
  apply bind_Ok in H as (w2 & c2 & HA & HB).
  apply generate_inv in Hgen as (Hp & Hls & Hps & Hs & Hoff & Hr & Hgo).
  apply collide_lasers_inv in HA
    as (kA & new & ls' & es' & -> & Hnew & -> & Hal & Hae & HFl & HFe).
  apply collide_player_inv in HB. cbv zeta in HB. destruct HB as [-> ->].
  revert Hal Hae HFl HFe.
  unfold remove_inactive, update_entities, tally, wounded, scroll_grid in *.
  wsimpl_all.
  intros Hal Hae HFl HFe.
  rewrite Hp, Hs, Hoff, Hr, Hgo.
  set (kB := (collisions _ es' + collisions _ _)%nat).
  exists kA, kB.
  split; [reflexivity|].
  split; [reflexivity|].
  split; [reflexivity|].
  split; [reflexivity|].
  split; [reflexivity|].
  split; [eapply idle_lasers_after; eassumption|].
  rewrite !idle_after_player by reflexivity.
  rewrite (idle_enemies_after _ _ _ HFe Hae), idle_filter_active_obstacles.
  unfold kB. lia.
Qed.

(** ** Events *)

Lemma benign_refl w : benign w w.
Proof. repeat split. Qed.

Lemma benign_trans w1 w2 w3 : benign w1 w2 -> benign w2 w3 -> benign w1 w3.
Proof.
  unfold benign. intros (a1 & a2 & a3 & a4 & a5) (b1 & b2 & b3 & b4 & b5).
  repeat split; congruence.
Qed.

Lemma handle_event_cases w ev :
  (is_restart_key ev = true /\ game_over w = true /\ handle_event w ev = restart w)
  \/
  (is_restart_key ev && game_over w = false /\ benign w (handle_event w ev)).
Proof.
  destruct ev as [|k|].
  - right. split; [reflexivity|]. repeat split.
  - destruct k; try (right; split; [reflexivity|]; cbn; repeat split; fail).
    + (* K_SPACE *)
      right. split; [reflexivity|]. unfold handle_event. cbn [is_space is_r andb].
      destruct (game_over w) eqn:Hgo; cbn [negb];
        [|destruct (Player.cooldown (player w) <=? 0)];
        unfold fire; wsimpl; try rewrite Hgo; repeat split; auto.
    + (* K_r *)
      unfold handle_event. cbn [is_space is_r andb is_restart_key].
      destruct (game_over w) eqn:Hgo.
      * left. auto.
      * right. split; [reflexivity|]. repeat split; assumption.
  - right. split; [reflexivity|]. repeat split.
Qed.

Lemma restarts_cons ev evs w :
  restarts (ev :: evs) w
  = game_over w && (is_restart_key ev || existsb is_restart_key evs).
Proof. reflexivity. Qed.

(** After the events: either no restart took place and only benign changes
    were made, or the state is that of a restart followed by benign ones. *)
Lemma handle_events_summary evs : forall w,
  (restarts evs w = false /\ benign w (handle_events evs w))
  \/
  (restarts evs w = true /\ exists w0, benign (restart w0) (handle_events evs w)).
Proof.
  induction evs as [|ev evs IH]; intros w.
  - left. split; [apply andb_false_r | apply benign_refl].
  - unfold handle_events. cbn [fold_left]. fold (handle_events evs (handle_event w ev)).
    rewrite restarts_cons.
    destruct (handle_event_cases w ev) as [(Hk & Hgo & Hev) | (Hk & Hb)].
    + right. rewrite Hk, Hgo. split; [reflexivity|].
      exists w. rewrite Hev.
      destruct (IH (restart w)) as [(_ & Hb) | (Hr & _)]; [exact Hb|].
      discriminate Hr.
    + assert (Hgo : game_over (handle_event w ev) = game_over w) by apply Hb.
      destruct (IH (handle_event w ev)) as [(Hr & Hb') | (Hr & w0 & Hb')];
        unfold restarts in Hr; rewrite Hgo in Hr.
      * left. split.
        -- destruct (game_over w); [|reflexivity].
           rewrite andb_true_r in Hk. rewrite Hk. exact Hr.
        -- eapply benign_trans; eassumption.
      * right. split.
        -- destruct (game_over w); [|discriminate Hr].
           cbn [andb] in Hr |- *. rewrite Hr. apply orb_true_r.
        -- exists w0. exact Hb'.
Qed.

(** A frame that starts in game-over and gets no restart input changes at
    most [running]. *)
Lemma handle_events_game_over evs : forall w,
  game_over w = true -> existsb is_restart_key evs = false ->
  handle_events evs w
  = if existsb is_quit evs then set_running false w else w.
Proof.
  induction evs as [|ev evs IH]; intros w Hgo Hno.
  - reflexivity.
  - cbn [existsb] in Hno. apply orb_false_iff in Hno as [Hev Hno].
    unfold handle_events. cbn [fold_left existsb].
    fold (handle_events evs (handle_event w ev)).
    destruct ev as [|k|].
    + cbn [handle_event is_quit orb]. rewrite IH by assumption.
      destruct (existsb is_quit evs); reflexivity.
    + assert (Hw : handle_event w (KEYDOWN k) = w).
      { unfold handle_event. rewrite Hgo. cbn [negb]. rewrite andb_false_r.
        rewrite Hgo. destruct k; try reflexivity. discriminate Hev. }
      rewrite Hw. cbn [is_quit orb]. apply IH; assumption.
    + cbn [handle_event is_quit orb]. apply IH; assumption.
Qed.

(** ** Float comparisons *)

Lemma ltb_leb x y : (x <? y) = true -> (x <=? y) = true.
Proof.
  rewrite ltb_spec, leb_spec. unfold SFltb, SFleb.
  destruct (SFcompare (Prim2SF x) (Prim2SF y)) as [[ | | ]|]; congruence.
Qed.

Lemma eqb_not_ltb x y : (x =? y) = true -> (x <? y) = false.
Proof.
  rewrite eqb_spec, ltb_spec. unfold SFeqb, SFltb.
  destruct (SFcompare (Prim2SF x) (Prim2SF y)) as [[ | | ]|]; congruence.
Qed.

Lemma SFcompare_Eq_sym x y :
  SFcompare x y = Some Eq -> SFcompare y x = Some Eq.
Proof.
  destruct x as [sx|sx| |sx mx ex], y as [sy|sy| |sy my ey];
    cbn [SFcompare]; try congruence;
    try (destruct sx; congruence); try (destruct sy; congruence);
    try (destruct sx, sy; congruence).
  change (Pos.compare_cont Eq mx my) with (mx ?= my)%positive.
  change (Pos.compare_cont Eq my mx) with (my ?= mx)%positive.
  destruct sx, sy; try congruence;
    (destruct (ex ?= ey)%Z eqn:E; try congruence;
     apply Z.compare_eq in E; subst ey; rewrite Z.compare_refl;
     destruct (mx ?= my)%positive eqn:E2; cbn [CompOpp]; try congruence;
     apply Pos.compare_eq in E2; subst my; rewrite Pos.compare_refl; reflexivity).
Qed.

Lemma eqb_not_gtb x y : (x =? y) = true -> (y <? x) = false.
Proof.
  rewrite eqb_spec, ltb_spec. unfold SFeqb, SFltb. intros H.
  destruct (SFcompare (Prim2SF x) (Prim2SF y)) as [[ | | ]|] eqn:E; try discriminate.
  rewrite (SFcompare_Eq_sym _ _ E). reflexivity.
Qed.

(** ** The ship stays inside its bounds *)

Lemma clamp_bounds lo hi v :
  (lo <=? lo) = true -> (lo <=? hi) = true ->
  (hi <=? hi) = true ->
  (lo <=? py_max lo (py_min hi v)) = true /\ (py_max lo (py_min hi v) <=? hi) = true.
Proof.
  intros Hlo Hlh Hhi. unfold py_max, py_min.
  destruct (v <? hi) eqn:E1.
  - destruct (lo <? v) eqn:E2.
    + split; apply ltb_leb; assumption.
    + split; assumption.
  - destruct (lo <? hi) eqn:E2; split; assumption.
Qed.

Lemma Player_update_in_bounds dt keys p :
  in_bounds (Player.update dt keys p) = true.
Proof.
  unfold in_bounds, Player.update. cbn [Player.x Player.y].
  match goal with
  | |- context [py_max (-15) (py_min 15 ?v)] =>
      destruct (clamp_bounds (-15) 15 v eq_refl eq_refl eq_refl) as [-> ->]
  end.
  match goal with
  | |- context [py_max (-8) (py_min 8 ?v)] =>
      destruct (clamp_bounds (-8) 8 v eq_refl eq_refl eq_refl) as [-> ->]
  end.
  reflexivity.
Qed.

(** ** The invariant of the loop *)

Lemma sound_init : sound World_init.
Proof.
  unfold sound. split; [exists 0%nat; reflexivity|].
  split; [exists 0%nat; reflexivity|].
  split; [|reflexivity].
  cbn. split; [discriminate | lia].
Qed.

Lemma sound_restart w : sound (restart w).
Proof.
  unfold sound. split; [exists 0%nat; reflexivity|].
  split; [exists 0%nat; reflexivity|].
  split; [|reflexivity].
  cbn. split; [discriminate | lia].
Qed.

Lemma sound_benign w w' : benign w w' -> sound w -> sound w'.
Proof.
  unfold benign, sound, in_bounds.
  intros (-> & -> & -> & -> & ->) H. exact H.
Qed.

Lemma sound_handle_events evs w : sound w -> sound (handle_events evs w).
Proof.
  intros Hw.
  destruct (handle_events_summary evs w) as [(_ & Hb) | (_ & w0 & Hb)].
  - eapply sound_benign; eassumption.
  - eapply sound_benign; [exact Hb | apply sound_restart].
Qed.

Lemma frame_cases dt evs keys w g c w' c' :
  frame dt evs keys w g c = Ok (w', c') ->
  (game_over (handle_events evs w) = true /\ w' = handle_events evs w /\ c' = c)
  \/
  (game_over (handle_events evs w) = false /\
   update_world dt keys (handle_events evs w) g c = Ok (w', c')).
Proof.
  unfold frame. destruct (game_over (handle_events evs w)); intros H.
  - left. apply Ok1_inj in H as [<- <-]. auto.
  - right. auto.
Qed.

Lemma sound_update_world dt keys w g c w' c' :
  game_over w = false -> sound w ->
  update_world dt keys w g c = Ok (w', c') -> sound w'.
Proof.
  intros Hgo ((k & Hk) & (j & Hj) & Hiff & _) H.
  apply update_world_inv in H
    as (kA & kB & Hs & Hp & Hgo' & _ & _ & _ & _).
  unfold sound. rewrite Hs, Hp, Hgo', Hgo. cbn [Player.hp Player.set_hp orb].
  split; [exists (k + kA)%nat; lia|].
  split; [exists (j + kB)%nat; lia|].
  split.
  - assert (Hpos : (0 < Player.hp (player w))%Z).
    { destruct (Z.lt_ge_cases 0 (Player.hp (player w))) as [|Hle]; [assumption|].
      apply Hiff in Hle. congruence. }
    destruct (Nat.ltb_spec 0 kB) as [Hlt|Hge]; cbn [andb].
    + rewrite Z.leb_le. tauto.
    + replace kB with 0%nat by lia. change (Z.of_nat 0) with 0%Z.
      split; [discriminate | lia].
  - exact (Player_update_in_bounds dt keys (player w)).
Qed.

Lemma sound_frame dt evs keys w g c w' c' :
  sound w -> frame dt evs keys w g c = Ok (w', c') -> sound w'.
Proof.
  intros Hw H. pose proof (sound_handle_events evs w Hw) as H1.
  apply frame_cases in H as [(_ & -> & _) | (Hgo & H)].
  - exact H1.
  - eapply sound_update_world; eassumption.
Qed.

Lemma sound_main_loop inputs : forall w g c w' c',
  sound w -> main_loop inputs w g c = Ok (w', c') -> sound w'.
Proof.
  induction inputs as [|i inputs IH]; intros w g c w' c' Hw H.
  - apply Ok1_inj in H as [<- _]. exact Hw.
  - cbn [main_loop] in H. destruct (running w).
    + apply bind_Ok in H as (w1 & c1 & H1 & H).
      eapply IH; [|exact H]. eapply sound_frame; eassumption.
    + apply Ok1_inj in H as [<- _]. exact Hw.
Qed.

Lemma reachable_sound w : reachable w -> sound w.
Proof.
  intros (inputs & g & c & c' & H).
  eapply sound_main_loop; [apply sound_init | exact H].
Qed.

(** ** Projection *)

Lemma SFcompare_refl x : x <> S754_nan -> SFcompare x x = Some Eq.
Proof.
  destruct x as [s|s| |s m e]; cbn [SFcompare]; intros Hx;
    try (destruct s; reflexivity); try congruence.
  rewrite Z.compare_refl.
  change (Pos.compare_cont Eq m m) with (m ?= m)%positive.
  rewrite Pos.compare_refl. destruct s; reflexivity.
Qed.

Lemma is_finite_spec f :
  is_finite f
  = match Prim2SF f with
    | S754_zero _ | S754_finite _ _ _ => true
    | _ => false
    end.
Proof.
  unfold is_finite, is_nan, is_infinity.
  rewrite !eqb_spec, abs_spec.
  change (Prim2SF infinity) with (S754_infinity false).
  unfold SFeqb.
  destruct (Prim2SF f) as [s|s| |s m e] eqn:E.
  - rewrite SFcompare_refl by discriminate. reflexivity.
  - rewrite SFcompare_refl by discriminate. reflexivity.
  - reflexivity.
  - rewrite SFcompare_refl by discriminate. reflexivity.
Qed.

Lemma py_int_finite f :
  is_finite f = true -> exists n, py_int f = Ok n /\ truncation_of f n.
Proof.
  rewrite is_finite_spec. unfold py_int, truncation_of, float_ratio.
  destruct (Prim2SF f) as [s|s| |s m e]; try discriminate; intros _.
  - exists 0%Z. split; [reflexivity|]. exists 0%Z, 1%Z. repeat split.
  - eexists. split; [reflexivity|]. eexists _, _. split; [reflexivity|].
    destruct (Z.leb_spec 0 e) as [He|He].
    + rewrite (Z.max_l e 0), (Z.max_r (- e) 0) by lia. change (2 ^ 0)%Z with 1%Z.
      split; [lia|]. rewrite Z.quot_1_r, Z.shiftl_mul_pow2 by lia.
      destruct s; [|reflexivity].
      change (Z.neg m) with (- Z.pos m)%Z. lia.
    + rewrite (Z.max_r e 0), (Z.max_l (- e) 0) by lia. change (2 ^ 0)%Z with 1%Z.
      assert (Hd : (0 < 2 ^ (- e))%Z) by (apply Z.pow_pos_nonneg; lia).
      split; [exact Hd|]. rewrite Z.mul_1_r, Z.shiftr_div_pow2 by lia.
      destruct s.
      * change (Z.neg m) with (- Z.pos m)%Z.
        rewrite Z.quot_opp_l by lia. rewrite Z.quot_div_nonneg by lia. reflexivity.
      * rewrite Z.quot_div_nonneg by lia. reflexivity.
Qed.

Lemma py_int_not_finite f :
  is_finite f = false -> exists e, py_int f = Raise e.
Proof.
  rewrite is_finite_spec. unfold py_int.
  destruct (Prim2SF f) as [s|s| |s m e]; try discriminate; intros _;
    eexists; reflexivity.
Qed.

Lemma outcome_reachable inputs g : reachable (outcome inputs g).
Proof.
  unfold outcome.
  destruct (main_loop inputs World_init g 0%nat) as [[w c]|e] eqn:E.
  - exists inputs, g, 0%nat, c. exact E.
  - exists [], g, 0%nat, 0%nat. reflexivity.
Qed.

(** ** What a frame does to score, health and the game-over flag *)

Lemma frame_inv dt evs keys w g c w' c' :
  frame dt evs keys w g c = Ok (w', c') ->
  let fresh := restarts evs w in
  let s0 := if fresh then 0%Z else score w in
  let h0 := if fresh then 100%Z else Player.hp (player w) in
  let over := if fresh then false else game_over w in
  if over then
    score w' = s0 /\ Player.hp (player w') = h0 /\ game_over w' = true
  else
    exists kB : nat,
      score w' = (s0 + 100 * Z.of_nat (idle_lasers (lasers w')))%Z /\
      Player.hp (player w') = (h0 - 25 * Z.of_nat kB)%Z /\
      game_over w' = ((0 <? kB)%nat && (Player.hp (player w') <=? 0)%Z) /\
      (idle (enemies w') + idle (obstacles w') = idle_lasers (lasers w') + kB)%nat.
Proof.
  intros H fresh s0 h0 over.
  assert (H1 : score (handle_events evs w) = s0 /\
               Player.hp (player (handle_events evs w)) = h0 /\
               game_over (handle_events evs w) = over).
  { subst s0 h0 over fresh.
    destruct (handle_events_summary evs w)
      as [(-> & Hb) | (-> & w0 & Hb)]; destruct Hb as (a1 & a2 & _ & _ & a5); auto. }
  destruct H1 as (Hs & Hh & Hgo).
  apply frame_cases in H as [(Hover & -> & _) | (Hover & H)];
    rewrite Hgo in Hover; rewrite Hover.
  - repeat split; [exact Hs | exact Hh | rewrite Hgo; exact Hover].
  - apply update_world_inv in H as (kA & kB & Hs' & Hp' & Hgo' & _ & _ & HkA & Hk).
    exists kB. rewrite Hs', Hp', Hgo', HkA, Hs, Hh, Hgo, Hover, Hk.
    cbn [Player.hp Player.set_hp orb]. repeat split.
Qed.

Lemma frame_in_game_over dt evs keys w g c :
  game_over w = true -> existsb is_restart_key evs = false ->
  frame dt evs keys w g c
  = Ok (if existsb is_quit evs then set_running false w else w, c).
Proof.
  intros Hgo Hno. unfold frame.
  rewrite (handle_events_game_over evs w Hgo Hno).
  destruct (existsb is_quit evs); wsimpl; rewrite Hgo; reflexivity.
Qed.

(** ** Iteration order *)

Lemma perm_filter_length {A : Type} (f : A -> bool) (l l' : list A) :
  Permutation l l' -> length (filter f l) = length (filter f l').
Proof.
  induction 1 as [|a l l' _ IH|a b l|l1 l2 l3 _ IH1 _ IH2]; cbn [filter].
  - reflexivity.
  - destruct (f a); cbn [length]; rewrite IH; reflexivity.
  - destruct (f a), (f b); reflexivity.
  - congruence.
Qed.

Lemma perm_existsb {A : Type} (f : A -> bool) (l l' : list A) :
  Permutation l l' -> existsb f l = existsb f l'.
Proof.
  induction 1 as [|a l l' _ IH|a b l|l1 l2 l3 _ IH1 _ IH2]; cbn [existsb].
  - reflexivity.
  - rewrite IH. reflexivity.
  - destruct (f a), (f b); reflexivity.
  - congruence.
Qed.

Lemma filter_nil_false {A : Type} (f : A -> bool) (l : list A) :
  length (filter f l) = 0%nat -> forall a, In a l -> f a = false.
Proof.
  induction l as [|b l IH]; intros Hn a Ha; [destruct Ha|].
  cbn [filter] in Hn. destruct (f b) eqn:Hb; [discriminate Hn|].
  destruct Ha as [<- | Ha]; [exact Hb | apply IH; assumption].
Qed.

Lemma existsb_false_filter {A : Type} (f : A -> bool) (l : list A) :
  length (filter f l) = 0%nat -> existsb f l = false.
Proof.
  induction l as [|b l IH]; intros Hn; [reflexivity|].
  cbn [filter] in Hn. cbn [existsb].
  destruct (f b); [discriminate Hn | apply IH; exact Hn].
Qed.

Lemma map_id_on {A : Type} (f : A -> A) (l : list A) :
  (forall a, In a l -> f a = a) -> map f l = l.
Proof.
  induction l as [|a l IH]; intros Hf; [reflexivity|].
  cbn [map]. rewrite Hf by (left; reflexivity).
  rewrite IH; [reflexivity|]. intros b Hb. apply Hf. right. exact Hb.
Qed.

Lemma hit_inactive_laser l e : Laser.active l = false -> hit l e = false.
Proof. unfold hit. intros ->. reflexivity. Qed.

Lemma hit_inactive_enemy l e : Enemy.active e = false -> hit l e = false.
Proof. unfold hit. intros ->. apply andb_false_intro1, andb_false_r. Qed.

Lemma hit_zapped_enemy l e : hit l (Enemy.set_active false e) = false.
Proof. apply hit_inactive_enemy. reflexivity. Qed.

(** One laser against the enemies when at most one of them is within its
    reach. *)
Lemma laser_vs_enemies_closed es : forall l w g c l' es' w' c',
  laser_vs_enemies l es w g c = Ok ((l', es', w'), c') ->
  (length (filter (hit l) es) <= 1)%nat ->
  l' = zap_laser es l /\
  es' = map (fun e => if hit l e then Enemy.set_active false e else e) es.
Proof.
  induction es as [|e es IH]; intros l w g c l' es' w' c' H Hone.
  - apply Ok3_inj in H as (<- & <- & _). split; reflexivity.
  - cbn [laser_vs_enemies] in H.
    apply bind_Ok in H as ([[l1 e1] w1] & c1 & H1 & H).
    apply bind_Ok in H as ([[l2 es2] w2] & c2 & H2 & H).
    apply Ok3_inj in H as (<- & <- & _).
    apply laser_vs_enemy_inv in H1
      as [(-> & -> & -> & -> & Hno) | (Hl & He & Hh & -> & -> & -> & ->)].
    + assert (Hhit : hit l e = false).
      { destruct Hno as [Hi | [Hi | Hi]].
        - apply hit_inactive_enemy; exact Hi.
        - apply hit_inactive_laser; exact Hi.
        - unfold hit. rewrite Hi. apply andb_false_r. }
      cbn [filter] in Hone. rewrite Hhit in Hone.
      destruct (IH _ _ _ _ _ _ _ _ H2 Hone) as [-> ->].
      unfold zap_laser. cbn [existsb map]. rewrite Hhit. split; reflexivity.
    + assert (Hhit : hit l e = true).
      { unfold hit. rewrite Hl, He, Hh. reflexivity. }
      rewrite laser_vs_enemies_inactive in H2 by reflexivity.
      apply Ok3_inj in H2 as (<- & <- & _).
      cbn [filter] in Hone. rewrite Hhit in Hone. cbn [length] in Hone.
      assert (Hnone : length (filter (hit l) es) = 0%nat) by lia.
      unfold zap_laser. cbn [existsb map]. rewrite Hhit. cbn [orb].
      split; [reflexivity|]. f_equal. symmetry. apply map_id_on.
      intros e' He'. rewrite (filter_nil_false _ _ Hnone e' He'). reflexivity.
Qed.

Lemma filter_map_le {A : Type} (f : A -> bool) (h : A -> A) (l : list A) :
  (forall a, f (h a) = true -> f a = true) ->
  (length (filter f (map h l)) <= length (filter f l))%nat.
Proof.
  intros Hf. induction l as [|a l IH]; [apply Nat.le_refl|].
  cbn [map filter]. destruct (f (h a)) eqn:E.
  - rewrite (Hf a E). cbn [length]. lia.
  - destruct (f a); cbn [length]; lia.
Qed.

Lemma filter_le_pointwise {A : Type} (f f' : A -> bool) (l : list A) :
  (forall a, f a = true -> f' a = true) ->
  (length (filter f l) <= length (filter f' l))%nat.
Proof.
  intros Hf. induction l as [|a l IH]; [apply Nat.le_refl|].
  cbn [filter]. destruct (f a) eqn:E.
  - rewrite (Hf a E). cbn [length]. lia.
  - destruct (f' a); cbn [length]; lia.
Qed.

(** The whole pass when no laser and no enemy is contended for. *)
Lemma lasers_vs_enemies_closed ls : forall es w g c ls' es' w' c',
  lasers_vs_enemies ls es w g c = Ok ((ls', es', w'), c') ->
  uncontended ls es ->
  ls' = map (zap_laser es) ls /\ es' = map (zap_enemy ls) es.
Proof.
  induction ls as [|l ls IH]; intros es w g c ls' es' w' c' H [HL HE].
  - apply Ok3_inj in H as (<- & <- & _). split; [reflexivity|].
    symmetry. apply map_id_on. reflexivity.
  - cbn [lasers_vs_enemies] in H.
    apply bind_Ok in H as ([[l1 es1] w1] & c1 & H1 & H).
    apply bind_Ok in H as ([[ls2 es2] w2] & c2 & H2 & H).
    apply Ok3_inj in H as (<- & <- & _).
    destruct (laser_vs_enemies_closed _ _ _ _ _ _ _ _ _ H1 (HL l (or_introl eq_refl)))
      as [-> ->].
    set (step := fun e => if hit l e then Enemy.set_active false e else e) in *.
    assert (Hstep : forall l2 e, hit l2 (step e) = true -> hit l2 e = true).
    { intros l2 e. unfold step. destruct (hit l e); [|auto].
      rewrite hit_zapped_enemy. discriminate. }
    assert (Hunc : uncontended ls (map step es)).
    { split.
      - intros l2 Hl2.
        eapply Nat.le_trans; [apply filter_map_le; apply Hstep|].
        apply HL. right. exact Hl2.
      - intros e1 He1. apply in_map_iff in He1 as (e & <- & He).
        eapply Nat.le_trans;
          [apply (filter_le_pointwise _ (fun l2 => hit l2 e)); intros l2; apply Hstep|].
        specialize (HE e He). cbn [filter] in HE.
        destruct (hit l e); cbn [length] in HE; lia. }
    destruct (IH _ _ _ _ _ _ _ _ H2 Hunc) as [-> ->].
    split.
    + cbn [map]. f_equal. apply map_ext_in. intros l2 Hl2.
      unfold zap_laser.
      assert (Hex : existsb (hit l2) (map step es) = existsb (hit l2) es).
      { destruct (existsb (hit l2) es) eqn:Ex.
        - apply existsb_exists in Ex as (e & He & Hhit).
          apply existsb_exists. exists (step e). split; [apply in_map; exact He|].
          assert (Hl : hit l e = false).
          { specialize (HE e He). cbn [filter] in HE.
            destruct (hit l e); [|reflexivity]. cbn [length] in HE.
            assert (Hz : length (filter (fun l0 => hit l0 e) ls) = 0%nat) by lia.
            rewrite (filter_nil_false _ _ Hz l2 Hl2) in Hhit. discriminate Hhit. }
          unfold step. rewrite Hl. exact Hhit.
        - destruct (existsb (hit l2) (map step es)) eqn:Ex'; [|reflexivity].
          apply existsb_exists in Ex' as (e1 & He1 & Hhit).
          apply in_map_iff in He1 as (e & <- & He).
          apply Hstep in Hhit.
          assert (Ht : existsb (hit l2) es = true)
            by (apply existsb_exists; exists e; auto).
          congruence. }
      rewrite Hex. reflexivity.
    + rewrite map_map. apply map_ext. intros e.
      unfold zap_enemy. cbn [existsb]. unfold step.
      destruct (hit l e) eqn:Hl; cbn [orb].
      * assert (Hz : existsb (fun l0 => hit l0 (Enemy.set_active false e)) ls = false).
        { apply existsb_false_filter.
          assert (Hle : (length (filter (fun l0 => hit l0 (Enemy.set_active false e)) ls)
                         <= length (filter (fun _ : Laser.t => false) ls))%nat).
          { apply filter_le_pointwise. intros l0. rewrite hit_zapped_enemy. auto. }
          assert (Hf : length (filter (fun _ : Laser.t => false) ls) = 0%nat).
          { clear. induction ls; [reflexivity | exact IHls]. }
          lia. }
        rewrite Hz. reflexivity.
      * reflexivity.
Qed.

(** ** Every pair is visited: nothing within reach is left active *)

Lemma out_of_reach_step l e e' :
  enemy_step e e' -> out_of_reach l e -> out_of_reach l e'.
Proof.
  intros [-> | [_ ->]] Ho; [exact Ho|]. intros _ Ha. discriminate Ha.
Qed.

Lemma laser_vs_enemies_exhausts es : forall l w g c l' es' w' c',
  laser_vs_enemies l es w g c = Ok ((l', es', w'), c') ->
  Forall (out_of_reach l') es'.
Proof.
  induction es as [|e es IH]; intros l w g c l' es' w' c' H.
  - apply Ok3_inj in H as (_ & <- & _). constructor.
  - cbn [laser_vs_enemies] in H.
    apply bind_Ok in H as ([[l1 e1] w1] & c1 & H1 & H).
    apply bind_Ok in H as ([[l2 es2] w2] & c2 & H2 & H).
    apply Ok3_inj in H as (<- & <- & _).
    apply laser_vs_enemy_inv in H1
      as [(-> & -> & -> & -> & Hno) | (Hl & He & Hh & -> & -> & -> & ->)].
    + constructor; [|eapply IH; eassumption].
      pose proof (laser_vs_enemies_inv _ _ _ _ _ _ _ _ _ H2)
        as (k & new & _ & _ & _ & _ & _ & Hk).
      intros Hal Hae.
      destruct Hk as [(_ & ->) | (_ & _ & ->)]; [|discriminate Hal].
      destruct Hno as [Hi | [Hi | Hi]]; [congruence | congruence | exact Hi].
    + rewrite laser_vs_enemies_inactive in H2 by reflexivity.
      apply Ok3_inj in H2 as (<- & <- & _).
      constructor; [intros Hal; discriminate Hal|].
      apply Forall_forall. intros e' _ Hal. discriminate Hal.
Qed.

Lemma lasers_vs_enemies_exhausts ls : forall es w g c ls' es' w' c',
  lasers_vs_enemies ls es w g c = Ok ((ls', es', w'), c') ->
  Forall (fun l' => Forall (out_of_reach l') es') ls'.
Proof.
  induction ls as [|l ls IH]; intros es w g c ls' es' w' c' H.
  - apply Ok3_inj in H as (<- & _). constructor.
  - cbn [lasers_vs_enemies] in H.
    apply bind_Ok in H as ([[l1 es1] w1] & c1 & H1 & H).
    apply bind_Ok in H as ([[ls2 es2] w2] & c2 & H2 & H).
    apply Ok3_inj in H as (<- & <- & _).
    constructor; [|eapply IH; eassumption].
    pose proof (lasers_vs_enemies_inv _ _ _ _ _ _ _ _ _ H2)
      as (k & new & _ & _ & _ & _ & _ & _ & HF).
    pose proof (laser_vs_enemies_exhausts _ _ _ _ _ _ _ _ _ H1) as Hout.
    clear H1 H2 IH. induction HF as [|a b la lb Hab _ IHF]; [constructor|].
    inversion Hout as [|? ? Ha Hla]; subst.
    constructor; [eapply out_of_reach_step; eassumption | apply IHF; exact Hla].
Qed.

Lemma uncontended_perm ls ls2 es es2 :
  Permutation ls ls2 -> Permutation es es2 ->
  uncontended ls es -> uncontended ls2 es2.
Proof.
  intros Pl Pe [HL HE]. split.
  - intros l Hl. rewrite <- (perm_filter_length _ _ _ Pe).
    apply HL. eapply Permutation_in; [symmetry; exact Pl | exact Hl].
  - intros e He. rewrite <- (perm_filter_length _ _ _ Pl).
    apply HE. eapply Permutation_in; [symmetry; exact Pe | exact He].
Qed.

Lemma zap_lasers_perm ls ls2 es es2 :
  Permutation ls ls2 -> Permutation es es2 ->
  Permutation (map (zap_laser es) ls) (map (zap_laser es2) ls2).
Proof.
  intros Pl Pe.
  replace (map (zap_laser es2) ls2) with (map (zap_laser es) ls2).
  - apply Permutation_map. exact Pl.
  - apply map_ext. intros l. unfold zap_laser.
    rewrite (perm_existsb _ _ _ Pe). reflexivity.
Qed.

Lemma zap_enemies_perm ls ls2 es es2 :
  Permutation ls ls2 -> Permutation es es2 ->
  Permutation (map (zap_enemy ls) es) (map (zap_enemy ls2) es2).
Proof.
  intros Pl Pe.
  replace (map (zap_enemy ls2) es2) with (map (zap_enemy ls) es2).
  - apply Permutation_map. exact Pe.
  - apply map_ext. intros e. unfold zap_enemy.
    rewrite (perm_existsb _ _ _ Pl). reflexivity.
Qed.

(** The two passes in terms of their closed forms. *)
Lemma collide_inv w g c r c' :
  collide w g c = Ok (r, c') ->
  exists (k : nat) (new : list Particle.t) (ls' : list Laser.t) (es' : list Enemy.t)
         (c1 : nat),
    lasers_vs_enemies (lasers w) (enemies w) w g c = Ok ((ls', es', tally k new w), c1) /\
    active_lasers (lasers w) = (active_lasers ls' + k)%nat /\
    let p := player w in
    let kB := (collisions p es' + collisions p (obstacles w))%nat in
    r = set_obstacles (map (after_player p) (obstacles w))
          (set_enemies (map (after_player p) es')
             (wounded kB g c1 (set_enemies es' (set_lasers ls' (tally k new w))))).
Proof.
  unfold collide, collide_lasers. intros H.
  apply bind_Ok in H as (w1 & c1 & HA & HB).
  apply bind_Ok in HA as ([[ls' es'] wa] & ca & HA & Hret).
  apply Ok1_inj in Hret as [<- <-].
  pose proof (lasers_vs_enemies_inv _ _ _ _ _ _ _ _ _ HA)
    as (k & new & -> & _ & _ & Hal & _).
  apply collide_player_inv in HB. cbv zeta in HB. destruct HB as [-> _].
  exists k, new, ls', es', ca. split; [exact HA|]. split; [exact Hal|].
  reflexivity.
Qed.

Lemma collide_reordered w1 w2 g c r1 c1 r2 c2 :
  reordered w1 w2 ->
  uncontended (lasers w1) (enemies w1) ->
  collide w1 g c = Ok (r1, c1) ->
  collide w2 g c = Ok (r2, c2) ->
  same_outcome r1 r2.
Proof.
  intros (Hp & Pl & Pe & Po & _ & Hs & _ & _ & Hgo) Hunc H1 H2.
  pose proof (uncontended_perm _ _ _ _ Pl Pe Hunc) as Hunc2.
  apply collide_inv in H1 as (k1 & n1 & ls1 & es1 & ca1 & HA1 & Hk1 & ->).
  apply collide_inv in H2 as (k2 & n2 & ls2 & es2 & ca2 & HA2 & Hk2 & ->).
  destruct (lasers_vs_enemies_closed _ _ _ _ _ _ _ _ _ HA1 Hunc) as [El1 Ee1].
  destruct (lasers_vs_enemies_closed _ _ _ _ _ _ _ _ _ HA2 Hunc2) as [El2 Ee2].
  assert (Pl' : Permutation ls1 ls2)
    by (rewrite El1, El2; apply zap_lasers_perm; assumption).
  assert (Pe' : Permutation es1 es2)
    by (rewrite Ee1, Ee2; apply zap_enemies_perm; assumption).
  assert (Hk : k1 = k2).
  { unfold active_lasers in Hk1, Hk2.
    rewrite (perm_filter_length _ _ _ Pl) in Hk1.
    rewrite (perm_filter_length _ _ _ Pl') in Hk1. lia. }
  subst k2. rewrite Hp.
  assert (HkB : (collisions (player w1) es1 + collisions (player w1) (obstacles w1)
                 = collisions (player w1) es2
                   + collisions (player w1) (obstacles w2))%nat).
  { unfold collisions.
    rewrite (perm_filter_length _ _ _ Pe'), (perm_filter_length _ _ _ Po).
    reflexivity. }
  rewrite <- HkB.
  unfold same_outcome, wounded, tally. wsimpl.
  cbn [Player.hp Player.set_hp]. rewrite Hp, Hs, Hgo.
  repeat split; try reflexivity; try assumption.
  - apply Permutation_map. exact Pe'.
  - apply Permutation_map. exact Po.
Qed.

(** Pass B visits the entities in any order with the same result. *)
Lemma player_vs_entities_perm {A : Type} `{Entity A} (hs hs' : list A) w g c r w' c' :
  Permutation hs hs' ->
  player_vs_entities hs w g c = Ok ((r, w'), c') ->
  exists r', player_vs_entities hs' w g c = Ok ((r', w'), c') /\ Permutation r r'.
Proof.
  intros P Hr.
  pose proof (player_vs_entities_Ok _ _ _ _ _ Hr) as Hd.
  rewrite (player_vs_entities_defined _ _ _ _ Hd) in Hr.
  apply Ok2_inj in Hr as (<- & <- & <-).
  assert (Hd' : Forall (hit_defined (player w)) hs').
  { eapply Permutation_Forall; eassumption. }
  eexists. split.
  - rewrite (player_vs_entities_defined _ _ _ _ Hd').
    unfold collisions. rewrite (perm_filter_length _ _ _ P). reflexivity.
  - apply Permutation_map. exact P.
Qed.

(** The two passes return when no distance computation raises. *)
Lemma player_hits_step p (e e' : Enemy.t) :
  enemy_step e e' -> player_hits p e' = player_hits p e.
Proof. intros [-> | [_ ->]]; reflexivity. Qed.

Lemma hazards_defined_step p es es' :
  Forall2 enemy_step es es' ->
  Forall (fun e : Enemy.t => exists b, player_hits p e = Ok b) es ->
  Forall (fun e : Enemy.t => hit_defined p (inl e : hazard)) es'.
Proof.
  induction 1 as [|e e' es es' He _ IH]; intros HE.
  - constructor.
  - inversion HE as [|? ? Hb Hbs]; subst. constructor; [|apply IH; exact Hbs].
    intros _. change (player_hits p (inl e' : hazard)) with (player_hits p e').
    rewrite (player_hits_step _ _ _ He). exact Hb.
Qed.

Lemma collide_total w g c :
  ranges_defined w -> exists r c', collide w g c = Ok (r, c').
Proof.
  intros (HL & HE & HO). unfold collide, collide_lasers.
  destruct (lasers_vs_enemies_total _ _ w g c HL) as [[[[ls' es'] w1] c1] HA].
  pose proof (lasers_vs_enemies_inv _ _ _ _ _ _ _ _ _ HA)
    as (k & new & -> & _ & _ & _ & _ & _ & HFe).
  rewrite (bind_Ok_intro _ _ _ _ _ _ (bind_Ok_intro _ _ _ _ _ _ HA)).
  unfold ret, collide_player.
  set (wa := set_enemies es' (set_lasers ls' (tally k new w))).
  assert (Hd : Forall (hit_defined (player wa)) (hazards (enemies wa) (obstacles wa))).
  { unfold wa, tally, hazards. wsimpl. apply Forall_app. split.
    - apply Forall_map. eapply hazards_defined_step; eassumption.
    - apply Forall_map. revert HO. apply Forall_impl. intros o Hb _. exact Hb. }
  rewrite (bind_Ok_intro _ _ _ _ _ _ (player_vs_entities_defined _ _ _ _ Hd)).
  eexists _, _. reflexivity.
Qed.

(** ** The scenario of one laser and one enemy *)

Lemma duel_frame g c :
  (g c <? 0.02) = false -> (g (S c) <? 0.03) = false ->
  exists w',
    frame 0 [] no_keys duel g c = Ok (w', (77 + c)%nat) /\
    map Enemy.active (enemies w') = [false] /\
    map Laser.active (lasers w') = [false] /\
    score w' = 100%Z /\
    length (particles w') = 25%nat.
Proof.
  intros H1 H2. unfold frame. cbn [handle_events fold_left].
  change (game_over duel) with false. cbv iota.
  unfold update_world.
  set (w0 := scroll_grid 0 (set_player (Player.update 0 no_keys (player duel)) duel)).
  assert (Hgen : generate w0 g c = Ok (w0, (2 + c)%nat)).
  { unfold generate, bind, random, ret. rewrite H1, H2. reflexivity. }
  rewrite (bind_Ok_intro _ _ _ _ _ _ Hgen).
  eexists. split.
  - vm_compute. reflexivity.
  - vm_compute. auto.
Qed.

(** * The claims *)

(** ** C1: projection *)

Example project_centre : project 0 0 10 = Ok (Some (400, 300)%Z).
Proof. reflexivity. Qed.

Example project_truncates_toward_zero :
  project (-100) 0 3 = Ok (Some (-12933, 300)%Z).
Proof. reflexivity. Qed.

(** The coordinates are rounded to double precision before [int()]: for the
    float [x = 0.3] at depth 1 the exact value of [400 + x * 400] is just
    below 520 and truncates to 519; the product rounds to 120, and [project]
    returns 520. *)
Example project_rounds_before_int :
  project 0.3 0 1 = Ok (Some (520, 300)%Z) /\
  exists num den : Z,
    float_ratio 0.3 = Some (num, den) /\ Z.quot (400 * den + num * 400) den = 519%Z.
Proof.
  split; [reflexivity|]. eexists _, _. split; [vm_compute; reflexivity|].
  vm_compute. reflexivity.
Qed.

(** C1 (as amended).  For all floats [x], [y], [z], [project x y z] is absent
    exactly when [z < 0.1].  Otherwise, when the two screen coordinates
    [WIDTH/2 + x * (FOV/z)] and [HEIGHT/2 - y * (FOV/z)], computed in double
    precision, are finite, it returns the pair of their truncations toward
    zero; when one of them is an infinity or a NaN, [int()] raises and
    nothing is returned. *)
Theorem project_spec (x y z : float) :
  (project x y z = Ok None <-> (z <? 0.1) = true) /\
  ((z <? 0.1) = false ->
   (is_finite (screen_x x z) = true -> is_finite (screen_y y z) = true ->
    exists ix iy : Z,
      project x y z = Ok (Some (ix, iy)) /\
      truncation_of (screen_x x z) ix /\ truncation_of (screen_y y z) iy) /\
   (is_finite (screen_x x z) = false \/ is_finite (screen_y y z) = false ->
    exists e : exn, project x y z = Raise e)).
Proof.
  unfold project. fold (screen_x x z). fold (screen_y y z).
  destruct (z <? 0.1) eqn:Hz.
  - split; [tauto|]. discriminate.
  - split.
    { split; [|discriminate]. unfold rbind.
      destruct (py_int (screen_x x z)); [|discriminate].
      destruct (py_int (screen_y y z)); discriminate. }
    intros _. split.
    + intros Hx Hy.
      destruct (py_int_finite _ Hx) as (ix & Hix & Htx).
      destruct (py_int_finite _ Hy) as (iy & Hiy & Hty).
      exists ix, iy. unfold rbind. rewrite Hix, Hiy. auto.
    + intros [Hx | Hy]; unfold rbind.
      * destruct (py_int_not_finite _ Hx) as (e & ->). exists e. reflexivity.
      * destruct (py_int_not_finite _ Hy) as (e & ->).
        destruct (py_int (screen_x x z)) as [ix|e']; eexists; reflexivity.
Qed.

(** The instance [project(1, 1, 10)]. *)
Lemma project_spec_witness :
  exists ix iy : Z,
    project 1 1 10 = Ok (Some (ix, iy)) /\
    truncation_of (screen_x 1 10) ix /\ truncation_of (screen_y 1 10) iy.
Proof.
  exact (proj1 (proj2 (project_spec 1 1 10) eq_refl) eq_refl eq_refl).
Defined.

(** C1 as stated fails: at [x = 1e308], [z = 0.1] the depth is not below
    [0.1], the factor is [4000], [x * factor] overflows to infinity and
    [int(px)] raises [OverflowError]: no pair is returned. *)
Lemma project_overflow :
  (0.1 <? 0.1) = false /\
  project 1e308 0 0.1 = Raise OverflowError /\
  (forall r, project 1e308 0 0.1 <> Ok r).
Proof.
  split; [reflexivity|]. split; [reflexivity|].
  intros r H. discriminate H.
Qed.


(** ** C2: health and game-over *)




(** ** C3: a laser hits an enemy *)




(** ** C4: the ship stays in its bounds *)

(** C4.  After every call of [Player.update], for every [dt] and every state
    of the keys, [player.x] is in [[-15, 15]] and [player.y] in [[-8, 8]];
    hence after every finite sequence of updates from [Player()], and in every
    state the loop reaches. *)
Theorem player_stays_in_bounds :
  (forall (dt : float) (keys : key -> bool) (p : Player.t),
     let p' := Player.update dt keys p in
     (-15 <=? Player.x p') = true /\ (Player.x p' <=? 15) = true /\
     (-8 <=? Player.y p') = true /\ (Player.y p' <=? 8) = true) /\
  (forall updates : list (float * (key -> bool)),
     in_bounds (fold_left (fun p u => Player.update (fst u) (snd u) p)
                          updates Player.init) = true) /\
  (forall w : World, reachable w -> in_bounds (player w) = true).
Proof.
  split; [|split].
  - intros dt keys p p'.
    pose proof (Player_update_in_bounds dt keys p) as H. fold p' in H.
    unfold in_bounds in H.
    apply andb_true_iff in H as [H Hy2].
    apply andb_true_iff in H as [H Hy1].
    apply andb_true_iff in H as [Hx1 Hx2]. auto.
  - intros updates.
    assert (Hgen : forall p, in_bounds p = true ->
              in_bounds (fold_left (fun p u => Player.update (fst u) (snd u) p)
                                   updates p) = true).
    { induction updates as [|u updates IH]; intros p Hp; [exact Hp|].
      cbn [fold_left]. apply IH. apply Player_update_in_bounds. }
    apply Hgen. reflexivity.
  - intros w Hw. apply reachable_sound in Hw. apply Hw.
Qed.

(** The ship after 1.2 s of steering right from the start: the integration
    gives [x = 18], the clamp keeps [15]. *)
Lemma player_stays_in_bounds_witness :
  in_bounds (player (outcome steer_right no_spawn)) = true /\
  Player.x (player (outcome steer_right no_spawn)) = 15.
Proof.
  split.
  - exact (proj2 (proj2 player_stays_in_bounds) _
             (outcome_reachable steer_right no_spawn)).
  - vm_compute. reflexivity.
Defined.


(** ** C5: expiry of lasers, enemies and obstacles *)

(** C5.  For every [dt] (in particular every [dt >= 0]), [update] clears the
    flag of an active entity exactly when its depth after integration is
    beyond the threshold: above 150 for a laser, below 0 for an enemy or an
    obstacle.  At a depth equal to the threshold the entity stays active, and
    [update] never sets a cleared flag again. *)
Theorem expiry_at_threshold (dt : float) :
  (forall l : Laser.t,
     let l' := Laser.update dt l in
     Laser.z l' = Laser.z l + Laser.speed l * dt /\
     (Laser.active l = true ->
      (Laser.active l' = false <-> (150 <? Laser.z l') = true) /\
      ((Laser.z l' =? 150) = true -> Laser.active l' = true)) /\
     (Laser.active l = false -> Laser.active l' = false)) /\
  (forall e : Enemy.t,
     let e' := Enemy.update dt e in
     Enemy.z e' = Enemy.z e - Enemy.speed e * dt /\
     (Enemy.active e = true ->
      (Enemy.active e' = false <-> (Enemy.z e' <? 0) = true) /\
      ((Enemy.z e' =? 0) = true -> Enemy.active e' = true)) /\
     (Enemy.active e = false -> Enemy.active e' = false)) /\
  (forall o : Obstacle.t,
     let o' := Obstacle.update dt o in
     Obstacle.z o' = Obstacle.z o - Obstacle.speed o * dt /\
     (Obstacle.active o = true ->
      (Obstacle.active o' = false <-> (Obstacle.z o' <? 0) = true) /\
      ((Obstacle.z o' =? 0) = true -> Obstacle.active o' = true)) /\
     (Obstacle.active o = false -> Obstacle.active o' = false)).
Proof.
  split; [|split].
  - intros l l'. subst l'. unfold Laser.update. cbn [Laser.z Laser.active].
    split; [reflexivity|]. split.
    + intros ->. split.
      * destruct (150 <? _); split; congruence.
      * intros Heq. rewrite (eqb_not_gtb _ _ Heq). reflexivity.
    + intros ->. destruct (150 <? _); reflexivity.
  - intros e e'. subst e'. unfold Enemy.update. cbn [Enemy.z Enemy.active].
    split; [reflexivity|]. split.
    + intros ->. split.
      * destruct (_ <? 0); split; congruence.
      * intros Heq. rewrite (eqb_not_ltb _ _ Heq). reflexivity.
    + intros ->. destruct (_ <? 0); reflexivity.
  - intros o o'. subst o'. unfold Obstacle.update. cbn [Obstacle.z Obstacle.active].
    split; [reflexivity|]. split.
    + intros ->. split.
      * destruct (_ <? 0); split; congruence.
      * intros Heq. rewrite (eqb_not_ltb _ _ Heq). reflexivity.
    + intros ->. destruct (_ <? 0); reflexivity.
Qed.


(** A laser that reaches depth 150 exactly stays active, one that passes it
    is cleared; an enemy that reaches depth 0 exactly stays active, one that
    passes it is cleared. *)
Lemma expiry_at_threshold_witness :
  Laser.active (Laser.update 1 (Laser.init 0 0 50)) = true /\
  Laser.active (Laser.update 1.5 (Laser.init 0 0 50)) = false /\
  Enemy.active (Enemy.update 5 (Enemy.mk 0 0 150 30 true 1.5)) = true /\
  Enemy.active (Enemy.update 6 (Enemy.mk 0 0 150 30 true 1.5)) = false.
Proof.
  split; [|split; [|split]].
  - destruct (expiry_at_threshold 1) as [HL _].
    destruct (HL (Laser.init 0 0 50)) as (_ & H & _).
    destruct (H eq_refl) as [_ Heq]. exact (Heq eq_refl).
  - destruct (expiry_at_threshold 1.5) as [HL _].
    destruct (HL (Laser.init 0 0 50)) as (_ & H & _).
    destruct (H eq_refl) as [Hiff _]. apply Hiff. reflexivity.
  - destruct (expiry_at_threshold 5) as (_ & HE & _).
    destruct (HE (Enemy.mk 0 0 150 30 true 1.5)) as (_ & H & _).
    destruct (H eq_refl) as [_ Heq]. exact (Heq eq_refl).
  - destruct (expiry_at_threshold 6) as (_ & HE & _).
    destruct (HE (Enemy.mk 0 0 150 30 true 1.5)) as (_ & H & _).
    destruct (H eq_refl) as [Hiff _]. apply Hiff. reflexivity.
Defined.


(** ** C6: health has no floor *)

(** C6 (as amended).  Health has no floor at 0.  In every state the loop
    reaches it is 100 minus a multiple of 25; while the game is not over it is
    at least 25, and the game is over exactly when it is [<= 0].  Pass B
    subtracts 25 for every collision of the frame, also after health has
    reached 0. *)
Theorem health_invariant :
  (forall w : World,
     reachable w ->
     (exists j : nat, Player.hp (player w) = (100 - 25 * Z.of_nat j)%Z) /\
     (game_over w = false -> (25 <= Player.hp (player w) <= 100)%Z) /\
     (game_over w = true <-> (Player.hp (player w) <= 0)%Z)) /\
  (forall w g c w' c',
     collide_player w g c = Ok (w', c') ->
     Player.hp (player w')
     = (Player.hp (player w)
        - 25 * Z.of_nat (collisions (player w) (enemies w)
                         + collisions (player w) (obstacles w)))%Z).
Proof.
  split.
  - intros w Hw. apply reachable_sound in Hw.
    destruct Hw as (_ & (j & Hj) & Hiff & _).
    split; [exists j; exact Hj|]. split; [|exact Hiff].
    intros Hgo.
    assert (Hpos : (0 < Player.hp (player w))%Z).
    { destruct (Z.lt_ge_cases 0 (Player.hp (player w))) as [|Hle]; [assumption|].
      apply Hiff in Hle. congruence. }
    lia.
  - intros w g c w' c' H. apply collide_player_inv in H. cbv zeta in H.
    destruct H as [-> _]. reflexivity.
Qed.

(** The invariant in the state [wreck], which the loop reaches. *)
Lemma health_invariant_witness :
  (exists j : nat, Player.hp (player wreck) = (100 - 25 * Z.of_nat j)%Z) /\
  (game_over wreck = false -> (25 <= Player.hp (player wreck) <= 100)%Z) /\
  (game_over wreck = true <-> (Player.hp (player wreck) <= 0)%Z).
Proof.
  exact (proj1 health_invariant wreck
           (outcome_reachable overrun_inputs overrun_draws)).
Defined.

(** C6 as stated fails.  Run [overrun_inputs]: five enemies spawned in five
    frames of 16 ms, all at [x = 0], [y = -1.25] with speed 20, stand at
    depths 148.4 to 149.68; a sixth frame of 6.97 s moves them by 139.4 to
    depths 9.0 to 10.28, all within distance 3 of the ship at [(0, 0, 10)].
    Pass B subtracts 25 five times: health ends at -25. *)
Lemma health_below_zero :
  main_loop overrun_inputs World_init overrun_draws 0%nat = Ok (wreck, 327%nat) /\
  reachable wreck /\
  Player.hp (player wreck) = (-25)%Z /\
  ~ (0 <= Player.hp (player wreck))%Z.
Proof.
  split; [vm_compute; reflexivity|].
  split; [apply outcome_reachable|].
  split; [vm_compute; reflexivity|].
  vm_compute. intros H. apply H. reflexivity.
Qed.

(** The same at 60 frames per second: in the run [convoy_inputs] every frame
    lasts 16 ms; after 259 frames health is 100, after the 260th it is -25. *)
Example sixty_fps_run_ends_at_minus_25 :
  Player.hp (player (outcome (firstn 259 convoy_inputs) convoy_draws)) = 100%Z /\
  Player.hp (player (outcome convoy_inputs convoy_draws)) = (-25)%Z /\
  reachable (outcome convoy_inputs convoy_draws).
Proof.
  split; [vm_compute; reflexivity|].
  split; [vm_compute; reflexivity|].
  apply outcome_reachable.
Qed.


(** ** C7: a laser scores at most once in a pass *)

(** C7.  In one pass over the enemies a laser clears the flag of at most one
    enemy and adds at most 100 to the score, exactly 100 when it clears one;
    once its own flag is cleared the guard skips every remaining pair.  Over
    all lasers the pass adds 100 per laser whose flag it cleared.  The pass
    returns whenever no distance computation raises. *)
Theorem laser_scores_at_most_once :
  (forall (l : Laser.t) (es : list Enemy.t) (w : World) (g : nat -> float) (c : nat)
          l' es' w' c',
     laser_vs_enemies l es w g c = Ok ((l', es', w'), c') ->
     Forall2 enemy_step es es' /\
     ((active_enemies es' = active_enemies es /\ score w' = score w /\ l' = l) \/
      (S (active_enemies es') = active_enemies es /\
       score w' = (score w + 100)%Z /\
       Laser.active l = true /\ Laser.active l' = false))) /\
  (forall (l : Laser.t) (es : list Enemy.t) (w : World) (g : nat -> float) (c : nat),
     Laser.active l = false ->
     laser_vs_enemies l es w g c = Ok ((l, es, w), c)) /\
  (forall (ls : list Laser.t) (es : list Enemy.t) (w : World) (g : nat -> float)
          (c : nat) ls' es' w' c',
     lasers_vs_enemies ls es w g c = Ok ((ls', es', w'), c') ->
     exists k : nat,
       (active_lasers ls' + k = active_lasers ls)%nat /\
       (active_enemies es' + k = active_enemies es)%nat /\
       (k <= length ls)%nat /\
       score w' = (score w + 100 * Z.of_nat k)%Z) /\
  (forall (l : Laser.t) (es : list Enemy.t) (w : World) (g : nat -> float) (c : nat),
     hits_defined l es -> exists r, laser_vs_enemies l es w g c = Ok r).
Proof.
  split; [|split; [|split]].
  - intros l es w g c l' es' w' c' H.
    apply laser_vs_enemies_inv in H as (k & new & -> & _ & _ & Hact & HF & Hk).
    split; [exact HF|].
    unfold tally. wsimpl.
    destruct Hk as [(-> & ->) | (-> & Hl & ->)].
    + left. change (Z.of_nat 0) with 0%Z. repeat split; lia.
    + right. change (Z.of_nat 1) with 1%Z. repeat split; try assumption; lia.
  - intros l es w g c Hl. apply laser_vs_enemies_inactive. exact Hl.
  - intros ls es w g c ls' es' w' c' H.
    apply lasers_vs_enemies_inv in H as (k & new & -> & _ & _ & Hal & Hae & HFl & _).
    exists k. unfold tally. wsimpl.
    split; [lia|]. split; [lia|]. split; [|reflexivity].
    pose proof (filter_length_le Laser.active ls) as Hle.
    unfold active_lasers in Hal. lia.
  - intros l es w g c Hd. apply laser_vs_enemies_total. exact Hd.
Qed.

(** A laser within reach of two enemies clears the first and leaves the
    second. *)
Lemma laser_scores_at_most_once_witness :
  exists l' es' w' c',
    laser_vs_enemies crossfire_laser crossfire_enemies World_init no_spawn 0%nat
    = Ok ((l', es', w'), c') /\
    map Enemy.active es' = [false; true] /\
    Forall2 enemy_step crossfire_enemies es' /\
    ((active_enemies es' = active_enemies crossfire_enemies /\
      score w' = score World_init /\ l' = crossfire_laser) \/
     (S (active_enemies es') = active_enemies crossfire_enemies /\
      score w' = (score World_init + 100)%Z /\
      Laser.active crossfire_laser = true /\ Laser.active l' = false)).
Proof.
  destruct (laser_vs_enemies crossfire_laser crossfire_enemies World_init no_spawn 0%nat)
    as [[[[l' es'] w'] c']|x] eqn:E; [|vm_compute in E; discriminate E].
  exists l', es', w', c'. split; [reflexivity|].
  split.
  - vm_compute in E. apply Ok3_inj in E as (_ & <- & _). reflexivity.
  - exact (proj1 laser_scores_at_most_once _ _ _ _ _ _ _ _ _ E).
Defined.


(** ** C8: the order of the collision checks *)





(** ** C9: a frame in game-over without a restart *)

(** C9.  In the game-over state, a frame whose events hold no [KEYDOWN] of R
    performs no simulation: it returns, draws nothing from [random], and the
    player, the score, the scroll offset and the four collections are what
    they were; of the state of [main] only [running] can change (on [QUIT]). *)
Theorem game_over_frame_is_inert dt evs keys w g c :
  game_over w = true ->
  existsb is_restart_key evs = false ->
  exists w',
    frame dt evs keys w g c = Ok (w', c) /\
    w' = (if existsb is_quit evs then set_running false w else w) /\
    player w' = player w /\ score w' = score w /\
    scroll_offset w' = scroll_offset w /\
    lasers w' = lasers w /\ enemies w' = enemies w /\
    obstacles w' = obstacles w /\ particles w' = particles w /\
    game_over w' = true.
Proof.
  intros Hgo Hno. eexists.
  split; [apply frame_in_game_over; assumption|].
  destruct (existsb is_quit evs); wsimpl; auto 12.
Qed.

(** The state [wreck] in which the run [overrun_inputs] ends is game-over; a
    frame with the space bar, the left arrow and an unrelated event leaves it
    as it is. *)
Lemma game_over_frame_is_inert_witness :
  exists w',
    frame (tick_dt 16) [KEYDOWN K_SPACE; OTHER; KEYDOWN K_LEFT] no_keys wreck
          overrun_draws 327%nat
    = Ok (w', 327%nat) /\
    w' = (if existsb is_quit [KEYDOWN K_SPACE; OTHER; KEYDOWN K_LEFT]
          then set_running false wreck else wreck) /\
    player w' = player wreck /\ score w' = score wreck /\
    scroll_offset w' = scroll_offset wreck /\
    lasers w' = lasers wreck /\ enemies w' = enemies wreck /\
    obstacles w' = obstacles wreck /\ particles w' = particles wreck /\
    game_over w' = true.
Proof.
  apply (game_over_frame_is_inert (tick_dt 16)
           [KEYDOWN K_SPACE; OTHER; KEYDOWN K_LEFT] no_keys wreck overrun_draws 327).
  - vm_compute. reflexivity.
  - reflexivity.
Defined.


(** ** C10: the score *)

(** C10.  In every state the loop reaches the score is a non-negative
    multiple of 100.  A frame whose events do not restart the game never
    lowers it: it leaves it alone in game-over, and otherwise adds 100 for
    each laser whose flag a laser-enemy collision cleared in that frame.  A
    frame whose events restart the game resets it to 0 before it counts that
    frame's collisions.  Each pair of the collision pass adds 100 or
    nothing. *)
Theorem score_counts_hits :
  (forall w : World, reachable w -> exists k : nat, score w = (100 * Z.of_nat k)%Z) /\
  (forall dt evs keys w g c w' c',
     frame dt evs keys w g c = Ok (w', c') ->
     if restarts evs w then
       score w' = (100 * Z.of_nat (idle_lasers (lasers w')))%Z
     else
       (score w <= score w')%Z /\
       if game_over w then score w' = score w
       else score w' = (score w + 100 * Z.of_nat (idle_lasers (lasers w')))%Z) /\
  (forall l e w g c l' e' w' c',
     laser_vs_enemy l e w g c = Ok ((l', e', w'), c') ->
     (score w' = score w /\ l' = l /\ e' = e) \/
     (score w' = (score w + 100)%Z /\
      Laser.active l = true /\ Enemy.active e = true /\
      Laser.active l' = false /\ Enemy.active e' = false)).
Proof.
  split; [|split].
  - intros w Hw. apply reachable_sound in Hw. apply Hw.
  - intros dt evs keys w g c w' c' H.
    apply frame_inv in H. cbv zeta in H.
    destruct (restarts evs w).
    + destruct H as (kB & Hs & _). exact Hs.
    + destruct (game_over w).
      * destruct H as (Hs & _). split; [lia | exact Hs].
      * destruct H as (kB & Hs & _). split; [lia | exact Hs].
  - intros l e w g c l' e' w' c' H.
    apply laser_vs_enemy_inv in H
      as [(-> & -> & -> & _) | (Hl & He & _ & -> & -> & _ & ->)].
    + left. auto.
    + right. unfold tally. wsimpl. change (Z.of_nat 1) with 1%Z.
      repeat split; assumption.
Qed.

(** After the run [skirmish_inputs] one laser has hit the enemy: the score
    the loop has reached is 100. *)
Lemma score_counts_hits_witness :
  (exists k : nat, score (outcome skirmish_inputs skirmish_draws) = (100 * Z.of_nat k)%Z) /\
  score (outcome skirmish_inputs skirmish_draws) = 100%Z.
Proof.
  split.
  - exact (proj1 score_counts_hits _ (outcome_reachable skirmish_inputs skirmish_draws)).
  - vm_compute. reflexivity.
Defined.
(** * Further properties of the code *)

(** ** Events: shooting, restarting, quitting *)

Lemma handle_events_cons ev evs w :
  handle_events (ev :: evs) w = handle_events evs (handle_event w ev).
Proof. reflexivity. Qed.

Lemma handle_events_app evs1 evs2 w :
  handle_events (evs1 ++ evs2) w = handle_events evs2 (handle_events evs1 w).
Proof. unfold handle_events. apply fold_left_app. Qed.

Lemma quit_after_cons ev evs w :
  quit_after (ev :: evs) w
  = if is_quit ev then set_running false (quit_after evs w) else quit_after evs w.
Proof.
  unfold quit_after. cbn [existsb].
  destruct (is_quit ev), (existsb is_quit evs); reflexivity.
Qed.

(** While the cooldown is positive the space bar does nothing. *)
Lemma handle_events_cooling evs : forall w,
  game_over w = false -> (Player.cooldown (player w) <=? 0) = false ->
  handle_events evs w = quit_after evs w.
Proof.
  induction evs as [|ev evs IH]; intros w Hgo Hcd; [reflexivity|].
  rewrite handle_events_cons, quit_after_cons.
  destruct ev as [|k|].
  - cbn [handle_event is_quit]. rewrite IH by assumption.
    unfold quit_after. destruct (existsb is_quit evs); reflexivity.
  - assert (Hw : handle_event w (KEYDOWN k) = w).
    { unfold handle_event. rewrite Hgo, Hcd. cbn [negb].
      destruct (is_space k); cbn [andb]; rewrite Hgo, andb_false_r; reflexivity. }
    rewrite Hw. cbn [is_quit]. apply IH; assumption.
  - cbn [handle_event is_quit]. apply IH; assumption.
Qed.

Lemma handle_events_armed evs : forall w,
  game_over w = false -> (Player.cooldown (player w) <=? 0) = true ->
  handle_events evs w = quit_after evs (if existsb is_fire_key evs then fire w else w).
Proof.
  induction evs as [|ev evs IH]; intros w Hgo Hcd; [reflexivity|].
  rewrite handle_events_cons, quit_after_cons. cbn [existsb].
  destruct ev as [|k|].
  - cbn [handle_event is_quit is_fire_key orb]. rewrite IH by assumption.
    unfold quit_after.
    destruct (existsb is_quit evs), (existsb is_fire_key evs); reflexivity.
  - cbn [is_quit].
    destruct k;
      try (match goal with
           | |- context [handle_event w (KEYDOWN ?k)] =>
               assert (Hw : handle_event w (KEYDOWN k) = w)
                 by (unfold handle_event; cbn [is_space is_r andb]; try rewrite Hgo;
                     reflexivity)
           end;
           rewrite Hw; cbn [is_fire_key orb]; apply IH; assumption).
    (* K_SPACE *)
    assert (Hw : handle_event w (KEYDOWN K_SPACE) = fire w).
    { unfold handle_event. cbn [is_space is_r andb]. rewrite Hgo, Hcd. reflexivity. }
    rewrite Hw. cbn [is_fire_key orb]. apply handle_events_cooling.
    + exact Hgo.
    + reflexivity.
  - cbn [handle_event is_quit is_fire_key orb]. apply IH; assumption.
Qed.

Lemma handle_events_playing evs w :
  game_over w = false ->
  handle_events evs w
  = quit_after evs
      (if (Player.cooldown (player w) <=? 0) && existsb is_fire_key evs
       then fire w else w).
Proof.
  intros Hgo. destruct (Player.cooldown (player w) <=? 0) eqn:Hcd; cbn [andb].
  - apply handle_events_armed; assumption.
  - apply handle_events_cooling; assumption.
Qed.

(** The events up to the first [KEYDOWN] of R and those after it. *)
Lemma split_at_restart evs :
  existsb is_restart_key evs = true ->
  exists pre post,
    evs = pre ++ KEYDOWN K_r :: post /\ existsb is_restart_key pre = false.
Proof.
  induction evs as [|ev evs IH]; [discriminate|].
  cbn [existsb]. destruct (is_restart_key ev) eqn:Hev.
  - intros _. exists [], evs. split; [|reflexivity].
    destruct ev as [|k|]; try discriminate Hev. destruct k; try discriminate Hev.
    reflexivity.
  - cbn [orb]. intros H. destruct (IH H) as (pre & post & -> & Hpre).
    exists (ev :: pre), post. split; [reflexivity|].
    cbn [existsb]. rewrite Hev, Hpre. reflexivity.
Qed.

Lemma handle_events_restarting evs w :
  game_over w = true -> existsb is_restart_key evs = true ->
  exists pre post,
    evs = pre ++ KEYDOWN K_r :: post /\
    existsb is_restart_key pre = false /\
    handle_events evs w
    = quit_after post
        (if existsb is_fire_key post
         then fire (restart (quit_after pre w)) else restart (quit_after pre w)).
Proof.
  intros Hgo Hr. destruct (split_at_restart evs Hr) as (pre & post & -> & Hpre).
  exists pre, post. split; [reflexivity|]. split; [exact Hpre|].
  rewrite handle_events_app, handle_events_cons.
  rewrite (handle_events_game_over pre w Hgo Hpre). fold (quit_after pre w).
  assert (Hgo' : game_over (quit_after pre w) = true).
  { unfold quit_after. destruct (existsb is_quit pre); exact Hgo. }
  assert (Hw : handle_event (quit_after pre w) (KEYDOWN K_r)
               = restart (quit_after pre w)).
  { unfold handle_event. cbn [is_space is_r andb]. rewrite Hgo'. reflexivity. }
  rewrite Hw. apply handle_events_armed; reflexivity.
Qed.

Lemma running_handle_events evs : forall w,
  running (handle_events evs w) = running w && negb (existsb is_quit evs).
Proof.
  induction evs as [|ev evs IH]; intros w.
  - cbn. rewrite andb_true_r. reflexivity.
  - rewrite handle_events_cons, IH. cbn [existsb].
    destruct ev as [|k|]; cbn [is_quit orb negb].
    + cbn. rewrite andb_false_r. reflexivity.
    + f_equal. unfold handle_event.
      destruct (is_space k && negb (game_over w)); 
        [destruct (Player.cooldown (player w) <=? 0)|];
        match goal with |- context [if ?b then _ else _] => destruct b end;
        reflexivity.
    + reflexivity.
Qed.

(** ** The steps of a frame, one by one *)

Lemma generate_spawns w g c w' c' :
  generate w g c = Ok (w', c') ->
  exists (es : list Enemy.t) (os : list Obstacle.t),
    enemies w' = enemies w ++ es /\ obstacles w' = obstacles w ++ os /\
    (length es <= 1)%nat /\ (length os <= 1)%nat /\
    Forall (fun e => Enemy.z e = 150 /\ Enemy.active e = true /\
                     Enemy.radius e = 1.5) es /\
    Forall (fun o => Obstacle.y o = -8 /\ Obstacle.z o = 150 /\
                     Obstacle.speed o = 30 /\ Obstacle.active o = true /\
                     Obstacle.radius o = 2) os /\
    c' = (2 + 3 * length es + length os + c)%nat.
Proof.
  unfold generate, bind, random, ret, Enemy.init, Obstacle.init, uniform, bind, random, ret.
  destruct (g c <? 0.02); destruct (g _ <? 0.03);
    intros H; apply Ok1_inj in H as [<- <-]; wsimpl.
  - eexists [_], [_]. repeat split; auto; repeat constructor.
  - eexists [_], []. rewrite app_nil_r. repeat split; auto; repeat constructor.
  - eexists [], [_]. rewrite app_nil_r. repeat split; auto; repeat constructor.
  - exists [], []. rewrite !app_nil_r. repeat split; auto.
Qed.

Lemma Forall_survivors {A : Type} (P : A -> Prop) (alive : A -> bool) (upd : A -> A)
      (l : list A) :
  (forall a, P a -> alive (upd a) = true -> P (upd a)) ->
  Forall P l -> Forall P (filter alive (map upd l)).
Proof.
  intros Hupd Hl. induction Hl as [|a l Ha _ IH]; [constructor|].
  cbn [map filter]. destruct (alive (upd a)) eqn:E; [constructor|]; auto.
Qed.

Lemma Forall_laser_step (P : Laser.t -> Prop) ls ls' :
  (forall l, P l -> P (Laser.set_active false l)) ->
  Forall2 laser_step ls ls' -> Forall P ls -> Forall P ls'.
Proof.
  intros Hz H. induction H as [|l l' ls ls' Hl _ IH]; intros HP; [constructor|].
  inversion HP; subst. constructor; [|auto].
  destruct Hl as [-> | [_ ->]]; auto.
Qed.

Lemma Forall_enemy_step (P : Enemy.t -> Prop) es es' :
  (forall e, P e -> P (Enemy.set_active false e)) ->
  Forall2 enemy_step es es' -> Forall P es -> Forall P es'.
Proof.
  intros Hz H. induction H as [|e e' es es' He _ IH]; intros HP; [constructor|].
  inversion HP; subst. constructor; [|auto].
  destruct He as [-> | [_ ->]]; auto.
Qed.

Lemma Forall_after_player {A : Type} `{Entity A} (P : A -> Prop) p (ents : list A) :
  (forall a, P a -> P (ent_deactivate a)) ->
  Forall P ents -> Forall P (map (after_player p) ents).
Proof.
  intros Hz HP. induction HP as [|a l Ha _ IH]; [constructor|].
  cbn [map]. constructor; [|exact IH].
  unfold after_player. destruct (struck p a); auto.
Qed.

(** The particles that pass A appends are those of [Particle(e.x, e.y, e.z,
    color)] for enemies [e] of the list, in red and yellow. *)
Lemma burst_debris n : forall x y z col g c,
  col = RED \/ col = YELLOW \/ col = CYAN ->
  Forall debris (burst n x y z col g c).
Proof.
  intros x y z col g c Hcol.
  eapply Forall_impl; [|apply burst_at].
  intros p (_ & _ & _ & Hl & Hc). split; [exact Hl|]. rewrite Hc. exact Hcol.
Qed.

Lemma laser_vs_enemies_debris es : forall l w g c l' es' w' c',
  laser_vs_enemies l es w g c = Ok ((l', es', w'), c') ->
  exists new, particles w' = particles w ++ new /\ Forall debris new.
Proof.
  induction es as [|e es IH]; intros l w g c l' es' w' c' H.
  - apply Ok3_inj in H as (_ & _ & <- & _). exists []. rewrite app_nil_r. auto.
  - cbn [laser_vs_enemies] in H.
    apply bind_Ok in H as ([[l1 e1] w1] & c1 & H1 & H).
    apply bind_Ok in H as ([[l2 es2] w2] & c2 & H2 & H).
    apply Ok3_inj in H as (_ & _ & <- & _).
    apply IH in H2 as (new2 & Hp2 & Hd2).
    apply laser_vs_enemy_inv in H1
      as [(_ & _ & -> & _) | (_ & _ & _ & _ & _ & _ & ->)].
    + exists new2. auto.
    + eexists. rewrite Hp2. unfold tally. wsimpl. rewrite <- app_assoc.
      split; [reflexivity|].
      repeat (apply Forall_app; split); auto; apply burst_debris; auto.
Qed.

Lemma lasers_vs_enemies_debris ls : forall es w g c ls' es' w' c',
  lasers_vs_enemies ls es w g c = Ok ((ls', es', w'), c') ->
  exists new, particles w' = particles w ++ new /\ Forall debris new.
Proof.
  induction ls as [|l ls IH]; intros es w g c ls' es' w' c' H.
  - apply Ok3_inj in H as (_ & _ & <- & _). exists []. rewrite app_nil_r. auto.
  - cbn [lasers_vs_enemies] in H.
    apply bind_Ok in H as ([[l1 es1] w1] & c1 & H1 & H).
    apply bind_Ok in H as ([[ls2 es2] w2] & c2 & H2 & H).
    apply Ok3_inj in H as (_ & _ & <- & _).
    apply laser_vs_enemies_debris in H1 as (new1 & Hp1 & Hd1).
    apply IH in H2 as (new2 & Hp2 & Hd2).
    exists (new1 ++ new2). rewrite Hp2, Hp1, app_assoc.
    split; [reflexivity | apply Forall_app; auto].
Qed.

(** The result of the two passes, with the particles of pass A described. *)
Lemma collide_anatomy w g c r c' :
  collide w g c = Ok (r, c') ->
  exists (kA : nat) (new : list Particle.t) (ls' : list Laser.t) (es' : list Enemy.t),
    Forall2 laser_step (lasers w) ls' /\
    Forall2 enemy_step (enemies w) es' /\
    active_lasers (lasers w) = (active_lasers ls' + kA)%nat /\
    active_enemies (enemies w) = (active_enemies es' + kA)%nat /\
    length new = (25 * kA)%nat /\ Forall debris new /\
    let p := player w in
    let kB := (collisions p es' + collisions p (obstacles w))%nat in
    r = set_obstacles (map (after_player p) (obstacles w))
          (set_enemies (map (after_player p) es')
             (wounded kB g (75 * kA + c)
                (set_enemies es' (set_lasers ls' (tally kA new w))))) /\
    c' = (60 * kB + (75 * kA + c))%nat.
Proof.
  unfold collide, collide_lasers. intros H.
  apply bind_Ok in H as (w1 & c1 & HA & HB).
  apply bind_Ok in HA as ([[ls' es'] wa] & ca & HA & Hret).
  apply Ok1_inj in Hret as [<- <-].
  pose proof (lasers_vs_enemies_debris _ _ _ _ _ _ _ _ _ HA) as (new' & Hp & Hd).
  apply lasers_vs_enemies_inv in HA
    as (k & new & -> & Hn & -> & Hal & Hae & HFl & HFe).
  assert (new' = new) as ->.
  { unfold tally in Hp. wsimpl_all. apply app_inv_head in Hp. congruence. }
  apply collide_player_inv in HB. cbv zeta in HB. destruct HB as [-> ->].
  exists k, new, ls', es'. repeat (split; [assumption|]).
  cbv zeta. wsimpl. unfold tally at 1 2 3 4. wsimpl. split; reflexivity.
Qed.

(** ** Invariants of the loop, in general *)

Section Invariants.

Variable P : World -> Prop.
Hypothesis P_init : P World_init.
Hypothesis P_event : forall w ev, P w -> P (handle_event w ev).
Hypothesis P_update : forall dt keys w g c w' c',
  game_over w = false -> P w -> update_world dt keys w g c = Ok (w', c') -> P w'.

Lemma invariant_handle_events evs : forall w, P w -> P (handle_events evs w).
Proof.
  induction evs as [|ev evs IH]; intros w Hw; [exact Hw|].
  rewrite handle_events_cons. apply IH, P_event, Hw.
Qed.

Lemma invariant_frame dt evs keys w g c w' c' :
  P w -> frame dt evs keys w g c = Ok (w', c') -> P w'.
Proof.
  intros Hw H. pose proof (invariant_handle_events evs w Hw) as H1.
  apply frame_cases in H as [(_ & -> & _) | (Hgo & H)].
  - exact H1.
  - eapply P_update; eassumption.
Qed.

Lemma invariant_main_loop inputs : forall w g c w' c',
  P w -> main_loop inputs w g c = Ok (w', c') -> P w'.
Proof.
  induction inputs as [|i inputs IH]; intros w g c w' c' Hw H.
  - apply Ok1_inj in H as [<- _]. exact Hw.
  - cbn [main_loop] in H. destruct (running w).
    + apply bind_Ok in H as (w1 & c1 & H1 & H).
      eapply IH; [|exact H]. eapply invariant_frame; eassumption.
    + apply Ok1_inj in H as [<- _]. exact Hw.
Qed.

Lemma invariant_reachable w : reachable w -> P w.
Proof.
  intros (inputs & g & c & c' & H).
  eapply invariant_main_loop; [apply P_init | exact H].
Qed.

End Invariants.

(** ** The shape of the objects *)

Lemma tidy_init : tidy World_init.
Proof. repeat split; constructor. Qed.

Lemma tidy_handle_event w ev : tidy w -> tidy (handle_event w ev).
Proof.
  intros Hw.
  assert (Hrestart : tidy (restart w)) by (repeat split; constructor).
  assert (Hquit : tidy (set_running false w)) by exact Hw.
  assert (Hfire : tidy (fire w)).
  { destruct Hw as ((Hz & Hs) & Hl & He & Ho & Hp).
    unfold fire, tidy. wsimpl. repeat split; try assumption.
    apply Forall_app. split; [exact Hl|].
    cbn [app]. repeat constructor; cbn [Laser.z Laser.init]; rewrite Hz; reflexivity. }
  unfold handle_event. destruct ev as [|k|]; try assumption.
  destruct k; cbn [is_space is_r andb]; try assumption.
  - destruct (game_over w); cbn [negb]; [exact Hw|].
    destruct (Player.cooldown (player w) <=? 0); assumption.
  - destruct (game_over w); assumption.
Qed.

Lemma laser_shape_update dt l :
  laser_shape l -> Laser.active (Laser.update dt l) = true ->
  laser_shape (Laser.update dt l).
Proof.
  intros [Hs _]. unfold laser_shape, Laser.update. cbn.
  destruct (150 <? Laser.z l + Laser.speed l * dt); [discriminate|]. auto.
Qed.

Lemma enemy_shape_update dt e :
  enemy_shape e -> Enemy.active (Enemy.update dt e) = true ->
  enemy_shape (Enemy.update dt e).
Proof.
  intros [Hr _]. unfold enemy_shape, Enemy.update. cbn.
  destruct (Enemy.z e - Enemy.speed e * dt <? 0); [discriminate|]. auto.
Qed.

Lemma obstacle_shape_update dt o :
  obstacle_shape o -> Obstacle.active (Obstacle.update dt o) = true ->
  obstacle_shape (Obstacle.update dt o).
Proof.
  intros (Hy & Hs & Hr & _). unfold obstacle_shape, Obstacle.update. cbn.
  destruct (Obstacle.z o - Obstacle.speed o * dt <? 0); [discriminate|]. auto.
Qed.

Lemma particle_shape_update dt p :
  particle_shape p -> (0 <? Particle.life (Particle.update dt p)) = true ->
  particle_shape (Particle.update dt p).
Proof. intros [_ Hc] Hl. split; [exact Hl | exact Hc]. Qed.

Lemma debris_shape p : debris p -> particle_shape p.
Proof. intros [Hl Hc]. split; [rewrite Hl; reflexivity | exact Hc]. Qed.

Lemma tidy_update_world dt keys w g c w' c' :
  tidy w -> update_world dt keys w g c = Ok (w', c') -> tidy w'.
Proof.
  intros ((Hz & Hs) & Hl & He & Ho & Hp) H.
  unfold update_world in H.
  apply bind_Ok in H as (w1 & c1 & Hgen & H).
  pose proof (generate_inv _ _ _ _ _ Hgen) as (Hp1 & Hls1 & Hps1 & _).
  apply generate_spawns in Hgen as (es & os & Hes & Hos & _ & _ & HFe & HFo & _).
  apply collide_anatomy in H
    as (kA & new & ls' & es' & HFl' & HFe' & _ & _ & _ & Hnew & H).
  cbv zeta in H. destruct H as [-> _].
  revert HFl' HFe'.
  unfold remove_inactive, update_entities, scroll_grid, wounded, tally in *.
  wsimpl_all. rewrite Hp1, Hls1, Hps1, Hes, Hos. clear Hp1 Hls1 Hps1 Hes Hos.
  intros HFl' HFe'.
  unfold tidy. wsimpl.
  split; [split; assumption|].
  split.
  { eapply Forall_laser_step; [|exact HFl'|].
    - intros l Hl0. exact Hl0.
    - apply Forall_survivors; [apply laser_shape_update | exact Hl]. }
  split.
  { apply Forall_after_player; [intros e H0; exact H0|].
    eapply Forall_enemy_step; [|exact HFe'|].
    - intros e H0. exact H0.
    - apply Forall_survivors; [apply enemy_shape_update|].
      apply Forall_app. split; [exact He|].
      eapply Forall_impl; [|exact HFe].
      intros e (Hz0 & _ & Hr0). split; [exact Hr0 | rewrite Hz0; reflexivity]. }
  split.
  { apply Forall_after_player; [intros o H0; exact H0|].
    apply Forall_survivors; [apply obstacle_shape_update|].
    apply Forall_app. split; [exact Ho|].
    eapply Forall_impl; [|exact HFo].
    intros o (Hy0 & Hz0 & Hs0 & _ & Hr0).
    repeat split; try assumption. rewrite Hz0. reflexivity. }
  repeat (apply Forall_app; split).
  - apply (Forall_survivors particle_shape (fun p => 0 <? Particle.life p));
      [apply particle_shape_update | exact Hp].
  - eapply Forall_impl; [|exact Hnew]. apply debris_shape.
  - eapply Forall_impl; [|apply burst_debris; auto]. apply debris_shape.
Qed.

Lemma reachable_tidy w : reachable w -> tidy w.
Proof.
  apply invariant_reachable.
  - apply tidy_init.
  - apply tidy_handle_event.
  - intros dt keys w0 g c w' c' _. apply tidy_update_world.
Qed.

(** ** The ledger of a frame *)

Lemma Forall2_length' {A B : Type} (R : A -> B -> Prop) l l' :
  Forall2 R l l' -> length l = length l'.
Proof. induction 1; cbn; congruence. Qed.

Lemma filter_length_le' {A : Type} (f : A -> bool) (l : list A) :
  (length (filter f l) <= length l)%nat.
Proof.
  induction l as [|a l IH]; [constructor|].
  cbn [filter]. destruct (f a); cbn [length]; lia.
Qed.

Lemma update_world_ledger dt keys w g c w' c' :
  update_world dt keys w g c = Ok (w', c') ->
  exists kA kE kO ne no : nat,
    idle_lasers (lasers w') = kA /\
    idle (enemies w') = (kA + kE)%nat /\
    idle (obstacles w') = kO /\
    (ne <= 1)%nat /\ (no <= 1)%nat /\
    (length (lasers w') <= length (lasers w))%nat /\
    (length (enemies w') <= length (enemies w) + ne)%nat /\
    (length (obstacles w') <= length (obstacles w) + no)%nat /\
    length (particles w')
    = (length (filter (fun p => (0 <? Particle.life p)%float)
                      (map (Particle.update dt) (particles w)))
       + 25 * kA + 20 * (kE + kO))%nat /\
    score w' = (score w + 100 * Z.of_nat kA)%Z /\
    Player.hp (player w') = (Player.hp (player w) - 25 * Z.of_nat (kE + kO))%Z /\
    c' = (2 + 3 * ne + no + 75 * kA + 60 * (kE + kO) + c)%nat.
Proof.
  intros H. unfold update_world in H.
  apply bind_Ok in H as (w1 & c1 & Hgen & H).
  pose proof (generate_inv _ _ _ _ _ Hgen) as (Hp1 & Hls1 & Hps1 & Hs1 & _).
  apply generate_spawns in Hgen as (es & os & Hes & Hos & Hne & Hno & _ & _ & ->).
  apply collide_anatomy in H
    as (kA & new & ls' & es' & HFl' & HFe' & Hal & Hae & Hnew & _ & H).
  cbv zeta in H. destruct H as [-> ->].
  revert HFl' HFe' Hal Hae.
  unfold remove_inactive, update_entities, scroll_grid, wounded, tally in *.
  wsimpl_all. rewrite Hp1, Hls1, Hps1, Hs1, Hes, Hos. clear Hp1 Hls1 Hps1 Hs1 Hes Hos.
  intros HFl' HFe' Hal Hae.
  set (p := Player.update dt keys (player w)).
  exists kA, (collisions p es'),
    (collisions p (filter Obstacle.active (map (Obstacle.update dt) (obstacles w ++ os)))),
    (length es), (length os).
  wsimpl.
  split; [eapply idle_lasers_after; eassumption|].
  split.
  { rewrite idle_after_player by reflexivity.
    rewrite (idle_enemies_after _ _ _ HFe' Hae). reflexivity. }
  split.
  { rewrite idle_after_player by reflexivity.
    rewrite idle_filter_active_obstacles. reflexivity. }
  split; [exact Hne|]. split; [exact Hno|].
  split.
  { rewrite <- (Forall2_length' _ _ _ HFl').
    etransitivity; [apply filter_length_le'|]. rewrite length_map. constructor. }
  split.
  { rewrite length_map, <- (Forall2_length' _ _ _ HFe').
    etransitivity; [apply filter_length_le'|]. rewrite length_map, length_app.
    constructor. }
  split.
  { rewrite length_map.
    etransitivity; [apply filter_length_le'|]. rewrite length_map, length_app.
    constructor. }
  split.
  { rewrite !length_app, burst_length, Hnew. lia. }
  split; [reflexivity|].
  split; [reflexivity|].
  lia.
Qed.

(** ** Pass A as a matching *)

Lemma laser_vs_enemies_first_fit es : forall l w g c l' es' w' c',
  laser_vs_enemies l es w g c = Ok ((l', es', w'), c') ->
  first_fit l es = (l', es').
Proof.
  induction es as [|e es IH]; intros l w g c l' es' w' c' H.
  - apply Ok3_inj in H as (<- & <- & _). reflexivity.
  - cbn [laser_vs_enemies] in H.
    apply bind_Ok in H as ([[l1 e1] w1] & c1 & H1 & H).
    apply bind_Ok in H as ([[l2 es2] w2] & c2 & H2 & H).
    apply Ok3_inj in H as (<- & <- & _).
    apply laser_vs_enemy_inv in H1
      as [(-> & -> & _ & _ & Hno) | (Hl & He & Hh & -> & -> & _ & _)];
      cbn [first_fit].
    + assert (Hhit : hit l e = false).
      { unfold hit. destruct Hno as [-> | [-> | ->]];
          [apply andb_false_intro1, andb_false_r | reflexivity | apply andb_false_r]. }
      rewrite Hhit, (IH _ _ _ _ _ _ _ _ H2). reflexivity.
    + assert (Hhit : hit l e = true) by (unfold hit; rewrite Hl, He, Hh; reflexivity).
      rewrite Hhit.
      rewrite laser_vs_enemies_inactive in H2 by reflexivity.
      apply Ok3_inj in H2 as (<- & <- & _). reflexivity.
Qed.

Lemma lasers_vs_enemies_matching ls : forall es w g c ls' es' w' c',
  lasers_vs_enemies ls es w g c = Ok ((ls', es', w'), c') ->
  matching ls es = (ls', es').
Proof.
  induction ls as [|l ls IH]; intros es w g c ls' es' w' c' H.
  - apply Ok3_inj in H as (<- & <- & _). reflexivity.
  - cbn [lasers_vs_enemies] in H.
    apply bind_Ok in H as ([[l1 es1] w1] & c1 & H1 & H).
    apply bind_Ok in H as ([[ls2 es2] w2] & c2 & H2 & H).
    apply Ok3_inj in H as (<- & <- & _).
    cbn [matching].
    rewrite (laser_vs_enemies_first_fit _ _ _ _ _ _ _ _ _ H1).
    rewrite (IH _ _ _ _ _ _ _ _ H2). reflexivity.
Qed.

Lemma first_fit_cases l es :
  (existsb (hit l) es = false /\ first_fit l es = (l, es)) \/
  (exists pre e post,
     es = pre ++ e :: post /\
     Forall (fun x => hit l x = false) pre /\ hit l e = true /\
     first_fit l es
     = (Laser.set_active false l, pre ++ Enemy.set_active false e :: post)).
Proof.
  induction es as [|e es IH].
  - left. split; reflexivity.
  - cbn [existsb first_fit]. destruct (hit l e) eqn:Hh.
    + right. exists [], e, es. repeat split; [constructor | exact Hh].
    + destruct IH as [(Hno & ->) | (pre & e0 & post & -> & Hpre & He0 & ->)].
      * left. split; [exact Hno | reflexivity].
      * right. exists (e :: pre), e0, post.
        repeat split; [constructor; assumption | exact He0].
Qed.

(** ** The renderer *)

Lemma project_absent x y z p :
  project x y z = Ok p -> (p = None <-> (z <? 0.1) = true).
Proof.
  unfold project. destruct (z <? 0.1).
  - intros H. injection H as <-. tauto.
  - destruct (py_int _); [|discriminate]. destruct (py_int _); [|discriminate].
    cbn [rbind]. intros H. injection H as <-. split; discriminate.
Qed.

Lemma getitem_Done {A : Type} (l : list A) (i : Z) (a : A) :
  getitem l i = Done a ->
  let n := Z.of_nat (length l) in
  (- n <= i < n)%Z /\
  nth_error l (Z.to_nat (if (i <? 0)%Z then i + n else i)) = Some a.
Proof.
  unfold getitem. cbv zeta.
  set (n := Z.of_nat (length l)). set (j := if (i <? 0)%Z then (i + n)%Z else i).
  destruct (Z.ltb_spec j 0) as [Hj|Hj]; [discriminate|].
  destruct (nth_error l (Z.to_nat j)) as [b|] eqn:E; [|discriminate].
  intros H. injection H as <-. split; [|reflexivity].
  assert (Hn : (Z.to_nat j < length l)%nat) by (apply nth_error_Some; congruence).
  subst j n. destruct (Z.ltb_spec i 0); lia.
Qed.

Lemma getitem_in_range {A : Type} (l : list A) (i : Z) :
  (- Z.of_nat (length l) <= i < Z.of_nat (length l))%Z ->
  exists a, getitem l i = Done a.
Proof.
  intros Hi. unfold getitem.
  set (n := Z.of_nat (length l)) in *.
  set (j := if (i <? 0)%Z then (i + n)%Z else i).
  assert (Hj : (0 <= j < n)%Z) by (subst j; destruct (Z.ltb_spec i 0); lia).
  destruct (Z.ltb_spec j 0) as [?|_]; [lia|].
  destruct (nth_error l (Z.to_nat j)) as [a|] eqn:E; [eauto|].
  apply nth_error_None in E. lia.
Qed.

Lemma Forall2_nth_error {A B : Type} (R : A -> B -> Prop) l l' :
  Forall2 R l l' ->
  forall k a, nth_error l k = Some a -> exists b, nth_error l' k = Some b /\ R a b.
Proof.
  induction 1 as [|x y l l' Hxy _ IH]; intros k a Hk.
  - destruct k; discriminate.
  - destruct k as [|k]; cbn in *.
    + injection Hk as <-. eauto.
    + eauto.
Qed.

Lemma getitem_Forall2 {A B : Type} (R : A -> B -> Prop) l l' i a :
  Forall2 R l l' -> getitem l i = Done a ->
  exists b, getitem l' i = Done b /\ R a b.
Proof.
  intros HF Ha. pose proof (Forall2_length' _ _ _ HF) as Hlen.
  apply getitem_Done in Ha. cbv zeta in Ha. destruct Ha as [Hi Hn].
  destruct (Forall2_nth_error _ _ _ HF _ _ Hn) as (b & Hb & Hab).
  exists b. split; [|exact Hab].
  unfold getitem. rewrite <- Hlen.
  set (n := Z.of_nat (length l)) in *.
  set (j := if (i <? 0)%Z then (i + n)%Z else i) in *.
  destruct (Z.ltb_spec j 0) as [Hj|_].
  - subst j. destruct (Z.ltb_spec i 0); lia.
  - rewrite Hb. reflexivity.
Qed.

Section Wireframe.

Variables cos sin : float -> result float.

Lemma place_absent cx cy cz scale angle v p :
  place cos sin cx cy cz scale angle v = Ok p ->
  (p = None <-> in_view cz scale v = false).
Proof.
  destruct v as [[v0 v1] v2]. unfold place, in_view, depth. cbn [snd].
  destruct (cos angle); [|discriminate]. destruct (sin angle); [|discriminate].
  cbn [rbind]. intros H. apply project_absent in H. rewrite H.
  destruct (cz + v2 * scale <? 0.1); cbn; split; congruence.
Qed.

Lemma project_all_Forall2 cx cy cz scale angle verts : forall projected,
  project_all cos sin cx cy cz scale angle verts = Ok projected ->
  Forall2 (fun v p => place cos sin cx cy cz scale angle v = Ok p) verts projected.
Proof.
  induction verts as [|v verts IH]; intros projected H; cbn [project_all] in H.
  - injection H as <-. constructor.
  - destruct (place cos sin cx cy cz scale angle v) as [p|] eqn:Hp; [|discriminate].
    destruct (project_all cos sin cx cy cz scale angle verts) as [ps|]; [|discriminate].
    cbn [rbind] in H. injection H as <-. constructor; auto.
Qed.

Lemma draw_edge_eq color projected e s :
  draw_edge color projected e s
  = match getitem projected (fst e), getitem projected (snd e) with
    | Done _, Done _ => Done (s ++ edge_line color projected e)
    | Failed x, _ => Failed x
    | Done _, Failed x => Failed x
    end.
Proof.
  unfold draw_edge, edge_line, dbind.
  destruct (getitem projected (fst e)) as [[a|]|x];
    destruct (getitem projected (snd e)) as [[b|]|y]; try reflexivity;
    rewrite app_nil_r; reflexivity.
Qed.

Lemma draw_edges_Done color projected edges : forall s s',
  draw_edges color projected edges s = Done s' ->
  s' = s ++ flat_map (edge_line color projected) edges /\
  forallb (edge_in_range (length projected)) edges = true.
Proof.
  induction edges as [|e edges IH]; intros s s' H; cbn [draw_edges] in H.
  - injection H as <-. rewrite app_nil_r. auto.
  - rewrite draw_edge_eq in H.
    destruct (getitem projected (fst e)) as [a|x] eqn:Ha; [|discriminate].
    destruct (getitem projected (snd e)) as [b|y] eqn:Hb; [|discriminate].
    cbn [dbind] in H. apply IH in H as [-> Hr].
    cbn [flat_map forallb]. rewrite <- app_assoc. split; [reflexivity|].
    rewrite Hr, andb_true_r.
    apply getitem_Done in Ha, Hb. cbv zeta in Ha, Hb.
    unfold edge_in_range.
    repeat (apply andb_true_intro; split);
      try apply Z.leb_le; try apply Z.ltb_lt; lia.
Qed.

Lemma draw_edges_in_range color projected edges : forall s,
  forallb (edge_in_range (length projected)) edges = true ->
  draw_edges color projected edges s
  = Done (s ++ flat_map (edge_line color projected) edges).
Proof.
  induction edges as [|e edges IH]; intros s Hr; cbn [draw_edges flat_map].
  - rewrite app_nil_r. reflexivity.
  - cbn [forallb] in Hr. apply andb_true_iff in Hr as [He Hr].
    unfold edge_in_range in He.
    apply andb_true_iff in He as [He H4]. apply andb_true_iff in He as [He H3].
    apply andb_true_iff in He as [H1 H2].
    apply Z.leb_le in H1, H3. apply Z.ltb_lt in H2, H4.
    destruct (getitem_in_range projected (fst e)) as (a & Ha); [lia|].
    destruct (getitem_in_range projected (snd e)) as (b & Hb); [lia|].
    rewrite draw_edge_eq, Ha, Hb. cbn [dbind]. rewrite IH by exact Hr.
    rewrite <- app_assoc. reflexivity.
Qed.

(** An edge gives one line when both its ends are in view, and none
    otherwise. *)
Lemma edge_line_in_view color cx cy cz scale angle verts projected e :
  Forall2 (fun v p => place cos sin cx cy cz scale angle v = Ok p) verts projected ->
  edge_in_range (length verts) e = true ->
  if edge_in_view cz scale verts e
  then exists a b, edge_line color projected e = [Line color a b 2]
  else edge_line color projected e = [].
Proof.
  intros HF He. unfold edge_in_range in He.
  apply andb_true_iff in He as [He H4]. apply andb_true_iff in He as [He H3].
  apply andb_true_iff in He as [H1 H2].
  apply Z.leb_le in H1, H3. apply Z.ltb_lt in H2, H4.
  destruct (getitem_in_range verts (fst e)) as (va & Hva); [lia|].
  destruct (getitem_in_range verts (snd e)) as (vb & Hvb); [lia|].
  destruct (getitem_Forall2 _ _ _ _ _ HF Hva) as (pa & Hpa & Ha).
  destruct (getitem_Forall2 _ _ _ _ _ HF Hvb) as (pb & Hpb & Hb).
  unfold edge_in_view, edge_line. rewrite Hva, Hvb, Hpa, Hpb.
  apply place_absent in Ha, Hb.
  destruct (in_view cz scale va); cbn [andb].
  - destruct pa as [a|]; [|exfalso; assert (false = true) by (symmetry; apply Ha; reflexivity); discriminate].
    destruct (in_view cz scale vb).
    + destruct pb as [b|]; [eauto|].
      exfalso. assert (true = false) by (apply Hb; reflexivity). discriminate.
    + replace pb with (@None (Z * Z)) by (symmetry; apply Hb; reflexivity).
      reflexivity.
  - replace pa with (@None (Z * Z)) by (symmetry; apply Ha; reflexivity).
    reflexivity.
Qed.

Lemma lines_in_view color cx cy cz scale angle verts projected edges :
  Forall2 (fun v p => place cos sin cx cy cz scale angle v = Ok p) verts projected ->
  forallb (edge_in_range (length verts)) edges = true ->
  length (flat_map (edge_line color projected) edges)
  = length (filter (edge_in_view cz scale verts) edges) /\
  Forall (fun l => exists a b, l = Line color a b 2)
         (flat_map (edge_line color projected) edges).
Proof.
  intros HF. induction edges as [|e edges IH]; intros Hr.
  - split; [reflexivity | constructor].
  - cbn [forallb] in Hr. apply andb_true_iff in Hr as [He Hr].
    destruct (IH Hr) as [IHn IHc].
    pose proof (edge_line_in_view color cx cy cz scale angle verts projected e HF He)
      as Hline.
    cbn [flat_map filter]. rewrite length_app.
    destruct (edge_in_view cz scale verts e).
    + destruct Hline as (a & b & ->). cbn [length app]. split; [lia|].
      constructor; eauto.
    + rewrite Hline. cbn [length app]. split; [exact IHn | exact IHc].
Qed.

Lemma draw_wireframe_Done s color cx cy cz verts edges scale angle s' :
  draw_wireframe cos sin s color cx cy cz verts edges scale angle = Done s' ->
  exists projected,
    project_all cos sin cx cy cz scale angle verts = Ok projected /\
    Forall2 (fun v p => place cos sin cx cy cz scale angle v = Ok p) verts projected /\
    forallb (edge_in_range (length verts)) edges = true /\
    s' = s ++ flat_map (edge_line color projected) edges.
Proof.
  unfold draw_wireframe. intros H.
  destruct (project_all cos sin cx cy cz scale angle verts) as [projected|] eqn:Hp;
    [|discriminate].
  cbn [of_result dbind] in H. apply draw_edges_Done in H as [-> Hr].
  pose proof (project_all_Forall2 _ _ _ _ _ _ _ Hp) as HF.
  rewrite <- (Forall2_length' _ _ _ HF) in Hr.
  exists projected. auto.
Qed.

Lemma draw_wireframe_in_range s color cx cy cz verts edges scale angle :
  forallb (edge_in_range (length verts)) edges = true ->
  draw_wireframe cos sin s color cx cy cz verts edges scale angle
  = match project_all cos sin cx cy cz scale angle verts with
    | Ok projected => Done (s ++ flat_map (edge_line color projected) edges)
    | Raise e => Failed (Arith e)
    end.
Proof.
  intros Hr. unfold draw_wireframe.
  destruct (project_all cos sin cx cy cz scale angle verts) as [projected|] eqn:Hp;
    [|reflexivity].
  cbn [of_result dbind]. apply draw_edges_in_range.
  rewrite <- (Forall2_length' _ _ _ (project_all_Forall2 _ _ _ _ _ _ _ Hp)).
  exact Hr.
Qed.

End Wireframe.

(** ** The ground *)

Lemma SFcompare_antisym x y :
  SFcompare y x = option_map CompOpp (SFcompare x y).
Proof.
  destruct x as [sx|sx| |sx mx ex], y as [sy|sy| |sy my ey];
    cbn [SFcompare option_map]; try reflexivity;
    try (destruct sx; reflexivity); try (destruct sy; reflexivity);
    try (destruct sx, sy; reflexivity).
  change (Pos.compare_cont Eq mx my) with (mx ?= my)%positive.
  change (Pos.compare_cont Eq my mx) with (my ?= mx)%positive.
  rewrite (Z.compare_antisym ex ey), (Pos.compare_antisym mx my).
  destruct sx, sy, (ex ?= ey)%Z, (mx ?= my)%positive; reflexivity.
Qed.

Lemma ltb_asym x y : (x <? y) = true -> (y <? x) = false.
Proof.
  rewrite !ltb_spec. unfold SFltb.
  rewrite (SFcompare_antisym (Prim2SF x) (Prim2SF y)).
  destruct (SFcompare (Prim2SF x) (Prim2SF y)) as [[ | | ]|]; cbn; congruence.
Qed.

(** With a depth that is not below the near plane, two points at the same
    height project to the same screen row. *)
Lemma project_same_row x1 x2 y z p1 p2 :
  (z <? 0.1) = false ->
  project x1 y z = Ok p1 -> project x2 y z = Ok p2 ->
  exists a b r, p1 = Some (a, r) /\ p2 = Some (b, r).
Proof.
  unfold project. intros ->.
  destruct (py_int (truediv WIDTH 2 + x1 * (FOV / z))) as [a|]; [|discriminate].
  destruct (py_int (truediv WIDTH 2 + x2 * (FOV / z))) as [b|]; [|discriminate].
  destruct (py_int (truediv HEIGHT 2 - y * (FOV / z))) as [r|]; [|discriminate].
  cbn [rbind]. intros H1 H2. injection H1 as <-. injection H2 as <-. eauto.
Qed.

Lemma draw_row_Done off i s s' :
  draw_row off i s = Done s' ->
  if 0.1 <? row_depth off i
  then exists l, s' = s ++ [l] /\ level l
  else s' = s.
Proof.
  unfold draw_row. destruct (0.1 <? row_depth off i) eqn:Hz.
  - apply ltb_asym in Hz.
    destruct (project (-50) floor_y (row_depth off i)) as [p1|] eqn:H1; [|discriminate].
    destruct (project 50 floor_y (row_depth off i)) as [p2|] eqn:H2; [|discriminate].
    destruct (project_same_row _ _ _ _ _ _ Hz H1 H2) as (a & b & r & -> & ->).
    cbn [of_result dbind]. intros H. injection H as <-.
    eexists. split; [reflexivity|]. exists a, b, r. reflexivity.
  - intros H. injection H as <-. reflexivity.
Qed.

Lemma draw_rows_Done off is_ : forall s s',
  for_each (draw_row off) is_ s = Done s' ->
  exists lines,
    s' = s ++ lines /\
    length lines = length (filter (fun i => 0.1 <? row_depth off i) is_) /\
    Forall level lines.
Proof.
  induction is_ as [|i is_ IH]; intros s s' H; cbn [for_each] in H.
  - injection H as <-. exists []. rewrite app_nil_r. repeat split. constructor.
  - destruct (draw_row off i s) as [s1|] eqn:H1; [|discriminate].
    cbn [dbind] in H. apply IH in H as (lines & -> & Hn & Hl).
    apply draw_row_Done in H1. cbn [filter].
    destruct (0.1 <? row_depth off i).
    + destruct H1 as (l & -> & Hlev). exists (l :: lines).
      rewrite <- app_assoc. cbn [app length]. repeat split; [congruence|].
      constructor; assumption.
    + subst s1. exists lines. auto.
Qed.

(** * Further properties *)

(** ** Events *)

(** X1.  While the game is not over, the events of a frame shoot at most
    once.  If the cooldown is [<= 0] and a [KEYDOWN] of the space bar is among
    them, exactly one pair of lasers is appended, at [x - 1.5] and [x + 1.5]
    of the ship, and the cooldown becomes 0.2; otherwise nothing is shot.
    Every further event of the frame, a second space bar included, changes at
    most [running]. *)
Theorem space_fires_one_volley (evs : list event) (w : World) :
  game_over w = false ->
  handle_events evs w
  = quit_after evs
      (if (Player.cooldown (player w) <=? 0) && existsb is_fire_key evs
       then fire w else w) /\
  lasers (fire w) = lasers w ++ volley (player w) /\
  Player.cooldown (player (fire w)) = 0.2 /\
  (forall evs' : list event, handle_events evs' (fire w) = quit_after evs' (fire w)).
Proof.
  intros Hgo. split; [apply handle_events_playing; exact Hgo|].
  split; [reflexivity|]. split; [reflexivity|].
  intros evs'. apply handle_events_cooling; [exact Hgo | reflexivity].
Qed.

(** The space bar twice and a [QUIT] at the start of a game: two lasers. *)
Lemma space_fires_one_volley_witness :
  (handle_events [KEYDOWN K_SPACE; KEYDOWN K_SPACE; QUIT] World_init
   = quit_after [KEYDOWN K_SPACE; KEYDOWN K_SPACE; QUIT]
       (if (Player.cooldown (player World_init) <=? 0)
           && existsb is_fire_key [KEYDOWN K_SPACE; KEYDOWN K_SPACE; QUIT]
        then fire World_init else World_init) /\
   lasers (fire World_init) = lasers World_init ++ volley (player World_init) /\
   Player.cooldown (player (fire World_init)) = 0.2 /\
   (forall evs' : list event,
      handle_events evs' (fire World_init) = quit_after evs' (fire World_init))) /\
  length (lasers (handle_events [KEYDOWN K_SPACE; KEYDOWN K_SPACE; QUIT] World_init))
  = 2%nat.
Proof.
  split.
  - apply (space_fires_one_volley [KEYDOWN K_SPACE; KEYDOWN K_SPACE; QUIT] World_init).
    reflexivity.
  - reflexivity.
Defined.

(** X2.  When the game is over and a [KEYDOWN] of R is among the events, the
    events before the first R can only clear [running]; the first R resets
    the game to [Player()], empty lists and score 0, and keeps the scroll
    offset and [running]; the events after it act on the new game, in which
    the ship can shoot at once. *)
Theorem restart_in_mid_frame (evs : list event) (w : World) :
  game_over w = true -> existsb is_restart_key evs = true ->
  exists pre post : list event,
    evs = pre ++ KEYDOWN K_r :: post /\
    existsb is_restart_key pre = false /\
    handle_events evs w
    = quit_after post
        (if existsb is_fire_key post
         then fire (restart (quit_after pre w)) else restart (quit_after pre w)).
Proof. apply handle_events_restarting. Qed.

(** In the state [wreck], which is game-over: a space bar that is ignored, a
    [QUIT], the restart, and a space bar that shoots. *)
Lemma restart_in_mid_frame_witness :
  (exists pre post : list event,
     [KEYDOWN K_SPACE; QUIT; KEYDOWN K_r; KEYDOWN K_SPACE]
     = pre ++ KEYDOWN K_r :: post /\
     existsb is_restart_key pre = false /\
     handle_events [KEYDOWN K_SPACE; QUIT; KEYDOWN K_r; KEYDOWN K_SPACE] wreck
     = quit_after post
         (if existsb is_fire_key post
          then fire (restart (quit_after pre wreck))
          else restart (quit_after pre wreck))) /\
  map Laser.x
      (lasers (handle_events [KEYDOWN K_SPACE; QUIT; KEYDOWN K_r; KEYDOWN K_SPACE] wreck))
  = [-1.5; 1.5] /\
  running (handle_events [KEYDOWN K_SPACE; QUIT; KEYDOWN K_r; KEYDOWN K_SPACE] wreck)
  = false.
Proof.
  split.
  - apply (restart_in_mid_frame [KEYDOWN K_SPACE; QUIT; KEYDOWN K_r; KEYDOWN K_SPACE]
                                wreck); vm_compute; reflexivity.
  - vm_compute. split; reflexivity.
Defined.

Lemma running_update_world dt keys w g c w' c' :
  update_world dt keys w g c = Ok (w', c') -> running w' = running w.
Proof. intros H. apply update_world_inv in H as (kA & kB & H). apply H. Qed.

Lemma running_frame dt evs keys w g c w' c' :
  frame dt evs keys w g c = Ok (w', c') ->
  running w' = running w && negb (existsb is_quit evs).
Proof.
  intros H. rewrite <- running_handle_events.
  apply frame_cases in H as [(_ & -> & _) | (_ & H)]; [reflexivity|].
  eapply running_update_world; exact H.
Qed.

Lemma main_loop_stopped inputs w g c :
  running w = false -> main_loop inputs w g c = Ok (w, c).
Proof. intros Hr. destruct inputs; cbn [main_loop]; [|rewrite Hr]; reflexivity. Qed.

(** X3.  [QUIT] does not abort the frame in which it arrives.  After every
    frame, [running] is what it was, cleared if a [QUIT] was among the
    events; nothing sets it again, a restart included.  The frame of the
    [QUIT] is simulated in full, and it is the last: the loop runs no later
    frame. *)
Theorem quit_ends_the_loop :
  (forall dt evs keys w g c w' c',
     frame dt evs keys w g c = Ok (w', c') ->
     running w' = running w && negb (existsb is_quit evs)) /\
  (forall inputs w g c, running w = false -> main_loop inputs w g c = Ok (w, c)) /\
  (forall i rest w g c,
     running w = true -> existsb is_quit (in_events i) = true ->
     main_loop (i :: rest) w g c = frame (in_dt i) (in_events i) (in_keys i) w g c).
Proof.
  split; [exact running_frame|]. split; [exact main_loop_stopped|].
  intros i rest w g c Hr Hq. cbn [main_loop]. rewrite Hr. unfold bind.
  destruct (frame (in_dt i) (in_events i) (in_keys i) w g c) as [[w' c']|e] eqn:E;
    [|reflexivity].
  apply main_loop_stopped.
  rewrite (running_frame _ _ _ _ _ _ _ _ E), Hq. apply andb_false_r.
Qed.

(** A frame with the space bar and [QUIT], followed by a frame that is never
    run: the lasers of the first frame are those of the result. *)
Lemma quit_ends_the_loop_witness :
  main_loop [mkInput (tick_dt 16) [KEYDOWN K_SPACE; QUIT] no_keys; busy_frame]
            World_init no_spawn 0%nat
  = frame (in_dt (mkInput (tick_dt 16) [KEYDOWN K_SPACE; QUIT] no_keys))
          (in_events (mkInput (tick_dt 16) [KEYDOWN K_SPACE; QUIT] no_keys))
          (in_keys (mkInput (tick_dt 16) [KEYDOWN K_SPACE; QUIT] no_keys))
          World_init no_spawn 0%nat.
Proof.
  apply (proj2 (proj2 quit_ends_the_loop)); reflexivity.
Defined.

(** ** How much a frame can add *)

Lemma quit_after_lists evs w :
  player (quit_after evs w) = player w /\
  lasers (quit_after evs w) = lasers w /\
  enemies (quit_after evs w) = enemies w /\
  obstacles (quit_after evs w) = obstacles w /\
  particles (quit_after evs w) = particles w /\
  score (quit_after evs w) = score w /\
  game_over (quit_after evs w) = game_over w.
Proof. unfold quit_after. destruct (existsb is_quit evs); repeat split. Qed.

Lemma handle_events_growth evs w :
  (length (lasers (handle_events evs w)) <= length (lasers w) + 2)%nat /\
  (existsb is_fire_key evs = false ->
   length (lasers (handle_events evs w)) <= length (lasers w))%nat /\
  (length (enemies (handle_events evs w)) <= length (enemies w))%nat /\
  (length (obstacles (handle_events evs w)) <= length (obstacles w))%nat /\
  (length (particles (handle_events evs w)) <= length (particles w))%nat.
Proof.
  destruct (game_over w) eqn:Hgo.
  - destruct (existsb is_restart_key evs) eqn:Hr.
    + destruct (handle_events_restarting evs w Hgo Hr) as (pre & post & -> & _ & ->).
      destruct (quit_after_lists post
                  (if existsb is_fire_key post
                   then fire (restart (quit_after pre w))
                   else restart (quit_after pre w)))
        as (_ & -> & -> & -> & -> & _).
      rewrite existsb_app. cbn [existsb is_fire_key orb].
      destruct (existsb is_fire_key post); cbn [lasers enemies obstacles particles
        fire restart set_player set_lasers app length]; repeat split; try lia;
        rewrite orb_true_r; discriminate.
    + rewrite (handle_events_game_over evs w Hgo Hr). fold (quit_after evs w).
      destruct (quit_after_lists evs w) as (_ & -> & -> & -> & -> & _).
      repeat split; lia.
  - rewrite (handle_events_playing evs w Hgo).
    destruct (quit_after_lists evs
                (if (Player.cooldown (player w) <=? 0) && existsb is_fire_key evs
                 then fire w else w))
      as (_ & -> & -> & -> & -> & _).
    destruct (existsb is_fire_key evs); [|rewrite andb_false_r; repeat split; lia].
    destruct (Player.cooldown (player w) <=? 0); cbn [andb];
      [|repeat split; lia].
    unfold fire. wsimpl. rewrite length_app. cbn [length app].
    repeat split; lia.
Qed.

(** X4.  A frame adds at most two lasers, one enemy and one obstacle to the
    lists, whatever the events and the draws; without a [KEYDOWN] of the space
    bar it adds no laser. *)
Theorem frame_adds_little dt evs keys w g c w' c' :
  frame dt evs keys w g c = Ok (w', c') ->
  (length (lasers w') <= length (lasers w) + 2)%nat /\
  (existsb is_fire_key evs = false -> length (lasers w') <= length (lasers w))%nat /\
  (length (enemies w') <= length (enemies w) + 1)%nat /\
  (length (obstacles w') <= length (obstacles w) + 1)%nat.
Proof.
  intros H.
  destruct (handle_events_growth evs w) as (Hl & Hl0 & He & Ho & _).
  apply frame_cases in H as [(_ & -> & _) | (_ & H)].
  - repeat split; try lia. intros Hf. apply Hl0, Hf.
  - apply update_world_ledger in H
      as (kA & kE & kO & ne & no & _ & _ & _ & Hne & Hno & Hl' & He' & Ho' & _).
    repeat split; try lia. intros Hf. specialize (Hl0 Hf). lia.
Qed.

(** The frame [busy_frame] with draws that spawn an enemy and an obstacle:
    two lasers, one enemy and one obstacle are added. *)
Lemma frame_adds_little_witness :
  ((length (lasers busy) <= length (lasers World_init) + 2)%nat /\
   (existsb is_fire_key (in_events busy_frame) = false ->
    length (lasers busy) <= length (lasers World_init))%nat /\
   (length (enemies busy) <= length (enemies World_init) + 1)%nat /\
   (length (obstacles busy) <= length (obstacles World_init) + 1)%nat) /\
  length (lasers busy) = 2%nat /\ length (enemies busy) = 1%nat /\
  length (obstacles busy) = 1%nat.
Proof.
  split.
  - apply (frame_adds_little (in_dt busy_frame) (in_events busy_frame)
             (in_keys busy_frame) World_init busy_draws 0%nat busy 6%nat).
    vm_compute. reflexivity.
  - vm_compute. repeat split.
Defined.

(** ** The objects between two frames *)

(** X5.  In every state the loop reaches, the attributes that only the
    constructors assign have the constructors' values: the ship is at depth
    10 with speed 15, every laser has speed 100, every enemy radius 1.5, and
    every obstacle is at height -8 with speed 30 and radius 2. *)
Theorem attributes_of_the_constructors (w : World) :
  reachable w ->
  Player.z (player w) = 10 /\ Player.speed (player w) = 15 /\
  Forall (fun l => Laser.speed l = 100) (lasers w) /\
  Forall (fun e => Enemy.radius e = 1.5) (enemies w) /\
  Forall (fun o => Obstacle.y o = -8 /\ Obstacle.speed o = 30 /\ Obstacle.radius o = 2)
         (obstacles w).
Proof.
  intros Hw. apply reachable_tidy in Hw as ((Hz & Hs) & Hl & He & Ho & _).
  repeat split; try assumption.
  - eapply Forall_impl; [|exact Hl]. intros l H. apply H.
  - eapply Forall_impl; [|exact He]. intros e H. apply H.
  - eapply Forall_impl; [|exact Ho]. intros o (H1 & H2 & H3 & _). auto.
Qed.

(** The state after the frame [busy_frame]. *)
Lemma attributes_of_the_constructors_witness :
  Player.z (player busy) = 10 /\ Player.speed (player busy) = 15 /\
  Forall (fun l => Laser.speed l = 100) (lasers busy) /\
  Forall (fun e => Enemy.radius e = 1.5) (enemies busy) /\
  Forall (fun o => Obstacle.y o = -8 /\ Obstacle.speed o = 30 /\ Obstacle.radius o = 2)
         (obstacles busy).
Proof.
  exact (attributes_of_the_constructors busy (outcome_reachable [busy_frame] busy_draws)).
Defined.

(** X6.  Between two frames the lists hold nothing that has passed its
    threshold: in every state the loop reaches no laser is at a depth above
    150 and no enemy or obstacle at a depth below 0. *)
Theorem nothing_past_the_thresholds (w : World) :
  reachable w ->
  Forall (fun l => (150 <? Laser.z l) = false) (lasers w) /\
  Forall (fun e => (Enemy.z e <? 0) = false) (enemies w) /\
  Forall (fun o => (Obstacle.z o <? 0) = false) (obstacles w).
Proof.
  intros Hw. apply reachable_tidy in Hw as (_ & Hl & He & Ho & _).
  repeat split.
  - eapply Forall_impl; [|exact Hl]. intros l H. apply H.
  - eapply Forall_impl; [|exact He]. intros e H. apply H.
  - eapply Forall_impl; [|exact Ho]. intros o H. apply H.
Qed.

(** The state in which the run [skirmish_inputs] ends: one laser is left, at
    a depth just below 130. *)
Lemma nothing_past_the_thresholds_witness :
  (Forall (fun l => (150 <? Laser.z l) = false)
          (lasers (outcome skirmish_inputs skirmish_draws)) /\
   Forall (fun e => (Enemy.z e <? 0) = false)
          (enemies (outcome skirmish_inputs skirmish_draws)) /\
   Forall (fun o => (Obstacle.z o <? 0) = false)
          (obstacles (outcome skirmish_inputs skirmish_draws))) /\
  length (lasers (outcome skirmish_inputs skirmish_draws)) = 1%nat.
Proof.
  split.
  - exact (nothing_past_the_thresholds _
             (outcome_reachable skirmish_inputs skirmish_draws)).
  - vm_compute. reflexivity.
Defined.

(** X7.  In every state the loop reaches every particle has life left
    ([life > 0]) and is red, yellow or cyan. *)
Theorem particles_have_life_left (w : World) :
  reachable w ->
  Forall (fun p => (0 <? Particle.life p) = true /\
                   (Particle.color p = RED \/ Particle.color p = YELLOW \/
                    Particle.color p = CYAN))
         (particles w).
Proof. intros Hw. apply reachable_tidy in Hw. apply Hw. Qed.

(** The state in which the run [skirmish_inputs] ends holds the 25 particles
    of one explosion. *)
Lemma particles_have_life_left_witness :
  Forall (fun p => (0 <? Particle.life p) = true /\
                   (Particle.color p = RED \/ Particle.color p = YELLOW \/
                    Particle.color p = CYAN))
         (particles (outcome skirmish_inputs skirmish_draws)) /\
  length (particles (outcome skirmish_inputs skirmish_draws)) = 25%nat.
Proof.
  split.
  - exact (particles_have_life_left _
             (outcome_reachable skirmish_inputs skirmish_draws)).
  - vm_compute. reflexivity.
Defined.

(** ** The ledger of a frame *)

(** X8.  A frame that starts with the game not over balances as follows.
    With [kA] the lasers it leaves cleared, it leaves [kA + kE] enemies and
    [kO] obstacles cleared, for some [kE] and [kO]: the enemies shot and
    rammed, and the obstacles rammed.  It adds [100 * kA] to the score and
    takes [25 * (kE + kO)] from the health; it appends 25 particles per laser
    hit and 20 per collision of the ship to the particles that outlive the
    frame; and it takes from [random] two draws for the spawn tests, three per
    enemy and one per obstacle spawned, and three per particle. *)
Theorem frame_ledger dt evs keys w g c w' c' :
  game_over w = false ->
  frame dt evs keys w g c = Ok (w', c') ->
  exists kE kO ne no : nat,
    let kA := idle_lasers (lasers w') in
    idle (enemies w') = (kA + kE)%nat /\
    idle (obstacles w') = kO /\
    score w' = (score w + 100 * Z.of_nat kA)%Z /\
    Player.hp (player w') = (Player.hp (player w) - 25 * Z.of_nat (kE + kO))%Z /\
    (ne <= 1)%nat /\ (no <= 1)%nat /\
    length (particles w')
    = (length (filter (fun p => (0 <? Particle.life p)%float)
                      (map (Particle.update dt) (particles w)))
       + 25 * kA + 20 * (kE + kO))%nat /\
    c' = (2 + 3 * ne + no + 3 * (25 * kA + 20 * (kE + kO)) + c)%nat.
Proof.
  intros Hgo H.
  pose proof (handle_events_playing evs w Hgo) as Hev.
  assert (Hsame : player (handle_events evs w)
                  = (if (Player.cooldown (player w) <=? 0) && existsb is_fire_key evs
                     then Player.set_cooldown 0.2 (player w) else player w) /\
                  particles (handle_events evs w) = particles w /\
                  score (handle_events evs w) = score w /\
                  game_over (handle_events evs w) = false).
  { rewrite Hev.
    destruct (quit_after_lists evs
                (if (Player.cooldown (player w) <=? 0) && existsb is_fire_key evs
                 then fire w else w))
      as (-> & _ & _ & _ & -> & -> & ->).
    destruct ((Player.cooldown (player w) <=? 0) && existsb is_fire_key evs);
      repeat split; assumption. }
  destruct Hsame as (Hp & Hps & Hs & Hgo').
  apply frame_cases in H as [(Hover & _) | (_ & H)]; [congruence|].
  apply update_world_ledger in H
    as (kA & kE & kO & ne & no & HkA & HkE & HkO & Hne & Hno & _ & _ & _
        & Hlen & Hsc & Hhp & ->).
  exists kE, kO, ne, no. cbv zeta. rewrite HkA, HkE, HkO, Hsc, Hhp, Hlen, Hs, Hps, Hp.
  repeat split; try assumption; try lia.
  destruct ((Player.cooldown (player w) <=? 0) && existsb is_fire_key evs); reflexivity.
Qed.

(** The frame of the state [duel]: one laser hit, no collision of the ship,
    nothing spawned; 77 draws. *)
Lemma frame_ledger_witness :
  exists kE kO ne no : nat,
    let kA := idle_lasers (lasers duel_after) in
    idle (enemies duel_after) = (kA + kE)%nat /\
    idle (obstacles duel_after) = kO /\
    score duel_after = (score duel + 100 * Z.of_nat kA)%Z /\
    Player.hp (player duel_after)
    = (Player.hp (player duel) - 25 * Z.of_nat (kE + kO))%Z /\
    (ne <= 1)%nat /\ (no <= 1)%nat /\
    length (particles duel_after)
    = (length (filter (fun p => (0 <? Particle.life p)%float)
                      (map (Particle.update 0) (particles duel)))
       + 25 * kA + 20 * (kE + kO))%nat /\
    77%nat = (2 + 3 * ne + no + 3 * (25 * kA + 20 * (kE + kO)) + 0)%nat.
Proof.
  apply (frame_ledger 0 [] no_keys duel no_spawn 0%nat duel_after 77%nat).
  - reflexivity.
  - vm_compute. reflexivity.
Defined.

(** ** What the collision passes leave alone *)

Lemma Forall2_map_r {A : Type} (R : A -> A -> Prop) (f : A -> A) (l : list A) :
  (forall a, R a (f a)) -> Forall2 R l (map f l).
Proof. intros H. induction l; cbn [map]; constructor; auto. Qed.

Lemma after_player_enemy_step p (e : Enemy.t) : enemy_step e (after_player p e).
Proof.
  unfold after_player, struck. destruct (ent_active e) eqn:Ha; cbn [andb].
  - destruct (match player_hits p e with Ok b => b | Raise _ => false end).
    + right. split; [exact Ha | reflexivity].
    + left. reflexivity.
  - left. reflexivity.
Qed.

Lemma after_player_obstacle_step p (o : Obstacle.t) : obstacle_step o (after_player p o).
Proof.
  unfold after_player, struck. destruct (ent_active o) eqn:Ha; cbn [andb].
  - destruct (match player_hits p o with Ok b => b | Raise _ => false end).
    + right. split; [exact Ha | reflexivity].
    + left. reflexivity.
  - left. reflexivity.
Qed.

(** X9.  The two collision passes only clear flags.  They keep every list at
    its length and in its order, move nothing, and set no flag that was
    cleared: each laser, enemy and obstacle is afterwards what it was, or
    what it was with its flag cleared, and then it was active.  Particles are
    only appended.  The ship keeps its position, velocity and cooldown; the
    score does not go down and the health does not go up. *)
Theorem collisions_only_clear_flags w g c w' c' :
  collide w g c = Ok (w', c') ->
  Forall2 laser_step (lasers w) (lasers w') /\
  Forall2 enemy_step (enemies w) (enemies w') /\
  Forall2 obstacle_step (obstacles w) (obstacles w') /\
  (exists new, particles w' = particles w ++ new) /\
  player w' = Player.set_hp (Player.hp (player w')) (player w) /\
  (Player.hp (player w') <= Player.hp (player w))%Z /\
  (score w <= score w')%Z /\
  scroll_offset w' = scroll_offset w /\ running w' = running w.
Proof.
  intros H.
  apply collide_anatomy in H
    as (kA & new & ls' & es' & HFl & HFe & _ & _ & _ & _ & H).
  cbv zeta in H. destruct H as [-> _].
  unfold wounded, tally. wsimpl.
  split; [exact HFl|].
  split.
  { eapply Forall2_trans'; [exact enemy_step_trans | exact HFe |].
    apply Forall2_map_r. apply after_player_enemy_step. }
  split; [apply Forall2_map_r, after_player_obstacle_step|].
  split; [eexists; rewrite <- app_assoc; reflexivity|].
  cbn [Player.hp Player.set_hp].
  repeat split; lia.
Qed.

(** The passes on [melee]: both lasers and both enemies are cleared, and the
    obstacle next to the ship. *)
Lemma collisions_only_clear_flags_witness :
  (Forall2 laser_step (lasers melee) (lasers melee_after) /\
   Forall2 enemy_step (enemies melee) (enemies melee_after) /\
   Forall2 obstacle_step (obstacles melee) (obstacles melee_after) /\
   (exists new, particles melee_after = particles melee ++ new) /\
   player melee_after = Player.set_hp (Player.hp (player melee_after)) (player melee) /\
   (Player.hp (player melee_after) <= Player.hp (player melee))%Z /\
   (score melee <= score melee_after)%Z /\
   scroll_offset melee_after = scroll_offset melee /\
   running melee_after = running melee) /\
  map Obstacle.active (obstacles melee_after) = [false].
Proof.
  split.
  - apply (collisions_only_clear_flags melee no_spawn 0%nat melee_after 210%nat).
    vm_compute. reflexivity.
  - vm_compute. reflexivity.
Defined.

(** X10.  The pass of the lasers never touches the ship or an obstacle, and
    cannot end the game: obstacles are not destroyed by lasers.  The pass of
    the ship never touches a laser or the score: ramming does not score. *)
Theorem passes_keep_apart :
  (forall w g c w' c',
     collide_lasers w g c = Ok (w', c') ->
     player w' = player w /\ obstacles w' = obstacles w /\
     game_over w' = game_over w) /\
  (forall w g c w' c',
     collide_player w g c = Ok (w', c') ->
     lasers w' = lasers w /\ score w' = score w).
Proof.
  split.
  - intros w g c w' c' H.
    apply collide_lasers_inv in H as (k & new & ls' & es' & -> & _).
    repeat split.
  - intros w g c w' c' H.
    apply collide_player_inv in H. cbv zeta in H. destruct H as [-> _].
    repeat split.
Qed.

(** The passes on [melee]: the laser pass leaves the obstacle and the health,
    the pass of the ship leaves the score. *)
Lemma passes_keep_apart_witness :
  (forall w' c',
     collide_lasers melee no_spawn 0%nat = Ok (w', c') ->
     player w' = player melee /\ obstacles w' = obstacles melee /\
     game_over w' = game_over melee) /\
  (forall w' c',
     collide_player melee no_spawn 0%nat = Ok (w', c') ->
     lasers w' = lasers melee /\ score w' = score melee).
Proof.
  split.
  - exact (proj1 passes_keep_apart melee no_spawn 0%nat).
  - exact (proj2 passes_keep_apart melee no_spawn 0%nat).
Defined.

(** ** Pass A as a matching *)

(** X11.  The flags that the pass of the lasers leaves are those of a
    first-fit matching: the lasers choose in the order of their list, and a
    laser takes the first enemy, in the order of the enemy list, that is still
    active and within its reach; it takes nothing when there is none.  An
    enemy taken is out of reach for the lasers that follow. *)
Theorem pass_A_is_first_fit :
  (forall ls es w g c ls' es' w' c',
     lasers_vs_enemies ls es w g c = Ok ((ls', es', w'), c') ->
     matching ls es = (ls', es')) /\
  (forall l es,
     (existsb (hit l) es = false /\ first_fit l es = (l, es)) \/
     (exists pre e post,
        es = pre ++ e :: post /\
        Forall (fun x => hit l x = false) pre /\ hit l e = true /\
        first_fit l es
        = (Laser.set_active false l, pre ++ Enemy.set_active false e :: post))) /\
  (forall l l' e, hit l' (Enemy.set_active false e) = false /\
                  hit (Laser.set_active false l) e = false).
Proof.
  split; [exact lasers_vs_enemies_matching|].
  split; [exact first_fit_cases|].
  intros l l' e. split; [apply hit_zapped_enemy | apply hit_inactive_laser; reflexivity].
Qed.

(** In [ambush] the first laser reaches both enemies and takes the far one,
    which is first in the list; the second laser reaches only that one and
    finds it taken. *)
Lemma pass_A_is_first_fit_witness :
  matching (lasers ambush) (enemies ambush)
  = (lasers (match collide_lasers ambush no_spawn 0%nat with
             | Ok (w, _) => w | Raise _ => ambush end),
     enemies (match collide_lasers ambush no_spawn 0%nat with
              | Ok (w, _) => w | Raise _ => ambush end)) /\
  map Enemy.active (snd (matching (lasers ambush) (enemies ambush))) = [false; true] /\
  map Laser.active (fst (matching (lasers ambush) (enemies ambush))) = [false; true].
Proof.
  split.
  - destruct (lasers_vs_enemies (lasers ambush) (enemies ambush) ambush no_spawn 0%nat)
      as [[[[ls' es'] w'] c']|e] eqn:E.
    + rewrite (proj1 pass_A_is_first_fit _ _ _ _ _ _ _ _ _ E).
      unfold collide_lasers, bind. rewrite E. reflexivity.
    + vm_compute in E. discriminate E.
  - vm_compute. split; reflexivity.
Defined.

(** ** The renderer *)

(** X12.  [draw_wireframe] draws an edge whole or not at all.  When it
    returns, every index of every edge was one that the vertex list accepts,
    and it has appended to the surface, in the order of the edges, one line
    of the given colour and of width 2 for each edge whose two vertices are
    at a depth [cz + rz * scale] that is not below 0.1, and nothing for the
    other edges: the test depends neither on the angle nor on [cx] and [cy].
    It raises [IndexError] only for an edge with an index out of range. *)
Theorem wireframe_draws_whole_edges (cos sin : float -> result float)
        (s : surface) (color : rgb) (cx cy cz : float) (verts : list vertex)
        (edges : list edge) (scale angle : float) :
  (forall s',
     draw_wireframe cos sin s color cx cy cz verts edges scale angle = Done s' ->
     forallb (edge_in_range (length verts)) edges = true /\
     exists projected,
       project_all cos sin cx cy cz scale angle verts = Ok projected /\
       s' = s ++ flat_map (edge_line color projected) edges /\
       (forall e, In e edges ->
          if edge_in_view cz scale verts e
          then exists a b, edge_line color projected e = [Line color a b 2]
          else edge_line color projected e = []) /\
       length (flat_map (edge_line color projected) edges)
       = length (filter (edge_in_view cz scale verts) edges)) /\
  (forallb (edge_in_range (length verts)) edges = true ->
   draw_wireframe cos sin s color cx cy cz verts edges scale angle
   <> Failed IndexError).
Proof.
  split.
  - intros s' H. apply draw_wireframe_Done in H as (projected & Hp & HF & Hr & ->).
    split; [exact Hr|]. exists projected.
    split; [exact Hp|]. split; [reflexivity|]. split.
    + intros e He. eapply edge_line_in_view; [exact HF|].
      rewrite forallb_forall in Hr. apply Hr, He.
    + eapply lines_in_view; eassumption.
  - intros Hr. rewrite draw_wireframe_in_range by exact Hr.
    destruct (project_all cos sin cx cy cz scale angle verts); discriminate.
Qed.

(** The cube of an obstacle at depth 1.5, of which the front face is behind
    the near plane: the four edges of the back face are drawn. *)
Lemma wireframe_draws_whole_edges_witness :
  (forallb (edge_in_range (length OBSTACLE_VERTS)) OBSTACLE_EDGES = true /\
   exists projected,
     project_all cos_at_0 sin_at_0 3 (-8) 1.5 2 0 OBSTACLE_VERTS = Ok projected /\
     [Line GREEN (514, 1442)%Z (971, 1442)%Z 2;
      Line GREEN (971, 1442)%Z (971, 985)%Z 2;
      Line GREEN (971, 985)%Z (514, 985)%Z 2;
      Line GREEN (514, 985)%Z (514, 1442)%Z 2]
     = [] ++ flat_map (edge_line GREEN projected) OBSTACLE_EDGES /\
     (forall e, In e OBSTACLE_EDGES ->
        if edge_in_view 1.5 2 OBSTACLE_VERTS e
        then exists a b, edge_line GREEN projected e = [Line GREEN a b 2]
        else edge_line GREEN projected e = []) /\
     length (flat_map (edge_line GREEN projected) OBSTACLE_EDGES)
     = length (filter (edge_in_view 1.5 2 OBSTACLE_VERTS) OBSTACLE_EDGES)) /\
  length (filter (edge_in_view 1.5 2 OBSTACLE_VERTS) OBSTACLE_EDGES) = 4%nat.
Proof.
  split.
  - apply (proj1 (wireframe_draws_whole_edges cos_at_0 sin_at_0 [] GREEN 3 (-8) 1.5
                    OBSTACLE_VERTS OBSTACLE_EDGES 2 0)).
    vm_compute. reflexivity.
  - vm_compute. reflexivity.
Defined.

(** X13.  The edges of the three models index their vertices: drawing the
    ship, an enemy or an obstacle never raises [IndexError], whatever its
    attributes; it fails only when the projection of a vertex raises. *)
Theorem models_index_their_vertices (cos sin : float -> result float) (s : surface) :
  (forall p : Player.t, Player_draw cos sin s p <> Failed IndexError) /\
  (forall (ticks : Z) (e : Enemy.t), Enemy_draw cos sin ticks s e <> Failed IndexError) /\
  (forall o : Obstacle.t, Obstacle_draw cos sin s o <> Failed IndexError).
Proof.
  repeat split; intros;
    unfold Player_draw, Enemy_draw, Obstacle_draw;
    (rewrite draw_wireframe_in_range by reflexivity);
    match goal with |- context [project_all ?c ?s0 ?x ?y ?z ?sc ?a ?v] =>
      destruct (project_all c s0 x y z sc a v) end; discriminate.
Qed.

Lemma ship_in_view p :
  Player.z p = 10 ->
  filter (edge_in_view (Player.z p) 0.8 PLAYER_VERTS) PLAYER_EDGES = PLAYER_EDGES.
Proof. intros ->. vm_compute. reflexivity. Qed.

(** X14.  The ship is never clipped.  In every state the loop reaches, when
    the game is not over the ship is drawn with all its eight edges, in cyan,
    whatever its bank angle, provided no projection raises; when the game is
    over it is not drawn. *)
Theorem ship_is_never_clipped (w : World) (cos sin : float -> result float)
        (s s' : surface) :
  reachable w ->
  draw_ship cos sin w s = Done s' ->
  if game_over w then s' = s
  else exists lines,
         s' = s ++ lines /\ length lines = 8%nat /\
         Forall (fun l => exists a b, l = Line CYAN a b 2) lines.
Proof.
  intros Hw H. apply reachable_tidy in Hw as ((Hz & _) & _).
  unfold draw_ship in H. destruct (game_over w).
  - injection H as <-. reflexivity.
  - unfold Player_draw in H.
    apply draw_wireframe_Done in H as (projected & _ & HF & Hr & ->).
    eexists. split; [reflexivity|].
    destruct (lines_in_view cos sin CYAN _ _ _ _ _ _ _ _ HF Hr) as [Hn Hc].
    split; [|exact Hc]. rewrite Hn, (ship_in_view _ Hz). reflexivity.
Qed.

(** The ship after the frame [busy_frame], for a bank angle whose cosine and
    sine are 0.8 and 0.6. *)
Lemma ship_is_never_clipped_witness :
  if game_over busy then banked_ship = []
  else exists lines,
         banked_ship = [] ++ lines /\ length lines = 8%nat /\
         Forall (fun l => exists a b, l = Line CYAN a b 2) lines.
Proof.
  apply (ship_is_never_clipped busy cos_banked sin_banked []).
  - exact (outcome_reachable [busy_frame] busy_draws).
  - vm_compute. reflexivity.
Defined.

(** X15.  The near plane takes whole faces.  Of the cube of an obstacle, whose
    faces are at the depths [z + -1 * 2] and [z + 1 * 2], each face in view
    gives its four edges and the four edges between the faces are drawn only
    when both are in view: 12, 4 or 0 lines.  Of the diamond of an enemy, the
    square at depth [z + 0 * 1.5] gives four edges when in view, and each of
    the two tips, at [z + 1 * 1.5] and [z + -1 * 1.5], four more when it and
    the square are in view: 12, 8, 4 or 0 lines. *)
Theorem near_plane_takes_whole_faces (cos sin : float -> result float) (s : surface) :
  (forall (o : Obstacle.t) (s' : surface),
     Obstacle_draw cos sin s o = Done s' ->
     let near := negb (Obstacle.z o + -1 * 2 <? 0.1) in
     let far := negb (Obstacle.z o + 1 * 2 <? 0.1) in
     length s'
     = (length s + 4 * (Nat.b2n near + Nat.b2n far + Nat.b2n (near && far)))%nat) /\
  (forall (ticks : Z) (e : Enemy.t) (s' : surface),
     Enemy_draw cos sin ticks s e = Done s' ->
     let square := negb (Enemy.z e + 0 * 1.5 <? 0.1) in
     let far := negb (Enemy.z e + 1 * 1.5 <? 0.1) in
     let near := negb (Enemy.z e + -1 * 1.5 <? 0.1) in
     length s'
     = (length s
        + 4 * (Nat.b2n square + Nat.b2n (far && square) + Nat.b2n (near && square)))%nat).
Proof.
  split.
  - intros o s' H near far. unfold Obstacle_draw in H.
    apply draw_wireframe_Done in H as (projected & _ & HF & Hr & ->).
    destruct (lines_in_view cos sin GREEN _ _ _ _ _ _ _ _ HF Hr) as [Hn _].
    rewrite length_app, Hn. f_equal. subst near far. clear.
    generalize (Obstacle.z o). intros z.
    cbv [filter OBSTACLE_EDGES OBSTACLE_VERTS edge_in_view getitem fst snd length
         Z.of_nat Pos.of_succ_nat Pos.succ Z.ltb Z.compare Z.add Z.to_nat Pos.to_nat
         Pos.iter_op Nat.add nth_error in_view depth].
    destruct (z + -1 * 2 <? 0.1), (z + 1 * 2 <? 0.1); reflexivity.
  - intros ticks e s' H square far near. unfold Enemy_draw in H.
    apply draw_wireframe_Done in H as (projected & _ & HF & Hr & ->).
    destruct (lines_in_view cos sin RED _ _ _ _ _ _ _ _ HF Hr) as [Hn _].
    rewrite length_app, Hn. f_equal. subst square far near. clear.
    generalize (Enemy.z e). intros z.
    cbv [filter ENEMY_EDGES ENEMY_VERTS edge_in_view getitem fst snd length
         Z.of_nat Pos.of_succ_nat Pos.succ Z.ltb Z.compare Z.add Z.to_nat Pos.to_nat
         Pos.iter_op Nat.add nth_error in_view depth].
    destruct (z + 0 * 1.5 <? 0.1), (z + 1 * 1.5 <? 0.1), (z + -1 * 1.5 <? 0.1);
      reflexivity.
Qed.

(** The obstacle at depth 1.5 has its front face at -0.5 and its back face
    at 3.5: four lines.  The enemy at depth 1 has its square at 1, its far tip
    at 2.5 and its near tip at -0.5: eight lines. *)
Lemma near_plane_takes_whole_faces_witness :
  (forall s' : surface,
     Obstacle_draw cos_at_0 sin_at_0 [] close_obstacle = Done s' ->
     let near := negb (Obstacle.z close_obstacle + -1 * 2 <? 0.1) in
     let far := negb (Obstacle.z close_obstacle + 1 * 2 <? 0.1) in
     length s'
     = (length (@nil stroke)
        + 4 * (Nat.b2n near + Nat.b2n far + Nat.b2n (near && far)))%nat) /\
  (exists s', Obstacle_draw cos_at_0 sin_at_0 [] close_obstacle = Done s' /\
              length s' = 4%nat) /\
  (exists s', Enemy_draw cos_banked sin_banked 1000 [] close_enemy = Done s' /\
              length s' = 8%nat).
Proof.
  split; [|split].
  - exact (proj1 (near_plane_takes_whole_faces cos_at_0 sin_at_0 []) close_obstacle).
  - eexists. split; vm_compute; reflexivity.
  - eexists. split; vm_compute; reflexivity.
Defined.

(** ** The ground *)

Lemma for_each_appends {A : Type} (body : A -> surface -> drawn surface) :
  (forall a s, body a s
               = match body a [] with
                 | Done k => Done (s ++ k)
                 | Failed e => Failed e
                 end) ->
  forall l s, for_each body l s
              = match for_each body l [] with
                | Done k => Done (s ++ k)
                | Failed e => Failed e
                end.
Proof.
  intros Hbody l. induction l as [|a l IH]; intros s; cbn [for_each].
  - rewrite app_nil_r. reflexivity.
  - rewrite (Hbody a s). destruct (body a []) as [k|e]; cbn [dbind]; [|reflexivity].
    rewrite (IH (s ++ k)), (IH k).
    destruct (for_each body l []) as [k'|e]; [|reflexivity].
    rewrite app_assoc. reflexivity.
Qed.

Lemma draw_depth_line_appends x s :
  draw_depth_line x s
  = match draw_depth_line x [] with
    | Done k => Done (s ++ k)
    | Failed e => Failed e
    end.
Proof.
  unfold draw_depth_line.
  destruct (project (float_of_int x) floor_y 0.1) as [[a|]|e]; cbn [of_result dbind];
    try reflexivity;
    destruct (project (float_of_int x) floor_y 150) as [[b|]|e']; cbn [of_result dbind];
    try reflexivity; rewrite app_nil_r; reflexivity.
Qed.

Lemma depth_lines_always s :
  for_each draw_depth_line columns s = Done (s ++ depth_lines).
Proof.
  rewrite (for_each_appends draw_depth_line draw_depth_line_appends).
  reflexivity.
Qed.

(** X16.  The ground is drawn as the rows followed by eleven depth lines.
    When it returns, the rows are one line for each [i] of [range(15)] whose
    depth [150 - (scroll_offset + i * 10)] is above 0.1, none of them skipped
    by the test of the two projections, and each is level: its two ends are
    in the same screen row.  The depth lines never fail and are the same
    eleven lines whatever the state. *)
Theorem ground_is_level (off : float) (s : surface) :
  (forall s',
     draw_ground off s = Done s' ->
     exists lines,
       s' = s ++ lines ++ depth_lines /\
       length lines = length (filter (fun i => 0.1 <? row_depth off i) rows) /\
       Forall level lines) /\
  for_each draw_depth_line columns s = Done (s ++ depth_lines) /\
  length depth_lines = 11%nat.
Proof.
  split; [|split; [apply depth_lines_always | reflexivity]].
  intros s' H. unfold draw_ground in H.
  destruct (for_each (draw_row off) rows s) as [s1|] eqn:H1; [|discriminate].
  cbn [dbind] in H. rewrite depth_lines_always in H. injection H as <-.
  apply draw_rows_Done in H1 as (lines & -> & Hn & Hl).
  exists lines. rewrite <- app_assoc. auto.
Qed.

(** With the scroll offset at 9.95 the last row, at depth 0.05, is not drawn
    and fourteen are. *)
Lemma ground_is_level_witness :
  (forall s',
     draw_ground 9.95 [] = Done s' ->
     exists lines,
       s' = [] ++ lines ++ depth_lines /\
       length lines = length (filter (fun i => 0.1 <? row_depth 9.95 i) rows) /\
       Forall level lines) /\
  length (filter (fun i => 0.1 <? row_depth 9.95 i) rows) = 14%nat /\
  (exists s', draw_ground 9.95 [] = Done s' /\ length s' = 25%nat).
Proof.
  split; [|split].
  - exact (proj1 (ground_is_level 9.95 [])).
  - vm_compute. reflexivity.
  - eexists. split; vm_compute; reflexivity.
Defined.

(** ** The exceptions of the simulation *)

(** *** The square root of a sum of squares *)

Lemma binary_round_aux_sign prec emax sx mx ex lx :
  match binary_round_aux prec emax sx mx ex lx with
  | S754_zero s | S754_infinity s | S754_finite s _ _ => s = sx
  | S754_nan => True
  end.
Proof.
  unfold binary_round_aux.
  destruct (shr_fexp prec emax mx ex lx) as [mrs' e'].
  destruct (shr_fexp prec emax _ e' loc_Exact) as [mrs'' e''].
  destruct (shr_m mrs''); [reflexivity | | exact I].
  destruct (e'' <=? emax - prec)%Z; reflexivity.
Qed.

Lemma binary_round_aux_not_negative prec emax mx ex lx :
  SFnot_negative (binary_round_aux prec emax false mx ex lx).
Proof.
  pose proof (binary_round_aux_sign prec emax false mx ex lx) as H.
  unfold SFnot_negative. destruct (binary_round_aux prec emax false mx ex lx); exact H.
Qed.

Lemma SFmul_square_not_negative prec emax x : SFnot_negative (SFmul prec emax x x).
Proof.
  destruct x as [s|s| |s m e]; cbn [SFmul SFnot_negative]; try (destruct s; reflexivity).
  - exact I.
  - replace (xorb s s) with false by (destruct s; reflexivity).
    apply binary_round_aux_not_negative.
Qed.

Lemma SFadd_not_negative prec emax x y :
  SFnot_negative x -> SFnot_negative y -> SFnot_negative (SFadd prec emax x y).
Proof.
  destruct x as [sx|sx| |sx mx ex], y as [sy|sy| |sy my ey];
    cbn [SFnot_negative]; intros Hx Hy; subst; cbn [SFadd SFnot_negative];
    try reflexivity; try exact I.
  cbn [cond_Zopp Z.add binary_normalize]. unfold binary_round.
  destruct (shl_align _ _ _) as [mz ez].
  apply binary_round_aux_not_negative.
Qed.

Lemma shr_1_m_nonneg mrs : (0 <= shr_m mrs)%Z -> (0 <= shr_m (shr_1 mrs))%Z.
Proof.
  destruct mrs as [m r s]. cbn [shr_m shr_1].
  destruct m as [|p|p]; [| |lia]; [cbn; lia|].
  destruct p; cbn; lia.
Qed.

Lemma iter_pos_shr_1_nonneg p : forall mrs,
  (0 <= shr_m mrs)%Z -> (0 <= shr_m (iter_pos shr_1 p mrs))%Z.
Proof.
  induction p as [p IH|p IH|]; intros mrs H; cbn [iter_pos].
  - apply IH, IH, shr_1_m_nonneg, H.
  - apply IH, IH, H.
  - apply shr_1_m_nonneg, H.
Qed.

Lemma shr_fexp_nonneg prec emax m e l :
  (0 <= m)%Z -> (0 <= shr_m (fst (shr_fexp prec emax m e l)))%Z.
Proof.
  intros Hm. unfold shr_fexp, shr.
  assert (H0 : (0 <= shr_m (shr_record_of_loc m l))%Z).
  { destruct l as [|[ | | ]]; exact Hm. }
  destruct (fexp prec emax (Zdigits2 m + e) - e)%Z; cbn [fst]; try exact H0.
  apply iter_pos_shr_1_nonneg, H0.
Qed.

Lemma round_nearest_even_nonneg m l :
  (0 <= m)%Z -> (0 <= round_nearest_even m l)%Z.
Proof.
  intros Hm. unfold round_nearest_even.
  destruct l as [|[ | | ]]; try exact Hm; [destruct (Z.even m)|]; lia.
Qed.

Lemma binary_round_aux_not_nan prec emax sx mx ex lx :
  (0 <= mx)%Z -> binary_round_aux prec emax sx mx ex lx <> S754_nan.
Proof.
  intros Hm. unfold binary_round_aux.
  pose proof (shr_fexp_nonneg prec emax mx ex lx Hm) as H1.
  destruct (shr_fexp prec emax mx ex lx) as [mrs' e']. cbn [fst] in H1.
  pose proof (shr_fexp_nonneg prec emax
                (round_nearest_even (shr_m mrs') (loc_of_shr_record mrs')) e' loc_Exact
                (round_nearest_even_nonneg _ _ H1)) as H2.
  destruct (shr_fexp prec emax _ e' loc_Exact) as [mrs'' e'']. cbn [fst] in H2.
  destruct (shr_m mrs'') as [|m|m]; [discriminate | | lia].
  destruct (e'' <=? emax - prec)%Z; discriminate.
Qed.

Lemma SFsqrt_not_nan prec emax x :
  SFnot_negative x -> x <> S754_nan -> SFsqrt prec emax x <> S754_nan.
Proof.
  destruct x as [s|s| |s m e]; cbn [SFnot_negative SFsqrt]; intros Hs Hx;
    try subst s; try discriminate; [congruence|].
  unfold SFsqrt_core_binary.
  destruct (Z.sqrtrem _) as [q r] eqn:E.
  apply binary_round_aux_not_nan.
  unfold Z.sqrtrem in E.
  destruct (match _ with Z.pos p => Z.shiftl (Z.pos m) _ | _ => _ end) as [|p|p];
    try (injection E as <- _; lia).
  destruct (Pos.sqrtrem p) as [s0 [ |r0| ]]; injection E as <- _; lia.
Qed.

Lemma is_nan_spec f : is_nan f = true <-> Prim2SF f = S754_nan.
Proof.
  unfold is_nan. rewrite eqb_spec. unfold SFeqb. split.
  - intros H. destruct (Prim2SF f) eqn:E; try reflexivity;
      rewrite SFcompare_refl in H by discriminate; discriminate.
  - intros ->. reflexivity.
Qed.

Lemma float_pow2_not_negative v r : float_pow2 v = Ok r -> not_negative r.
Proof.
  unfold float_pow2. destruct (is_finite v && is_infinity (v * v)); [discriminate|].
  intros H. injection H as <-. unfold not_negative. rewrite mul_spec.
  apply SFmul_square_not_negative.
Qed.

Lemma float_pow2_raises v e : float_pow2 v = Raise e -> e = OverflowError.
Proof.
  unfold float_pow2. destruct (is_finite v && is_infinity (v * v)); [|discriminate].
  intros H. injection H as <-. reflexivity.
Qed.

Lemma add_not_negative a b : not_negative a -> not_negative b -> not_negative (a + b).
Proof. unfold not_negative. rewrite add_spec. apply SFadd_not_negative. Qed.

(** [math.sqrt] does not raise on a value that is not negative. *)
Lemma math_sqrt_not_negative v : not_negative v -> math_sqrt v = Ok (sqrt v).
Proof.
  intros Hv. unfold math_sqrt.
  destruct (is_nan v) eqn:En; [rewrite andb_false_r; reflexivity|].
  destruct (is_nan (sqrt v)) eqn:Es; [|reflexivity].
  exfalso. apply is_nan_spec in Es. rewrite sqrt_spec in Es.
  revert Es. apply SFsqrt_not_nan; [exact Hv|].
  intros Hx. apply is_nan_spec in Hx. congruence.
Qed.

Lemma dist3_raises ax ay az bx by_ bz e :
  dist3 ax ay az bx by_ bz = Raise e -> e = OverflowError.
Proof.
  unfold dist3.
  destruct (float_pow2 (ax - bx)) as [dx2|e1] eqn:E1;
    [|cbn [rbind]; intros H; injection H as <-; eapply float_pow2_raises; exact E1].
  destruct (float_pow2 (ay - by_)) as [dy2|e2] eqn:E2;
    [|cbn [rbind]; intros H; injection H as <-; eapply float_pow2_raises; exact E2].
  destruct (float_pow2 (az - bz)) as [dz2|e3] eqn:E3;
    [|cbn [rbind]; intros H; injection H as <-; eapply float_pow2_raises; exact E3].
  cbn [rbind]. rewrite math_sqrt_not_negative; [discriminate|].
  apply float_pow2_not_negative in E1, E2, E3.
  apply add_not_negative; [apply add_not_negative|]; assumption.
Qed.

(** *** From the distance to the loop *)

Lemma only_overflow_ret {A : Type} (a : A) : only_overflow (ret a).
Proof. intros g c e H. discriminate H. Qed.

Lemma only_overflow_bind {A B : Type} (m : M A) (k : A -> M B) :
  only_overflow m -> (forall a, only_overflow (k a)) -> only_overflow (bind m k).
Proof.
  intros Hm Hk g c e H. unfold bind in H.
  destruct (m g c) as [[a c1]|e1] eqn:E.
  - eapply Hk; exact H.
  - injection H as <-. eapply Hm; exact E.
Qed.

Lemma only_overflow_lift {A : Type} (r : result A) :
  (forall e, r = Raise e -> e = OverflowError) -> only_overflow (lift r).
Proof.
  intros Hr g c e H. unfold lift in H. destruct r as [a|e1]; [discriminate|].
  injection H as <-. apply Hr. reflexivity.
Qed.

Lemma only_overflow_explode n x y z col ps : only_overflow (explode n x y z col ps).
Proof. intros g c e H. rewrite explode_eq in H. discriminate H. Qed.

Lemma only_overflow_laser_vs_enemy l e w : only_overflow (laser_vs_enemy l e w).
Proof.
  unfold laser_vs_enemy.
  destruct (negb (Enemy.active e) || negb (Laser.active l)); [apply only_overflow_ret|].
  apply only_overflow_bind.
  - apply only_overflow_lift. intros x. apply dist3_raises.
  - intros d. destruct (d <? Enemy.radius e + 1); [|apply only_overflow_ret].
    apply only_overflow_bind; [apply only_overflow_explode|]. intros ps1.
    apply only_overflow_bind; [apply only_overflow_explode|]. intros ps2.
    apply only_overflow_ret.
Qed.

Lemma only_overflow_laser_vs_enemies es : forall l w,
  only_overflow (laser_vs_enemies l es w).
Proof.
  induction es as [|e es IH]; intros l w; cbn [laser_vs_enemies].
  - apply only_overflow_ret.
  - apply only_overflow_bind; [apply only_overflow_laser_vs_enemy|].
    intros [[l1 e1] w1].
    apply only_overflow_bind; [apply IH|].
    intros [[l2 es2] w2]. apply only_overflow_ret.
Qed.

Lemma only_overflow_lasers_vs_enemies ls : forall es w,
  only_overflow (lasers_vs_enemies ls es w).
Proof.
  induction ls as [|l ls IH]; intros es w; cbn [lasers_vs_enemies].
  - apply only_overflow_ret.
  - apply only_overflow_bind; [apply only_overflow_laser_vs_enemies|].
    intros [[l1 es1] w1].
    apply only_overflow_bind; [apply IH|].
    intros [[ls2 es2] w2]. apply only_overflow_ret.
Qed.

Lemma only_overflow_player_vs_entity {A : Type} `{Entity A} (entity : A) w :
  only_overflow (player_vs_entity entity w).
Proof.
  unfold player_vs_entity.
  destruct (negb (ent_active entity)); [apply only_overflow_ret|].
  apply only_overflow_bind.
  - apply only_overflow_lift. intros x. apply dist3_raises.
  - intros d. destruct (d <? ent_radius entity + 1.5); [|apply only_overflow_ret].
    apply only_overflow_bind; [apply only_overflow_explode|]. intros ps1.
    destruct (_ <=? 0)%Z; apply only_overflow_ret.
Qed.

Lemma only_overflow_player_vs_entities {A : Type} `{Entity A} (ents : list A) :
  forall w, only_overflow (player_vs_entities ents w).
Proof.
  induction ents as [|a ents IH]; intros w; cbn [player_vs_entities].
  - apply only_overflow_ret.
  - apply only_overflow_bind; [apply only_overflow_player_vs_entity|].
    intros [a1 w1].
    apply only_overflow_bind; [apply IH|].
    intros [ents1 w2]. apply only_overflow_ret.
Qed.

Lemma only_overflow_collide w : only_overflow (collide w).
Proof.
  unfold collide, collide_lasers, collide_player.
  apply only_overflow_bind.
  - apply only_overflow_bind; [apply only_overflow_lasers_vs_enemies|].
    intros [[ls es] w1]. apply only_overflow_ret.
  - intros w1. apply only_overflow_bind; [apply only_overflow_player_vs_entities|].
    intros [hs w2]. apply only_overflow_ret.
Qed.

Lemma only_overflow_generate w : only_overflow (generate w).
Proof.
  intros g c e. unfold generate, bind, random, ret, Enemy.init, Obstacle.init, uniform,
    bind, random, ret.
  destruct (g c <? 0.02); destruct (g _ <? 0.03); discriminate.
Qed.

Lemma only_overflow_frame dt evs keys w : only_overflow (frame dt evs keys w).
Proof.
  unfold frame. destruct (game_over (handle_events evs w)); [apply only_overflow_ret|].
  unfold update_world.
  apply only_overflow_bind; [apply only_overflow_generate|].
  intros w1. apply only_overflow_collide.
Qed.

Lemma only_overflow_main_loop inputs : forall w, only_overflow (main_loop inputs w).
Proof.
  induction inputs as [|i inputs IH]; intros w; cbn [main_loop].
  - apply only_overflow_ret.
  - destruct (running w); [|apply only_overflow_ret].
    apply only_overflow_bind; [apply only_overflow_frame | exact IH].
Qed.


(** ** The health text *)

(** X18.  In every state the loop reaches, the health text is red exactly
    when the ship is on its last life (health 25) or the game is over, and
    green exactly when the health is 50, 75 or 100. *)
Theorem health_text_is_red_on_the_last_life (w : World) :
  reachable w ->
  (hp_color (player w) = RED
   <-> Player.hp (player w) = 25%Z \/ game_over w = true) /\
  (hp_color (player w) = GREEN
   <-> Player.hp (player w) = 50%Z \/ Player.hp (player w) = 75%Z \/
       Player.hp (player w) = 100%Z).
Proof.
  intros Hw. apply reachable_sound in Hw as (_ & (j & Hj) & Hgo & _).
  assert (Hlast : (Player.hp (player w) <= 25)%Z
                  -> Player.hp (player w) = 25%Z \/ game_over w = true).
  { intros Hle. destruct (Z.le_gt_cases (Player.hp (player w)) 0) as [H0|H0].
    - right. apply Hgo, H0.
    - left. lia. }
  assert (Hover : game_over w = true -> (Player.hp (player w) <= 25)%Z).
  { intros H. apply Hgo in H. lia. }
  unfold hp_color. destruct (Z.leb_spec (Player.hp (player w)) 25) as [Hle|Hgt].
  - split; split.
    + intros _. apply Hlast, Hle.
    + reflexivity.
    + discriminate.
    + lia.
  - split; split.
    + discriminate.
    + intros [H|H]; [lia | apply Hover in H; lia].
    + intros _. lia.
    + reflexivity.
Qed.

(** The state [wreck] is game-over, with health -25: the text is red. *)
Lemma health_text_is_red_on_the_last_life_witness :
  ((hp_color (player wreck) = RED
    <-> Player.hp (player wreck) = 25%Z \/ game_over wreck = true) /\
   (hp_color (player wreck) = GREEN
    <-> Player.hp (player wreck) = 50%Z \/ Player.hp (player wreck) = 75%Z \/
        Player.hp (player wreck) = 100%Z)) /\
  hp_color (player wreck) = RED.
Proof.
  split.
  - exact (health_text_is_red_on_the_last_life wreck
             (outcome_reachable overrun_inputs overrun_draws)).
  - vm_compute. reflexivity.
Defined.
